(** * A shallow embedding of the [time] utility library (src/time.ts, event.ts)

    The library offers three primitives (Interval, Delay, Until/While) built
    on a time registry.  This development models the updateable registry
    ([UpdateableTimeRegistry]), whose clock only moves when [update] is
    called, together with the three primitives and the promises they wrap.

    Modelling conventions.
    - Times, periods and identifiers are JavaScript numbers holding integers;
      they are modelled as [Z] (milliseconds).  Fractions, NaN and infinities
      are not modelled.  The sums of times are exact; those of the program
      are sums of binary64 numbers, which are exact as long as the operands
      and the sum are safe integers (magnitude below [2^53]).  Module
      [Binary64] has the registry over binary64 numbers, to follow the
      program where its sums round.
    - A JavaScript [Map] is modelled after the ECMAScript specification: a
      list of entries in insertion order in which [delete] empties an entry
      in place, so that a running iterator (an index into the list) skips
      deleted entries and sees no shift.
    - Objects live in stores indexed by allocation order; a closure is a
      constructor of [Handler] or of a canceller type naming the object and
      the variables it captured.
    - Caller-supplied callbacks (handlers given directly to the registry,
      tick listeners) are observers: running one appends a record to the
      world's trace and does not call back into the library.  A caller's
      predicate for Until is a function of the caller's own state [Env].
    - A call [None] stands for a call that does not return normally. *)

From Stdlib Require Import PrimFloat.
From stdpp Require Import base option list numbers strings.

Local Open Scope Z_scope.

(** ** ECMAScript [Map] with number keys *)

Abbreviation EsMap V := (list (option (Z * V))).

(** [Map.prototype.set]: replaces the value of an existing key in place,
    appends a new entry otherwise. *)
Fixpoint Map_set {V : Type} (k : Z) (v : V) (m : EsMap V) : EsMap V :=
  match m with
  | [] => [Some (k, v)]
  | Some (k', v') :: m' =>
      if k' =? k then Some (k, v) :: m' else Some (k', v') :: Map_set k v m'
  | None :: m' => None :: Map_set k v m'
  end.

Definition Map_delete_entry {V : Type} (k : Z) (e : option (Z * V)) : option (Z * V) :=
  match e with
  | Some (k', v) => if k' =? k then None else Some (k', v)
  | None => None
  end.

(** [Map.prototype.delete]: the entry is emptied, the list keeps its length. *)
Definition Map_delete {V : Type} (k : Z) (m : EsMap V) : EsMap V :=
  Map_delete_entry k <$> m.

Fixpoint Map_get {V : Type} (k : Z) (m : EsMap V) : option V :=
  match m with
  | [] => None
  | Some (k', v) :: m' => if k' =? k then Some v else Map_get k m'
  | None :: m' => Map_get k m'
  end.

Definition Map_keys {V : Type} (m : EsMap V) : list Z :=
  omap (fmap fst) m.

(** ** Closures handed to the registry *)

Inductive Handler : Type :=
  | HUser (tag : nat)
      (** a callback supplied by a caller of the registry *)
  | HTick (i : nat)
      (** [() => this._onTick.fire(this._registry.now())] of Interval [i] *)
  | HDelayFire (d : nat)
      (** the timeout closure of [Delay.start] for Delay [d] *)
  | HPoll (u : nat) (intervalId : Z) (resolver : nat).
      (** the polling closure of [Until.start] for Until [u]; it captures
          the constant [intervalId] and the variable [resolver] *)

Record TimeoutHandler : Type := mkTimeout {
  t_handler : Handler;
  t_args : list Z;
  t_allowedExecutionTime : Z
}.

Record IntervalHandler : Type := mkInterval {
  i_handler : Handler;
  i_args : list Z;
  i_interval : Z;
  i_allowedExecutionTime : Z
}.

(** ** The updateable registry *)

Definition MIN_SAFE_INTEGER : Z := - (2 ^ 53 - 1).
Definition MAX_SAFE_INTEGER : Z := 2 ^ 53 - 1.

Record UpdateableTimeRegistry : Type := mkRegistry {
  _intervals : EsMap IntervalHandler;
  _timeouts : EsMap TimeoutHandler;
  _currentId : Z;
  _lastTime : Z
}.

(** [new UpdateableTimeRegistry(startTime)] *)
Definition Registry_new (startTime : Z) : UpdateableTimeRegistry :=
  mkRegistry [] [] MIN_SAFE_INTEGER startTime.

Definition now (r : UpdateableTimeRegistry) : Z := _lastTime r.

Definition _generateId (r : UpdateableTimeRegistry) : Z * UpdateableTimeRegistry :=
  let id := _currentId r in
  let next := id + 1 in
  (id, mkRegistry (_intervals r) (_timeouts r)
         (if next =? MAX_SAFE_INTEGER then MIN_SAFE_INTEGER else next)
         (_lastTime r)).

(** [x ? Math.max(x, 0) : 0] for an optional number: absent and zero are
    falsy. *)
Definition clamp (x : option Z) : Z :=
  match x with
  | Some n => if n =? 0 then 0 else Z.max n 0
  | None => 0
  end.

Definition setInterval (handler : Handler) (interval : option Z) (args : list Z)
    (r : UpdateableTimeRegistry) : Z * UpdateableTimeRegistry :=
  let '(id, r1) := _generateId r in
  let interval := clamp interval in
  (id, mkRegistry
         (Map_set id (mkInterval handler args interval (_lastTime r1 + interval))
            (_intervals r1))
         (_timeouts r1) (_currentId r1) (_lastTime r1)).

Definition clearInterval (id : Z) (r : UpdateableTimeRegistry) : UpdateableTimeRegistry :=
  mkRegistry (Map_delete id (_intervals r)) (_timeouts r) (_currentId r) (_lastTime r).

Definition setTimeout (handler : Handler) (delay : option Z) (args : list Z)
    (r : UpdateableTimeRegistry) : Z * UpdateableTimeRegistry :=
  let '(id, r1) := _generateId r in
  let delay := clamp delay in
  (id, mkRegistry (_intervals r1)
         (Map_set id (mkTimeout handler args (_lastTime r1 + delay)) (_timeouts r1))
         (_currentId r1) (_lastTime r1)).

Definition clearTimeout (id : Z) (r : UpdateableTimeRegistry) : UpdateableTimeRegistry :=
  mkRegistry (_intervals r) (Map_delete id (_timeouts r)) (_currentId r) (_lastTime r).

(** ** Promises *)

Inductive PromiseState : Type :=
  | Pending
  | Fulfilled
  | Rejected (reason : string).

(** The resolving functions of a promise only act on a pending promise. *)
Definition settle (p : nat) (s : PromiseState) (store : list PromiseState) : list PromiseState :=
  match store !! p with
  | Some Pending => <[p := s]> store
  | _ => store
  end.

(** ** The primitives *)

(** The two closures [Interval._canceller] can hold. *)
Inductive IntervalCanceller : Type :=
  | ICNoop
  | ICClear (intervalId : Z).

Record Interval : Type := mkIntervalObj {
  iv_listeners : list nat;          (** [_onTick._listeners] *)
  iv_interval : Z;                 (** [_interval] *)
  iv_isStarted : bool;
  iv_canceller : IntervalCanceller
}.

(** The two closures [Delay._createCanceler] can return. *)
Inductive DelayCanceller : Type :=
  | DCNoop
  | DCArmed (timeoutId : Z) (rejecter : nat).

Record Delay : Type := mkDelay {
  d_promise : nat;
  d_resolver : nat;                (** the promise [_resolver] fulfils *)
  d_rejecter : nat;                (** the promise [_rejecter] rejects *)
  d_canceller : DelayCanceller;
  d_duration : Z;
  d_rejectOnCancel : bool;
  d_isStarted : bool;
  d_isInitialized : bool
}.

(** Calls and callbacks recorded in the trace, oldest first. *)
Inductive Kind : Type := KInterval | KTimeout.

Inductive Obs : Type :=
  | OFire (k : Kind) (id : Z)        (** [update] invokes the handler of item [id] *)
  | OUser (tag : nat) (args : list Z) (** a caller's handler runs *)
  | OTick (i : nat) (time : Z)       (** [_onTick.fire(time)] of Interval [i] *)
  | OListener (l : nat) (time : Z)   (** tick listener [l] receives [time] *)
  | ODelayStart (d : nat)            (** [Delay.start] is called *)
  | ODelayCancel (d : nat)           (** [Delay.cancel] is called *)
  | ODelayFired (d : nat).           (** the timeout closure of Delay [d] runs *)

Section World.

Context {Env : Type}.

Record Until : Type := mkUntil {
  u_promise : nat;
  u_condition : option (Env -> bool);   (** [None] is [undefined] *)
  u_isStarted : bool
}.

Record World : Type := mkWorld {
  registry : UpdateableTimeRegistry;
  promises : list PromiseState;
  intervals : list Interval;
  delays : list Delay;
  untils : list Until;
  awaiters : list (nat * nat);    (** awaiter, promise it is attached to *)
  env : Env;
  trace : list Obs
}.

Definition with_registry (r : UpdateableTimeRegistry) (w : World) : World :=
  mkWorld r (promises w) (intervals w) (delays w) (untils w) (awaiters w) (env w) (trace w).
Definition with_promises (ps : list PromiseState) (w : World) : World :=
  mkWorld (registry w) ps (intervals w) (delays w) (untils w) (awaiters w) (env w) (trace w).
Definition with_intervals (l : list Interval) (w : World) : World :=
  mkWorld (registry w) (promises w) l (delays w) (untils w) (awaiters w) (env w) (trace w).
Definition with_delays (l : list Delay) (w : World) : World :=
  mkWorld (registry w) (promises w) (intervals w) l (untils w) (awaiters w) (env w) (trace w).
Definition with_untils (l : list Until) (w : World) : World :=
  mkWorld (registry w) (promises w) (intervals w) (delays w) l (awaiters w) (env w) (trace w).
Definition with_awaiters (l : list (nat * nat)) (w : World) : World :=
  mkWorld (registry w) (promises w) (intervals w) (delays w) (untils w) l (env w) (trace w).
Definition with_env (e : Env) (w : World) : World :=
  mkWorld (registry w) (promises w) (intervals w) (delays w) (untils w) (awaiters w) e (trace w).
Definition log (o : Obs) (w : World) : World :=
  mkWorld (registry w) (promises w) (intervals w) (delays w) (untils w) (awaiters w) (env w)
    (trace w ++ [o]).

(** A world holding a fresh registry and no object. *)
Definition World_new (startTime : Z) (e : Env) : World :=
  mkWorld (Registry_new startTime) [] [] [] [] [] e [].

(** [new Promise(...)] whose resolving functions are kept, and
    [Promise.resolve()]: the new promise is the next one of the store. *)
Definition Promise_new (s : PromiseState) (w : World) : nat * World :=
  (length (promises w), with_promises (promises w ++ [s]) w).

Definition resolve (p : nat) (w : World) : World :=
  with_promises (settle p Fulfilled (promises w)) w.
Definition reject (p : nat) (reason : string) (w : World) : World :=
  with_promises (settle p (Rejected reason) (promises w)) w.

(** [Event.fire(value)]: every listener of a copy of the list is called. *)
Definition Event_fire (listeners : list nat) (value : Z) (w : World) : World :=
  fold_left (fun w l => log (OListener l value) w) listeners w.

(** [Event.add] and [Event.remove] (the first occurrence is spliced out). *)
Definition Event_add (l : nat) (listeners : list nat) : list nat := listeners ++ [l].
Fixpoint Event_remove (l : nat) (listeners : list nat) : list nat :=
  match listeners with
  | [] => []
  | l' :: ls => if Nat.eqb l' l then ls else l' :: Event_remove l ls
  end.

(** [Delay._createCanceler(timeoutId?, rejecter?)]: the test
    [!timeoutId || !rejecter] holds for an absent argument and for the
    number 0. *)
Definition _createCanceler (timeoutId : option Z) (rejecter : option nat) : DelayCanceller :=
  match timeoutId, rejecter with
  | Some id, Some rej => if id =? 0 then DCNoop else DCArmed id rej
  | _, _ => DCNoop
  end.

(** *** Interval *)

Definition Interval_start (i : nat) (w : World) : option World :=
  iv ← intervals w !! i;
  if iv_isStarted iv then Some w
  else
    let '(intervalId, r) :=
      setInterval (HTick i) (Some (iv_interval iv)) [] (registry w) in
    Some (with_intervals
            (<[i := mkIntervalObj (iv_listeners iv) (iv_interval iv) true (ICClear intervalId)]>
               (intervals w))
            (with_registry r w)).

Definition Interval_new (interval : Z) (autoStart : bool) (w : World) : option (nat * World) :=
  let i := length (intervals w) in
  let w1 := with_intervals (intervals w ++ [mkIntervalObj [] (Z.max 0 interval) false ICNoop]) w in
  if autoStart then w2 ← Interval_start i w1; Some (i, w2) else Some (i, w1).

Definition Interval_cancel (i : nat) (w : World) : option World :=
  iv ← intervals w !! i;
  let r :=
    match iv_canceller iv with
    | ICNoop => registry w
    | ICClear intervalId => clearInterval intervalId (registry w)
    end in
  Some (with_intervals
          (<[i := mkIntervalObj (iv_listeners iv) (iv_interval iv) false ICNoop]> (intervals w))
          (with_registry r w)).

Definition Interval_reset (i : nat) (interval : Z) (w : World) : option World :=
  w1 ← Interval_cancel i w;
  iv ← intervals w1 !! i;
  Some (with_intervals
          (<[i := mkIntervalObj (iv_listeners iv) (Z.max 0 interval) (iv_isStarted iv)
                   (iv_canceller iv)]> (intervals w1)) w1).

Definition onTick_add (i l : nat) (w : World) : option World :=
  iv ← intervals w !! i;
  Some (with_intervals
          (<[i := mkIntervalObj (Event_add l (iv_listeners iv)) (iv_interval iv)
                   (iv_isStarted iv) (iv_canceller iv)]> (intervals w)) w).

Definition onTick_remove (i l : nat) (w : World) : option World :=
  iv ← intervals w !! i;
  Some (with_intervals
          (<[i := mkIntervalObj (Event_remove l (iv_listeners iv)) (iv_interval iv)
                   (iv_isStarted iv) (iv_canceller iv)]> (intervals w)) w).

(** *** Delay *)

(** [Delay._createPromise()]: a new promise with its two resolving
    functions, each named by the promise it settles. *)
Definition _createPromise (w : World) : (nat * nat * nat) * World :=
  let '(p, w1) := Promise_new Pending w in ((p, p, p), w1).

Definition Delay_start (d : nat) (w : World) : option World :=
  dl ← delays w !! d;
  let w := log (ODelayStart d) w in
  if d_isStarted dl then Some w
  else
    let '(dl, w) :=
      if d_isInitialized dl then (dl, w)
      else
        let '((promise, resolver, rejecter), w1) := _createPromise w in
        (mkDelay promise resolver rejecter (d_canceller dl) (d_duration dl)
           (d_rejectOnCancel dl) (d_isStarted dl) true, w1) in
    let '(timeoutId, r) :=
      setTimeout (HDelayFire d) (Some (d_duration dl)) [] (registry w) in
    Some (with_delays
            (<[d := mkDelay (d_promise dl) (d_resolver dl) (d_rejecter dl)
                      (_createCanceler (Some timeoutId) (Some (d_rejecter dl)))
                      (d_duration dl) (d_rejectOnCancel dl) (d_isStarted dl)
                      (d_isInitialized dl)]> (delays w))
            (with_registry r w)).

Definition Delay_new (duration : Z) (rejectOnCancel autoStart : bool) (w : World)
    : option (nat * World) :=
  let d := length (delays w) in
  let '((promise, resolver, rejecter), w1) := _createPromise w in
  let w2 :=
    with_delays
      (delays w1 ++ [mkDelay promise resolver rejecter (_createCanceler None None)
                       (Z.max 0 duration) rejectOnCancel false true]) w1 in
  if autoStart then w3 ← Delay_start d w2; Some (d, w3) else Some (d, w2).

Definition Delay_cancel (d : nat) (w : World) : option World :=
  dl ← delays w !! d;
  let w := log (ODelayCancel d) w in
  match d_canceller dl with
  | DCNoop => Some w
  | DCArmed timeoutId rejecter =>
      let w1 := if d_rejectOnCancel dl then reject rejecter "cancelled" w else w in
      Some (with_delays
              (<[d := mkDelay (d_promise dl) (d_resolver dl) (d_rejecter dl) DCNoop
                        (d_duration dl) (d_rejectOnCancel dl) false false]> (delays w1))
              (with_registry (clearTimeout timeoutId (registry w1)) w1))
  end.

Definition Delay_reset (d : nat) (duration : Z) (w : World) : option World :=
  w1 ← Delay_cancel d w;
  dl ← delays w1 !! d;
  Some (with_delays
          (<[d := mkDelay (d_promise dl) (d_resolver dl) (d_rejecter dl) (d_canceller dl)
                    (Z.max 0 duration) (d_rejectOnCancel dl) (d_isStarted dl)
                    (d_isInitialized dl)]> (delays w1)) w1).

(** [then], [catch] and [finally] all delegate to the current [_promise]:
    the awaiter is attached to that promise. *)
Definition Delay_then (d a : nat) (w : World) : option World :=
  dl ← delays w !! d;
  Some (with_awaiters (awaiters w ++ [(a, d_promise dl)]) w).

(** *** Until *)

Definition Until_start (u : nat) (w : World) : option World :=
  un ← untils w !! u;
  if u_isStarted un then Some w
  else
    let '(resolver, w1) := Promise_new Pending w in
    (* the closure captures the constant that receives the identifier
       [setInterval] returns, which is the current [_currentId] *)
    let intervalId := _currentId (registry w1) in
    let '(_, r) := setInterval (HPoll u intervalId resolver) (Some 0) [] (registry w1) in
    Some (with_untils (<[u := mkUntil resolver (u_condition un) true]> (untils w1))
            (with_registry r w1)).

Definition Until_new (condition : Env -> bool) (autoStart : bool) (w : World)
    : option (nat * World) :=
  let u := length (untils w) in
  let '(p, w1) := Promise_new Fulfilled w in
  let w2 := with_untils (untils w1 ++ [mkUntil p (Some condition) false]) w1 in
  if autoStart then w3 ← Until_start u w2; Some (u, w3) else Some (u, w2).

(** [Time.while(condition)] is an Until over the negated condition. *)
Definition While_new (condition : Env -> bool) (autoStart : bool) (w : World)
    : option (nat * World) :=
  Until_new (fun e => negb (condition e)) autoStart w.

Definition Until_then (u a : nat) (w : World) : option World :=
  un ← untils w !! u;
  Some (with_awaiters (awaiters w ++ [(a, u_promise un)]) w).

(** ** Running a handler *)

(** What calling [handler(...args)] does.  The polling closure of an Until
    calls [this._condition], which throws once the field is [undefined]. *)
Definition run_handler (h : Handler) (args : list Z) (w : World) : option World :=
  match h with
  | HUser tag => Some (log (OUser tag args) w)
  | HTick i =>
      iv ← intervals w !! i;
      let time := now (registry w) in
      Some (Event_fire (iv_listeners iv) time (log (OTick i time) w))
  | HDelayFire d =>
      dl ← delays w !! d;
      let w1 :=
        with_delays
          (<[d := mkDelay (d_promise dl) (d_resolver dl) (d_rejecter dl)
                    (_createCanceler None None) (d_duration dl) (d_rejectOnCancel dl)
                    false false]> (delays w)) (log (ODelayFired d) w) in
      Some (resolve (d_resolver dl) w1)
  | HPoll u intervalId resolver =>
      un ← untils w !! u;
      match u_condition un with
      | None => None
      | Some condition =>
          if condition (env w) then
            let w1 := resolve resolver w in
            let w2 := with_registry (clearInterval intervalId (registry w1)) w1 in
            Some (with_untils
                    (<[u := mkUntil (u_promise un) None (u_isStarted un)]> (untils w2)) w2)
          else Some w
      end
  end.

(** ** [update] *)

(** [interval.allowedExecutionTime = t] on the entry object the iterator
    yielded at position [i]; an entry deleted meanwhile is no longer in the
    map. *)
Definition rearm (i : nat) (t : Z) (m : EsMap IntervalHandler) : EsMap IntervalHandler :=
  match m !! i with
  | Some (Some (id, it)) =>
      <[i := Some (id, mkInterval (i_handler it) (i_args it) (i_interval it) t)]> m
  | _ => m
  end.

Definition with_intervals_map (m : EsMap IntervalHandler) (w : World) : World :=
  with_registry
    (mkRegistry m (_timeouts (registry w)) (_currentId (registry w)) (_lastTime (registry w))) w.

Definition with_lastTime (t : Z) (w : World) : World :=
  with_registry
    (mkRegistry (_intervals (registry w)) (_timeouts (registry w)) (_currentId (registry w)) t) w.

(** The first loop of [update], from iterator position [i].  The iterator
    reads the map as it is when it advances.  [fuel] bounds the number of
    steps; running out of it is reported as [None]. *)
Fixpoint update_intervals (fuel : nat) (i : nat) (currentTime : Z) (w : World)
    : option World :=
  match (_intervals (registry w) !! i : option (option (Z * IntervalHandler))) with
  | None => Some w
  | Some entry =>
      match fuel with
      | O => None
      | S fuel' =>
          match entry with
          | None => update_intervals fuel' (S i) currentTime w
          | Some (id, interval) =>
              if i_allowedExecutionTime interval <=? currentTime then
                w1 ← run_handler (i_handler interval) (i_args interval)
                       (log (OFire KInterval id) w);
                update_intervals fuel' (S i) currentTime
                  (with_intervals_map
                     (rearm i (currentTime + i_interval interval) (_intervals (registry w1)))
                     w1)
              else update_intervals fuel' (S i) currentTime w
          end
      end
  end.

(** The second loop of [update]. *)
Fixpoint update_timeouts (fuel : nat) (i : nat) (currentTime : Z) (w : World)
    : option World :=
  match (_timeouts (registry w) !! i : option (option (Z * TimeoutHandler))) with
  | None => Some w
  | Some entry =>
      match fuel with
      | O => None
      | S fuel' =>
          match entry with
          | None => update_timeouts fuel' (S i) currentTime w
          | Some (id, timeout) =>
              if t_allowedExecutionTime timeout <=? currentTime then
                w1 ← run_handler (t_handler timeout) (t_args timeout)
                       (log (OFire KTimeout id) w);
                update_timeouts fuel' (S i) currentTime
                  (with_registry (clearTimeout id (registry w1)) w1)
              else update_timeouts fuel' (S i) currentTime w
          end
      end
  end.

(** [update(delta)].  No handler of this model adds an entry to a map of the
    registry, so the number of entries at the start of a loop bounds its
    steps: [update_spec] shows that, in every well-formed world, both loops
    end within this fuel and no handler throws. *)
Definition update (delta : Z) (w : World) : option World :=
  let currentTime := _lastTime (registry w) + delta in
  w1 ← update_intervals (length (_intervals (registry w))) 0 currentTime w;
  w2 ← update_timeouts (length (_timeouts (registry w1))) 0 currentTime w1;
  Some (with_lastTime currentTime w2).

(** ** Calls a program makes on a world *)

Inductive Op : Type :=
  | RegUpdate (delta : Z)
  | RegSetInterval (tag : nat) (interval : option Z) (args : list Z)
  | RegClearInterval (id : Z)
  | RegSetTimeout (tag : nat) (delay : option Z) (args : list Z)
  | RegClearTimeout (id : Z)
  | NewInterval (interval : Z) (autoStart : bool)
  | IntervalStart (i : nat)
  | IntervalCancel (i : nat)
  | IntervalReset (i : nat) (interval : Z)
  | OnTickAdd (i l : nat)
  | OnTickRemove (i l : nat)
  | NewDelay (duration : Z) (rejectOnCancel autoStart : bool)
  | DelayStart (d : nat)
  | DelayCancel (d : nat)
  | DelayReset (d : nat) (duration : Z)
  | DelayThen (d a : nat)
  | NewUntil (condition : Env -> bool) (autoStart : bool)
  | UntilStart (u : nat)
  | UntilThen (u a : nat)
  | UserAssign (f : Env -> Env).

Definition step (o : Op) (w : World) : option World :=
  match o with
  | RegUpdate delta => update delta w
  | RegSetInterval tag interval args =>
      Some (with_registry (setInterval (HUser tag) interval args (registry w)).2 w)
  | RegClearInterval id => Some (with_registry (clearInterval id (registry w)) w)
  | RegSetTimeout tag delay args =>
      Some (with_registry (setTimeout (HUser tag) delay args (registry w)).2 w)
  | RegClearTimeout id => Some (with_registry (clearTimeout id (registry w)) w)
  | NewInterval interval autoStart => snd <$> Interval_new interval autoStart w
  | IntervalStart i => Interval_start i w
  | IntervalCancel i => Interval_cancel i w
  | IntervalReset i interval => Interval_reset i interval w
  | OnTickAdd i l => onTick_add i l w
  | OnTickRemove i l => onTick_remove i l w
  | NewDelay duration rejectOnCancel autoStart =>
      snd <$> Delay_new duration rejectOnCancel autoStart w
  | DelayStart d => Delay_start d w
  | DelayCancel d => Delay_cancel d w
  | DelayReset d duration => Delay_reset d duration w
  | DelayThen d a => Delay_then d a w
  | NewUntil condition autoStart => snd <$> Until_new condition autoStart w
  | UntilStart u => Until_start u w
  | UntilThen u a => Until_then u a w
  | UserAssign f => Some (with_env (f (env w)) w)
  end.

Fixpoint run (ops : list Op) (w : World) : option World :=
  match ops with
  | [] => Some w
  | o :: ops' => w1 ← step o w; run ops' w1
  end.

(** The worlds a program can produce from a fresh registry. *)
Definition reachable (w : World) : Prop :=
  exists startTime e ops, run ops (World_new startTime e) = Some w.

(** ** What the trace shows *)

(** The items [update] fired, oldest first. *)
Definition fires (k : Kind) (tr : list Obs) : list Z :=
  omap (fun o => match o, k with
                 | OFire KInterval id, KInterval => Some id
                 | OFire KTimeout id, KTimeout => Some id
                 | _, _ => None
                 end) tr.

(** The times the tick event of Interval [i] carried, oldest first. *)
Definition ticks (i : nat) (tr : list Obs) : list Z :=
  omap (fun o => match o with
                 | OTick j t => if Nat.eqb j i then Some t else None
                 | _ => None
                 end) tr.

(** The keys of the entries of a map that are due at [currentTime]. *)
Definition due_ids {V : Type} (allowed : V -> Z) (currentTime : Z) (m : EsMap V) : list Z :=
  omap (fun e => match e with
                 | Some (id, v) => if allowed v <=? currentTime then Some id else None
                 | None => None
                 end) m.

(** ** Predicates of the properties *)

(** Promise [p] is in state [s]. *)
Definition settled_as (p : nat) (s : PromiseState) (w : World) : Prop :=
  promises w !! p = Some s.

(** The value of [_currentId] after [_generateId]. *)
Definition next_id (r : UpdateableTimeRegistry) : Z :=
  if _currentId r + 1 =? MAX_SAFE_INTEGER then MIN_SAFE_INTEGER else _currentId r + 1.

(** The Until [u] is started and still holds its condition. *)
Definition until_polling (u : nat) (w : World) : Prop :=
  exists un c, untils w !! u = Some un /\ u_condition un = Some c /\ u_isStarted un = true.

(** An Until that was not started still holds its condition. *)
Definition untils_ok (w : World) : Prop :=
  forall u un, untils w !! u = Some un -> u_isStarted un = false -> is_Some (u_condition un).

(** The closures found in [_intervals]: the library only puts there tick
    closures of existing Intervals and polling closures that captured the
    key they are stored under. *)
Definition ihandler_ok (w : World) (id : Z) (h : Handler) : Prop :=
  match h with
  | HUser _ => True
  | HTick i => is_Some (intervals w !! i)
  | HDelayFire _ => False
  | HPoll u id' _ => id' = id /\ until_polling u w
  end.

(** The closures found in [_timeouts]. *)
Definition thandler_ok (w : World) (h : Handler) : Prop :=
  match h with
  | HUser _ => True
  | HDelayFire d => is_Some (delays w !! d)
  | HTick _ | HPoll _ _ _ => False
  end.

(** Well-formed worlds: the keys of each map are distinct, the closures in
    the maps are in order, and an Until has at most one polling closure. *)
Record wf (w : World) : Prop := mk_wf {
  wf_ikeys : NoDup (Map_keys (_intervals (registry w)));
  wf_tkeys : NoDup (Map_keys (_timeouts (registry w)));
  wf_ih : forall j id it,
    _intervals (registry w) !! j = Some (Some (id, it)) -> ihandler_ok w id (i_handler it);
  wf_th : forall j id t,
    _timeouts (registry w) !! j = Some (Some (id, t)) -> thandler_ok w (t_handler t);
  wf_poll : forall j1 j2 id1 id2 it1 it2 u k1 k2 p1 p2,
    _intervals (registry w) !! j1 = Some (Some (id1, it1)) -> i_handler it1 = HPoll u k1 p1 ->
    _intervals (registry w) !! j2 = Some (Some (id2, it2)) -> i_handler it2 = HPoll u k2 p2 ->
    k1 = k2;
  wf_cond : untils_ok w
}.

(** Every pending item is due at or after the time of the registry, and
    periods are not negative. *)
Record timely (w : World) : Prop := mk_timely {
  timely_i : forall j id it,
    _intervals (registry w) !! j = Some (Some (id, it)) ->
    0 <= i_interval it /\ _lastTime (registry w) <= i_allowedExecutionTime it;
  timely_t : forall j id t,
    _timeouts (registry w) !! j = Some (Some (id, t)) ->
    _lastTime (registry w) <= t_allowedExecutionTime t
}.

(** The objects of [w] are objects of [w'] and the Untils polling in [w]
    still poll in [w']. *)
Definition objs_kept (w w' : World) : Prop :=
  (forall i, is_Some (intervals w !! i) -> is_Some (intervals w' !! i)) /\
  (forall d, is_Some (delays w !! d) -> is_Some (delays w' !! d)) /\
  (forall u, until_polling u w -> until_polling u w') /\
  (untils_ok w -> untils_ok w').

(** The entry [it] once [allowedExecutionTime = t] is assigned. *)
Definition rearmed (t : Z) (it : IntervalHandler) : IntervalHandler :=
  mkInterval (i_handler it) (i_args it) (i_interval it) t.

(** What the first loop makes of an entry: an entry that is due is re-armed
    at [cur + interval], unless its own handler deleted it (the polling
    closure of an Until whose condition holds); other entries stay. *)
Definition interval_post (cur : Z) (e e' : option (Z * IntervalHandler)) : Prop :=
  match e with
  | None => e' = None
  | Some (id, it) =>
      if i_allowedExecutionTime it <=? cur then
        e' = Some (id, rearmed (cur + i_interval it) it) \/
        (e' = None /\ exists u p, i_handler it = HPoll u id p)
      else e' = e
  end.

(** What the second loop makes of an entry: an entry that is due is
    deleted. *)
Definition timeout_post (cur : Z) (e e' : option (Z * TimeoutHandler)) : Prop :=
  match e with
  | None => e' = None
  | Some (id, t) => if t_allowedExecutionTime t <=? cur then e' = None else e' = e
  end.

(** The invariant of the worlds a program can reach. *)
Definition Inv (w : World) : Prop := wf w /\ timely w.

(** The Until [u] has [_isStarted = true]. *)
Definition until_started (u : nat) (w : World) : Prop :=
  exists un, untils w !! u = Some un /\ u_isStarted un = true.

(** The Until [u] was not started and holds the promise [p]. *)
Definition until_idle (u p : nat) (w : World) : Prop :=
  exists un, untils w !! u = Some un /\ u_promise un = p /\ u_isStarted un = false.

(** The records of the life of Delay [d]: calls of [start] and [cancel],
    and runs of its timeout closure. *)
Definition delay_event (d : nat) (o : Obs) : bool :=
  match o with
  | ODelayStart d' | ODelayCancel d' | ODelayFired d' => Nat.eqb d' d
  | _ => false
  end.

(** The latest such record of the trace. *)
Definition last_event (d : nat) (tr : list Obs) : option Obs :=
  fold_left (fun acc o => if delay_event d o then Some o else acc) tr None.

(** A Delay whose canceller is armed was started last. *)
Definition canceller_inv (w : World) : Prop :=
  forall d dl, delays w !! d = Some dl -> d_canceller dl <> DCNoop ->
    last_event d (trace w) = Some (ODelayStart d).

(** An operation that does not move the clock backwards. *)
Definition forward (o : Op) : Prop :=
  match o with
  | RegUpdate delta => 0 <= delta
  | _ => True
  end.

(** The methods of the registry. *)
Definition registry_op (o : Op) : Prop :=
  match o with
  | RegUpdate _ | RegSetInterval _ _ _ | RegClearInterval _
  | RegSetTimeout _ _ _ | RegClearTimeout _ => True
  | _ => False
  end.

(** No method of Delay sets [_isStarted] to true. *)
Definition delays_not_started (w : World) : Prop :=
  Forall (fun dl => d_isStarted dl = false) (delays w).

(** ** Further definitions *)

(** The number of identifiers [_generateId] cycles through. *)
Definition ID_PERIOD : Z := MAX_SAFE_INTEGER - MIN_SAFE_INTEGER.

(** [n] calls of [_generateId] in a row: the identifiers returned, oldest
    first, and the registry left. *)
Fixpoint generate_ids (n : nat) (r : UpdateableTimeRegistry)
    : list Z * UpdateableTimeRegistry :=
  match n with
  | O => ([], r)
  | S n' =>
      let '(id, r1) := _generateId r in
      let '(ids, r2) := generate_ids n' r1 in
      (id :: ids, r2)
  end.

(** [_currentId] is a safe integer below [MAX_SAFE_INTEGER]. *)
Definition id_in_range (r : UpdateableTimeRegistry) : Prop :=
  MIN_SAFE_INTEGER <= _currentId r < MAX_SAFE_INTEGER.

(** A call that schedules no repeating item. *)
Definition schedules_no_interval (o : Op) : Prop :=
  match o with
  | RegSetInterval _ _ _ | IntervalStart _ | UntilStart _ => False
  | NewInterval _ autoStart | NewUntil _ autoStart => autoStart = false
  | _ => True
  end.

(** A call that schedules no one-shot item. *)
Definition schedules_no_timeout (o : Op) : Prop :=
  match o with
  | RegSetTimeout _ _ _ | DelayStart _ => False
  | NewDelay _ _ autoStart => autoStart = false
  | _ => True
  end.

(** ** What a run of [update] shows *)

(** The records a handler leaves when it is called in [w]: a user
    callback is recorded with its arguments; the tick closure of an
    Interval fires its event with [now()], and the event calls the
    listeners in the order they were added; the polling closure of an
    Until leaves none. *)
Definition handler_obs (w : World) (h : Handler) (args : list Z) : list Obs :=
  match h with
  | HUser tag => [OUser tag args]
  | HTick i =>
      match intervals w !! i with
      | Some iv =>
          OTick i (now (registry w))
            :: ((fun l => OListener l (now (registry w))) <$> iv_listeners iv)
      | None => []
      end
  | HDelayFire d => [ODelayFired d]
  | HPoll _ _ _ => []
  end.

(** The records of an entry of [_intervals] in a run of [update] that
    advances the clock to [cur]. *)
Definition interval_obs (w : World) (cur : Z) (e : option (Z * IntervalHandler))
    : list Obs :=
  match e with
  | Some (id, it) =>
      if i_allowedExecutionTime it <=? cur
      then OFire KInterval id :: handler_obs w (i_handler it) (i_args it)
      else []
  | None => []
  end.

(** The records of an entry of [_timeouts]. *)
Definition timeout_obs (w : World) (cur : Z) (e : option (Z * TimeoutHandler))
    : list Obs :=
  match e with
  | Some (id, t) =>
      if t_allowedExecutionTime t <=? cur
      then OFire KTimeout id :: handler_obs w (t_handler t) (t_args t)
      else []
  | None => []
  end.

(** ** The Intervals and the registry *)

(** What ties the Intervals to the registry: the period of an Interval is
    not negative; an Interval that is not started holds the canceller that
    does nothing; and a tick closure found in [_intervals] is that of an
    Interval whose canceller holds the identifier of the entry, scheduled
    with the period of the Interval. *)
Definition intervals_linked (w : World) : Prop :=
  (forall i iv, intervals w !! i = Some iv ->
     0 <= iv_interval iv /\ (iv_isStarted iv = false -> iv_canceller iv = ICNoop)) /\
  (forall j id it i,
     _intervals (registry w) !! j = Some (Some (id, it)) -> i_handler it = HTick i ->
     exists iv, intervals w !! i = Some iv /\ iv_canceller iv = ICClear id /\
       i_interval it = iv_interval iv).

(** The Interval [i] is not started. *)
Definition interval_stopped (i : nat) (w : World) : Prop :=
  exists iv, intervals w !! i = Some iv /\ iv_isStarted iv = false.

(** The values of [now()] before each of the calls [update(d)], for the
    [d] of [deltas] in turn, from the time [t]. *)
Fixpoint times_before (t : Z) (deltas : list Z) : list Z :=
  match deltas with
  | [] => []
  | d :: ds => t :: times_before (t + d) ds
  end.

(** ** The promises of the Delays and the Untils *)

(** The resolving functions held by the Delays and by the polling closures
    in [_intervals] belong to promises that exist. *)
Definition refs_allocated (w : World) : Prop :=
  (forall d dl, delays w !! d = Some dl -> (d_resolver dl < length (promises w))%nat) /\
  (forall j id it u k p, _intervals (registry w) !! j = Some (Some (id, it)) ->
     i_handler it = HPoll u k p -> (p < length (promises w))%nat).

(** The Delay [d] waits on the promise [p]: its resolving function
    fulfils [p], nothing else in the registry does, and either its one-shot
    item [id] is pending, due at [due], and [p] is pending, or the item is
    gone and [p] is fulfilled. *)
Definition delay_waiting (d p : nat) (id due : Z) (w : World) : Prop :=
  (exists dl, delays w !! d = Some dl /\ d_resolver dl = p) /\
  (forall d' dl', delays w !! d' = Some dl' -> d' <> d -> d_resolver dl' <> p) /\
  (forall j k it u k' p', _intervals (registry w) !! j = Some (Some (k, it)) ->
     i_handler it = HPoll u k' p' -> p' <> p) /\
  (forall j k t, _timeouts (registry w) !! j = Some (Some (k, t)) ->
     (k = id <-> t_handler t = HDelayFire d)) /\
  ((exists j t, _timeouts (registry w) !! j = Some (Some (id, t)) /\
      t_allowedExecutionTime t = due /\ promises w !! p = Some Pending) \/
   ((id ∉ Map_keys (_timeouts (registry w))) /\ promises w !! p = Some Fulfilled)).

(** Whether a wait of [remaining] milliseconds ends in one of the calls
    [update(d)], for the [d] of [deltas] in turn. *)
Fixpoint delay_outcome (remaining : Z) (deltas : list Z) : bool :=
  match deltas with
  | [] => false
  | d :: ds => (remaining <=? d) || delay_outcome (remaining - d) ds
  end.

(** The Until [u] polls for the promise [p]: no other resolving function
    of the registry fulfils [p], and either the polling closure is in
    [_intervals] under [id] with period 0, due at [t] or before, the Until
    holds the condition [c] and [p] is pending, or the closure is gone and
    [p] is fulfilled. *)
Definition until_waiting (u p : nat) (id : Z) (c : Env -> bool) (t : Z) (w : World)
    : Prop :=
  (forall d dl, delays w !! d = Some dl -> d_resolver dl <> p) /\
  (forall j k it u' k' p', _intervals (registry w) !! j = Some (Some (k, it)) ->
     i_handler it = HPoll u' k' p' -> k <> id -> u' <> u /\ p' <> p) /\
  ((exists j it un, _intervals (registry w) !! j = Some (Some (id, it)) /\
      i_handler it = HPoll u id p /\ i_interval it = 0 /\
      i_allowedExecutionTime it <= t /\
      untils w !! u = Some un /\ u_condition un = Some c /\
      promises w !! p = Some Pending) \/
   ((id ∉ Map_keys (_intervals (registry w))) /\ promises w !! p = Some Fulfilled)).

(** What holds of such an Until between the steps of a run of [update]
    that advances the clock to [cur], in a world with the variables [e]
    and the trace [tr0] at the call: the promise stays pending when the
    condition fails, and it is fulfilled once the polling closure has run
    when the condition holds. *)
Definition until_update_inv (u p : nat) (id : Z) (c : Env -> bool) (cur : Z) (e : Env)
    (tr0 : list Obs) (w : World) : Prop :=
  until_waiting u p id c cur w /\ env w = e /\
  (c e = false -> promises w !! p = Some Pending) /\
  exists tr, trace w = tr0 ++ tr /\
    (c e = true -> id ∈ fires KInterval tr -> promises w !! p = Some Fulfilled).

(** The calls of a program that only assigns its variables and advances
    the clock. *)
Definition user_forward (o : Op) : Prop :=
  match o with
  | RegUpdate delta => 0 <= delta
  | UserAssign _ => True
  | _ => False
  end.

(** Whether the condition [c] holds at one of the calls of [update] of
    such a program, started with the variables [e]. *)
Fixpoint until_outcome (c : Env -> bool) (e : Env) (ops : list Op) : bool :=
  match ops with
  | [] => false
  | RegUpdate _ :: ops' => c e || until_outcome c e ops'
  | UserAssign f :: ops' => until_outcome c (f e) ops'
  | _ :: ops' => until_outcome c e ops'
  end.

(** Nothing in the registry fulfils the promise [p] of the Delay [d]: no
    other Delay and no polling closure holds its resolving function, and no
    one-shot item of the Delay is pending. *)
Definition delay_idle (d p : nat) (w : World) : Prop :=
  (forall d' dl', delays w !! d' = Some dl' -> d' <> d -> d_resolver dl' <> p) /\
  (forall j k it u k' p', _intervals (registry w) !! j = Some (Some (k, it)) ->
     i_handler it = HPoll u k' p' -> p' <> p) /\
  (forall j k t, _timeouts (registry w) !! j = Some (Some (k, t)) ->
     t_handler t <> HDelayFire d).

End World.

Abbreviation reg_intervals w := (_intervals (registry w)).
Abbreviation reg_timeouts w := (_timeouts (registry w)).

(** ** Concrete worlds *)

(** A registry at time 0 holding one repeating item of 500 ms and one
    one-shot item of 700 ms, both of a caller. *)
Definition demo_ops : list (@Op unit) :=
  [RegSetInterval 1 (Some 500) []; RegSetTimeout 2 (Some 700) []].

Definition demo_world : @World unit :=
  Eval vm_compute in default (World_new 0 tt) (run demo_ops (World_new 0 tt)).

Definition until_ops : list (@Op bool) :=
  [RegUpdate 16; UserAssign (fun _ => true); RegUpdate 16; RegUpdate 16].

Definition until_world0 : @World bool :=
  Eval vm_compute in
    default (World_new 0 false) (snd <$> Until_new (fun b : bool => b) false (World_new 0 false)).

Definition until_world1 : @World bool :=
  Eval vm_compute in default until_world0 (Until_start 0 until_world0).

Definition cancelled_delay_world : @World unit :=
  Eval vm_compute in
    default (World_new 0 tt) (run [NewDelay 10 true true; DelayCancel 0%nat] (World_new 0 tt)).

(** A registry at time 0 with one Interval of 500 ms that is not started,
    and one with the Interval started. *)
Definition idle_interval_world : @World unit :=
  Eval vm_compute in
    default (World_new 0 tt) (run [NewInterval 500 false] (World_new 0 tt)).

Definition interval_world : @World unit :=
  Eval vm_compute in
    default (World_new 0 tt) (run [NewInterval 500 true] (World_new 0 tt)).

(** * The registry over binary64 numbers

    The registry adds JavaScript numbers, which are binary64.  In the
    definitions above times are integers and the additions are exact; this
    is what the program computes as long as the operands and the sum are
    integers of magnitude at most [2^53].  This module has the registry
    with the numbers the program has, for callers' callbacks (observers:
    they add records to a trace), so as to follow the program where its
    additions round. *)
Module Binary64.

Record TimeoutHandler : Type := mkTimeout {
  t_handler : nat;
  t_args : list Z;
  t_allowedExecutionTime : float
}.

Record IntervalHandler : Type := mkInterval {
  i_handler : nat;
  i_args : list Z;
  i_interval : float;
  i_allowedExecutionTime : float
}.

Record UpdateableTimeRegistry : Type := mkRegistry {
  _intervals : EsMap IntervalHandler;
  _timeouts : EsMap TimeoutHandler;
  _currentId : Z;
  _lastTime : float
}.

Definition Registry_new (startTime : float) : UpdateableTimeRegistry :=
  mkRegistry [] [] MIN_SAFE_INTEGER startTime.

Definition now (r : UpdateableTimeRegistry) : float := _lastTime r.

Definition _generateId (r : UpdateableTimeRegistry) : Z * UpdateableTimeRegistry :=
  let id := _currentId r in
  let next := (id + 1)%Z in
  (id, mkRegistry (_intervals r) (_timeouts r)
         (if (next =? MAX_SAFE_INTEGER)%Z then MIN_SAFE_INTEGER else next) (_lastTime r)).

(** [x ? Math.max(x, 0) : 0]: an absent argument, [0], [-0] and [NaN] are
    falsy. *)
Definition clamp (x : option float) : float :=
  match x with
  | Some n =>
      if (n =? 0)%float || negb (n =? n)%float then 0%float
      else if (n <? 0)%float then 0%float else n
  | None => 0%float
  end.

Definition setInterval (handler : nat) (interval : option float) (args : list Z)
    (r : UpdateableTimeRegistry) : Z * UpdateableTimeRegistry :=
  let '(id, r1) := _generateId r in
  let interval := clamp interval in
  (id, mkRegistry
         (Map_set id (mkInterval handler args interval (_lastTime r1 + interval)%float)
            (_intervals r1))
         (_timeouts r1) (_currentId r1) (_lastTime r1)).

Definition setTimeout (handler : nat) (delay : option float) (args : list Z)
    (r : UpdateableTimeRegistry) : Z * UpdateableTimeRegistry :=
  let '(id, r1) := _generateId r in
  let delay := clamp delay in
  (id, mkRegistry (_intervals r1)
         (Map_set id (mkTimeout handler args (_lastTime r1 + delay)%float) (_timeouts r1))
         (_currentId r1) (_lastTime r1)).

(** The first loop of [update]: the callbacks leave the map alone, so the
    loop visits the entries in turn; [currentTime >= allowedExecutionTime]
    is the comparison of binary64. *)
Fixpoint update_intervals (currentTime : float) (m : EsMap IntervalHandler)
    : list Obs * EsMap IntervalHandler :=
  match m with
  | [] => ([], [])
  | None :: m' =>
      let '(tr, m1) := update_intervals currentTime m' in (tr, None :: m1)
  | Some (id, interval) :: m' =>
      let '(tr, m1) := update_intervals currentTime m' in
      if (i_allowedExecutionTime interval <=? currentTime)%float then
        (OFire KInterval id :: OUser (i_handler interval) (i_args interval) :: tr,
         Some (id, mkInterval (i_handler interval) (i_args interval) (i_interval interval)
                     (currentTime + i_interval interval)%float) :: m1)
      else (tr, Some (id, interval) :: m1)
  end.

(** The second loop: [clearTimeout(id)] empties the entry just visited. *)
Fixpoint update_timeouts (currentTime : float) (m : EsMap TimeoutHandler)
    : list Obs * EsMap TimeoutHandler :=
  match m with
  | [] => ([], [])
  | None :: m' =>
      let '(tr, m1) := update_timeouts currentTime m' in (tr, None :: m1)
  | Some (id, timeout) :: m' =>
      let '(tr, m1) := update_timeouts currentTime m' in
      if (t_allowedExecutionTime timeout <=? currentTime)%float then
        (OFire KTimeout id :: OUser (t_handler timeout) (t_args timeout) :: tr, None :: m1)
      else (tr, Some (id, timeout) :: m1)
  end.

(** [update(delta)], with the records of the call. *)
Definition update (delta : float) (r : UpdateableTimeRegistry)
    : list Obs * UpdateableTimeRegistry :=
  let currentTime := (_lastTime r + delta)%float in
  let '(tr1, im) := update_intervals currentTime (_intervals r) in
  let '(tr2, tm) := update_timeouts currentTime (_timeouts r) in
  (tr1 ++ tr2, mkRegistry im tm (_currentId r) currentTime).

End Binary64.

(** Safe integers ([Number.isSafeInteger]): integers that binary64 holds
    exactly, and whose sums binary64 computes exactly when the sum is a safe
    integer too. *)
Definition isSafeInteger (x : Z) : Prop := MIN_SAFE_INTEGER <= x <= MAX_SAFE_INTEGER.

(** The calls [update(d)], for the [d] of [deltas] in turn, from the time
    [t], only add safe integers with a safe sum. *)
Fixpoint exact_updates (t : Z) (deltas : list Z) : Prop :=
  match deltas with
  | [] => True
  | d :: ds => isSafeInteger d /\ isSafeInteger (t + d) /\ exact_updates (t + d) ds
  end.

(** * Properties *)

Section Properties.

Context {Env : Type}.

Local Abbreviation World := (@World Env).
Local Abbreviation Op := (@Op Env).
Local Abbreviation Until := (@Until Env).

Implicit Types (w : World) (un : Until).

(** ** Predicates kept by [update] *)

(** A property of worlds that the bookkeeping of [update] keeps (recording a
    firing, re-arming an interval, clearing a timeout) is kept by [update] as
    soon as every handler keeps it. *)
Section UpdateKeeps.

Variable P : World -> Prop.
Hypothesis P_fire : forall k id w, P w -> P (log (OFire k id) w).
Hypothesis P_rearm : forall m w, P w -> P (with_intervals_map m w).
Hypothesis P_clear : forall id w, P w -> P (with_registry (clearTimeout id (registry w)) w).
Hypothesis P_time : forall t w, P w -> P (with_lastTime t w).
Hypothesis P_handler : forall h args w w', run_handler h args w = Some w' -> P w -> P w'.

Lemma update_intervals_keeps fuel : forall i cur w w',
  update_intervals fuel i cur w = Some w' -> P w -> P w'.
Proof.
  induction fuel as [|fuel IH]; intros i cur w w'; simpl.
  - destruct (_ !! i); [discriminate|]. by intros [= <-].
  - destruct (_ !! i) as [[[id it]|]|]; [| by apply IH | by intros [= <-]].
    destruct (_ <=? _); [| by apply IH].
    destruct (run_handler _ _ _) as [w1|] eqn:Hh; simpl; [|discriminate].
    intros Hu Hw. eapply IH; [exact Hu|]. apply P_rearm.
    eapply P_handler; [exact Hh|]. by apply P_fire.
Qed.

Lemma update_timeouts_keeps fuel : forall i cur w w',
  update_timeouts fuel i cur w = Some w' -> P w -> P w'.
Proof.
  induction fuel as [|fuel IH]; intros i cur w w'; simpl.
  - destruct (_ !! i); [discriminate|]. by intros [= <-].
  - destruct (_ !! i) as [[[id it]|]|]; [| by apply IH | by intros [= <-]].
    destruct (_ <=? _); [| by apply IH].
    destruct (run_handler _ _ _) as [w1|] eqn:Hh; simpl; [|discriminate].
    intros Hu Hw. eapply IH; [exact Hu|]. apply P_clear.
    eapply P_handler; [exact Hh|]. by apply P_fire.
Qed.

Lemma update_keeps delta w w' : update delta w = Some w' -> P w -> P w'.
Proof.
  unfold update. intros Hu Hw.
  destruct (update_intervals _ _ _ _) as [w1|] eqn:H1; simpl in Hu; [|discriminate].
  destruct (update_timeouts _ _ _ _) as [w2|] eqn:H2; simpl in Hu; [|discriminate].
  injection Hu as <-. apply P_time.
  eapply update_timeouts_keeps; [exact H2|].
  eapply update_intervals_keeps; [exact H1|done].
Qed.

End UpdateKeeps.

(** ** A settled promise never changes *)

Lemma settle_keeps_settled p q s s' (store : list PromiseState) :
  store !! q = Some s -> s <> Pending -> settle p s' store !! q = Some s.
Proof.
  intros Hq Hs. unfold settle.
  destruct (store !! p) as [[| |r]|] eqn:Hp; try done.
  destruct (decide (p = q)) as [->|Hne]; [congruence|].
  by rewrite list_lookup_insert_ne.
Qed.

Lemma setInterval_eq h interval args r :
  setInterval h interval args r =
    (_currentId r,
     mkRegistry
       (Map_set (_currentId r)
          (mkInterval h args (clamp interval) (_lastTime r + clamp interval)) (_intervals r))
       (_timeouts r) (next_id r) (_lastTime r)).
Proof. done. Qed.

Lemma setTimeout_eq h delay args r :
  setTimeout h delay args r =
    (_currentId r,
     mkRegistry (_intervals r)
       (Map_set (_currentId r)
          (mkTimeout h args (_lastTime r + clamp delay)) (_timeouts r))
       (next_id r) (_lastTime r)).
Proof. done. Qed.

Ltac unfold_methods :=
  unfold Interval_new, Interval_reset, Interval_start, Interval_cancel, onTick_add,
    onTick_remove, Delay_new, Delay_reset, Delay_start, Delay_cancel, Delay_then,
    Until_new, While_new, Until_start, Until_then, _createPromise, Promise_new, resolve,
    reject in *;
  rewrite ?setInterval_eq, ?setTimeout_eq in *.

Ltac split_cases :=
  repeat match goal with
    | H : context [match ?x with _ => _ end] |- _ =>
        let E := fresh "E" in destruct x eqn:E; simpl in H; try discriminate
    | H : Some _ = Some _ |- _ => injection H as <-
    | H : (_, _) = (_, _) |- _ => injection H as <- <-
    | H : mbind _ ?x = Some _ |- _ =>
        let E := fresh "E" in destruct x eqn:E; simpl in H; try discriminate
    | H : fmap _ ?x = Some _ |- _ =>
        let E := fresh "E" in destruct x eqn:E; simpl in H; try discriminate
    end.

Lemma Event_fire_promises ls t w : promises (Event_fire ls t w) = promises w.
Proof. revert w. induction ls as [|l ls IH]; intros w; simpl; [done|]. by rewrite IH. Qed.

Lemma run_handler_keeps_settled p s h args w w' :
  s <> Pending -> run_handler h args w = Some w' -> settled_as p s w -> settled_as p s w'.
Proof.
  unfold settled_as. intros Hs Hr Hp. destruct h; simpl in Hr; unfold_methods;
    split_cases; simpl; rewrite ?Event_fire_promises; simpl;
    eauto using settle_keeps_settled.
Qed.

Lemma update_keeps_settled p s delta w w' :
  s <> Pending -> update delta w = Some w' -> settled_as p s w -> settled_as p s w'.
Proof.
  intros Hs. apply update_keeps; try done.
  intros h args w1 w2. by apply run_handler_keeps_settled.
Qed.

Lemma step_keeps_settled p s o w w' :
  s <> Pending -> step o w = Some w' -> settled_as p s w -> settled_as p s w'.
Proof.
  intros Hs Hstep Hp. destruct o; simpl in Hstep;
    try (by eapply update_keeps_settled); unfold settled_as in *;
    unfold_methods; split_cases; simpl;
    eauto using settle_keeps_settled, lookup_app_l_Some.
Qed.

Lemma run_keeps_settled p s ops : forall w w',
  s <> Pending -> run ops w = Some w' -> settled_as p s w -> settled_as p s w'.
Proof.
  induction ops as [|o ops IH]; intros w w' Hs; simpl.
  - by intros [= <-].
  - destruct (step o w) as [w1|] eqn:Ho; simpl; [|done].
    intros Hr Hp. eapply IH; eauto using step_keeps_settled.
Qed.

(** ** Facts on maps *)

Lemma Map_keys_cons_Some {V : Type} k (v : V) (m : EsMap V) :
  Map_keys (Some (k, v) :: m) = k :: Map_keys m.
Proof. done. Qed.

Lemma Map_keys_cons_None {V : Type} (m : EsMap V) : Map_keys (None :: m) = Map_keys m.
Proof. done. Qed.

Lemma Map_keys_lookup {V : Type} (m : EsMap V) j k v :
  m !! j = Some (Some (k, v)) -> k ∈ Map_keys m.
Proof.
  revert j. induction m as [|[[k' v']|] m IH]; intros j Hj; [done| |].
  - rewrite Map_keys_cons_Some. destruct j as [|j]; simpl in Hj.
    + injection Hj as -> ->. apply list_elem_of_here.
    + apply list_elem_of_further. eauto.
  - rewrite Map_keys_cons_None. destruct j as [|j]; simpl in Hj; [done|]. eauto.
Qed.

(** With distinct keys, a key stands at one position only. *)
Lemma Map_keys_NoDup_lookup {V : Type} (m : EsMap V) i j k v v' :
  NoDup (Map_keys m) ->
  m !! i = Some (Some (k, v)) -> m !! j = Some (Some (k, v')) -> i = j.
Proof.
  revert i j. induction m as [|[[k0 v0]|] m IH]; intros i j; [done| |].
  - rewrite Map_keys_cons_Some, NoDup_cons. intros [Hk Hnd].
    destruct i as [|i], j as [|j]; simpl; try done.
    + intros [= -> ->] Hj. apply Map_keys_lookup in Hj. done.
    + intros Hi [= -> ->]. apply Map_keys_lookup in Hi. done.
    + intros Hi Hj. f_equal. eauto.
  - rewrite Map_keys_cons_None. intros Hnd.
    destruct i as [|i], j as [|j]; simpl; try done.
    intros Hi Hj. f_equal. eauto.
Qed.

Lemma Map_keys_set {V : Type} k (v : V) (m : EsMap V) :
  Map_keys (Map_set k v m) =
    if decide (k ∈ Map_keys m) then Map_keys m else Map_keys m ++ [k].
Proof.
  induction m as [|[[k' v']|] m IH].
  - destruct (decide (k ∈ Map_keys [])) as [Hin|Hnin]; [|done].
    by apply elem_of_nil in Hin.
  - cbn [Map_set]. rewrite Map_keys_cons_Some. destruct (Z.eqb_spec k' k) as [->|Hne].
    + rewrite Map_keys_cons_Some. rewrite decide_True; [done|]. apply list_elem_of_here.
    + rewrite Map_keys_cons_Some, IH.
      destruct (decide (k ∈ Map_keys m)) as [Hin|Hnin].
      * rewrite decide_True; [done|]. by apply list_elem_of_further.
      * rewrite decide_False; [done|]. intros [?|?]%elem_of_cons; congruence.
  - cbn [Map_set]. rewrite !Map_keys_cons_None. exact IH.
Qed.

Lemma Map_set_NoDup {V : Type} k (v : V) (m : EsMap V) :
  NoDup (Map_keys m) -> NoDup (Map_keys (Map_set k v m)).
Proof.
  intros Hnd. rewrite Map_keys_set. case_decide; [done|].
  apply NoDup_app. split_and!; [done| |apply NoDup_singleton].
  intros x Hx ->%list_elem_of_singleton. done.
Qed.

Lemma Map_set_length {V : Type} k (v : V) (m : EsMap V) :
  (length m <= length (Map_set k v m))%nat.
Proof.
  induction m as [|[[k' v']|] m IH]; simpl; [lia| |lia].
  destruct (k' =? k); simpl; lia.
Qed.

(** An entry of [Map_set k v m] is the entry set or an entry of [m]. *)
Lemma Map_set_lookup {V : Type} k (v : V) (m : EsMap V) j k' v' :
  Map_set k v m !! j = Some (Some (k', v')) ->
  (k' = k /\ v' = v) \/ m !! j = Some (Some (k', v')).
Proof.
  revert j. induction m as [|[[k0 v0]|] m IH]; intros j; simpl.
  - destruct j as [|j]; simpl; [|done]. intros [= -> ->]. by left.
  - destruct (Z.eqb_spec k0 k) as [->|Hne]; destruct j as [|j]; simpl.
    + intros [= -> ->]. by left.
    + by right.
    + by right.
    + apply IH.
  - destruct j as [|j]; simpl; [by right|]. apply IH.
Qed.

Lemma Map_delete_lookup {V : Type} k (m : EsMap V) j k' v' :
  Map_delete k m !! j = Some (Some (k', v')) ->
  k' <> k /\ m !! j = Some (Some (k', v')).
Proof.
  unfold Map_delete. rewrite list_lookup_fmap.
  destruct (m !! j) as [[[k0 v0]|]|]; simpl; try done.
  destruct (Z.eqb_spec k0 k); [done|]. by intros [= <- <-].
Qed.

(** Deleting a key leaves the entries under other keys in place. *)
Lemma Map_delete_lookup_ne {V : Type} k (m : EsMap V) j k' v' :
  k' <> k -> m !! j = Some (Some (k', v')) ->
  Map_delete k m !! j = Some (Some (k', v')).
Proof.
  intros Hne Hj. unfold Map_delete. rewrite list_lookup_fmap, Hj. simpl.
  by destruct (Z.eqb_spec k' k).
Qed.

Lemma Map_delete_lookup_eq {V : Type} k (m : EsMap V) j v' :
  m !! j = Some (Some (k, v')) -> Map_delete k m !! j = Some None.
Proof.
  intros Hj. unfold Map_delete. rewrite list_lookup_fmap, Hj. simpl.
  by rewrite Z.eqb_refl.
Qed.

Lemma Map_delete_lookup_None {V : Type} k (m : EsMap V) j :
  m !! j = Some None -> Map_delete k m !! j = Some None.
Proof. intros Hj. unfold Map_delete. by rewrite list_lookup_fmap, Hj. Qed.

Lemma Map_delete_length {V : Type} k (m : EsMap V) : length (Map_delete k m) = length m.
Proof. apply length_fmap. Qed.

Lemma Map_delete_keys_sub {V : Type} k (m : EsMap V) :
  sublist (Map_keys (Map_delete k m)) (Map_keys m).
Proof.
  induction m as [|[[k' v']|] m IH]; [done| |].
  - change (Map_delete k (Some (k', v') :: m))
      with (Map_delete_entry k (Some (k', v')) :: Map_delete k m).
    unfold Map_delete_entry at 1. destruct (k' =? k).
    + rewrite Map_keys_cons_None, Map_keys_cons_Some. by apply sublist_cons.
    + rewrite !Map_keys_cons_Some. by apply sublist_skip.
  - change (Map_delete k (None :: m)) with (None :: Map_delete k m).
    by rewrite !Map_keys_cons_None.
Qed.

Lemma Map_delete_NoDup {V : Type} k (m : EsMap V) :
  NoDup (Map_keys m) -> NoDup (Map_keys (Map_delete k m)).
Proof. intros Hnd. eapply sublist_NoDup; [done|apply Map_delete_keys_sub]. Qed.

(** ** Facts on traces *)

Lemma Event_fire_eq ls t w :
  Event_fire ls t w =
    mkWorld (registry w) (promises w) (intervals w) (delays w) (untils w) (awaiters w)
      (env w) (trace w ++ ((fun l => OListener l t) <$> ls)).
Proof.
  revert w. induction ls as [|l ls IH]; intros w; simpl.
  - rewrite app_nil_r. by destruct w.
  - rewrite IH. simpl. by rewrite <- app_assoc.
Qed.

Lemma fires_app k (a b : list Obs) : fires k (a ++ b) = fires k a ++ fires k b.
Proof. apply omap_app. Qed.

Lemma fires_listeners k t (ls : list nat) : fires k ((fun l => OListener l t) <$> ls) = [].
Proof. induction ls as [|l ls IH]; [done|]. simpl. exact IH. Qed.

(** ** Well-formed registries *)

Lemma rearm_length i t (m : EsMap IntervalHandler) : length (rearm i t m) = length m.
Proof.
  unfold rearm. destruct (m !! i) as [[[id it]|]|]; [|done..]. apply length_insert.
Qed.

Lemma rearm_lookup_ne i j t (m : EsMap IntervalHandler) :
  i <> j -> rearm i t m !! j = m !! j.
Proof.
  intros Hne. unfold rearm. destruct (m !! i) as [[[id it]|]|]; [|done..].
  by apply list_lookup_insert_ne.
Qed.

Lemma rearm_lookup_eq i t (m : EsMap IntervalHandler) :
  rearm i t m !! i =
    match m !! i with
    | Some (Some (id, it)) =>
        Some (Some (id, mkInterval (i_handler it) (i_args it) (i_interval it) t))
    | o => o
    end.
Proof.
  unfold rearm. destruct (m !! i) as [[[id it]|]|] eqn:Hi; [|done..].
  apply list_lookup_insert_eq. by eapply lookup_lt_Some.
Qed.

(** Re-arming keeps keys, handlers and periods of every entry. *)
Lemma rearm_lookup_inv i j t (m : EsMap IntervalHandler) id it :
  rearm i t m !! j = Some (Some (id, it)) ->
  exists it0, m !! j = Some (Some (id, it0)) /\ i_handler it = i_handler it0 /\
    i_interval it = i_interval it0 /\
    (i_allowedExecutionTime it = i_allowedExecutionTime it0 \/
     (i = j /\ i_allowedExecutionTime it = t)).
Proof.
  destruct (decide (i = j)) as [->|Hne].
  - rewrite rearm_lookup_eq. destruct (m !! j) as [[[id0 it0]|]|]; try done.
    intros [= <- <-]. exists it0. simpl. split_and!; try done. by right.
  - rewrite rearm_lookup_ne by done. intros Hj. exists it. split_and!; try done. by left.
Qed.

Lemma rearm_keys i t (m : EsMap IntervalHandler) : Map_keys (rearm i t m) = Map_keys m.
Proof.
  unfold rearm. destruct (m !! i) as [[[id it]|]|] eqn:Hi; [|done..].
  revert i Hi. induction m as [|e m IH]; intros i Hi; [done|].
  destruct i as [|i]; simpl in Hi.
  - by injection Hi as ->.
  - change (<[S i := ?x]> (e :: m)) with (e :: <[i := x]> m).
    destruct e as [[k0 v0]|].
    + rewrite !Map_keys_cons_Some. f_equal. by apply IH.
    + rewrite !Map_keys_cons_None. by apply IH.
Qed.

(** Well-formedness passes to a world whose entries are entries of the first
    one (same key, same handler) and whose handlers are still in order. *)
Lemma wf_from (w w' : World) :
  wf w -> untils_ok w' ->
  NoDup (Map_keys (reg_intervals w')) -> NoDup (Map_keys (reg_timeouts w')) ->
  (forall j id it, reg_intervals w' !! j = Some (Some (id, it)) ->
     exists j0 it0, reg_intervals w !! j0 = Some (Some (id, it0)) /\ i_handler it0 = i_handler it /\
       (ihandler_ok w id (i_handler it) -> ihandler_ok w' id (i_handler it))) ->
  (forall j id t, reg_timeouts w' !! j = Some (Some (id, t)) ->
     exists j0 t0, reg_timeouts w !! j0 = Some (Some (id, t0)) /\ t_handler t0 = t_handler t /\
       (thandler_ok w (t_handler t) -> thandler_ok w' (t_handler t))) ->
  wf w'.
Proof.
  intros Hwf Hun Hik Htk Hi Ht. split; try done.
  - intros j id it Hj. destruct (Hi _ _ _ Hj) as (j0 & it0 & H0 & Hh & Hok).
    apply Hok. rewrite <- Hh. by eapply wf_ih.
  - intros j id t Hj. destruct (Ht _ _ _ Hj) as (j0 & t0 & H0 & Hh & Hok).
    apply Hok. rewrite <- Hh. by eapply wf_th.
  - intros j1 j2 id1 id2 it1 it2 u k1 k2 p1 p2 H1 Hh1 H2 Hh2.
    destruct (Hi _ _ _ H1) as (j1' & it1' & H1' & Hh1' & _).
    destruct (Hi _ _ _ H2) as (j2' & it2' & H2' & Hh2' & _).
    apply (wf_poll w Hwf j1' j2' id1 id2 it1' it2' u k1 k2 p1 p2);
      [exact H1'|congruence|exact H2'|congruence].
Qed.

Lemma ihandler_ok_kept w w' id h : objs_kept w w' -> ihandler_ok w id h -> ihandler_ok w' id h.
Proof.
  intros (Hi & Hd & Hu & _). destruct h; simpl; [done|apply Hi|done|].
  intros [-> ?]. split; [done|by apply Hu].
Qed.

Lemma thandler_ok_kept w w' h : objs_kept w w' -> thandler_ok w h -> thandler_ok w' h.
Proof. intros (Hi & Hd & Hu & _). destruct h; simpl; [done|done|apply Hd|done]. Qed.

(** Changes of the objects alone. *)
Lemma wf_objs (w w' : World) :
  wf w -> registry w' = registry w -> objs_kept w w' -> wf w'.
Proof.
  intros Hwf Hr Hk. apply (wf_from w w' Hwf); rewrite ?Hr; try apply Hwf.
  - apply Hk, Hwf.
  - intros j id it Hj. exists j, it. eauto using ihandler_ok_kept.
  - intros j id t Hj. exists j, t. eauto using thandler_ok_kept.
Qed.

(** Deleting entries and re-arming. *)
Lemma wf_shrink (w w' : World) :
  wf w -> objs_kept w w' ->
  NoDup (Map_keys (reg_intervals w')) -> NoDup (Map_keys (reg_timeouts w')) ->
  (forall j id it, reg_intervals w' !! j = Some (Some (id, it)) ->
     exists j0 it0, reg_intervals w !! j0 = Some (Some (id, it0)) /\ i_handler it0 = i_handler it) ->
  (forall j id t, reg_timeouts w' !! j = Some (Some (id, t)) ->
     exists j0 t0, reg_timeouts w !! j0 = Some (Some (id, t0)) /\ t_handler t0 = t_handler t) ->
  wf w'.
Proof.
  intros Hwf Hk Hik Htk Hi Ht. apply (wf_from w w' Hwf); try done.
  - apply Hk, Hwf.
  - intros j id it Hj. destruct (Hi _ _ _ Hj) as (j0 & it0 & H0 & Hh).
    exists j0, it0. eauto using ihandler_ok_kept.
  - intros j id t Hj. destruct (Ht _ _ _ Hj) as (j0 & t0 & H0 & Hh).
    exists j0, t0. eauto using thandler_ok_kept.
Qed.

Lemma objs_kept_refl w w' :
  intervals w' = intervals w -> delays w' = delays w -> untils w' = untils w ->
  objs_kept w w'.
Proof.
  intros Hi Hd Hu. unfold objs_kept, until_polling, untils_ok. rewrite Hi, Hd, Hu. done.
Qed.

(** ** Running the handler of an entry *)

Ltac solve_trace :=
  eexists; split;
  [ rewrite <- ?app_assoc; simpl; reflexivity
  | simpl; rewrite ?fires_app, ?fires_listeners; simpl; split; congruence ].

(** The handler of an entry of [_intervals] returns; it leaves the registry
    as it is, except that the polling closure of an Until deletes its own
    entry once the condition holds; it records no firing. *)
Lemma run_ihandler (w : World) j id it o args :
  wf w -> reg_intervals w !! j = Some (Some (id, it)) ->
  exists w1, run_handler (i_handler it) args (log o w) = Some w1 /\
    reg_timeouts w1 = reg_timeouts w /\ _currentId (registry w1) = _currentId (registry w) /\
    _lastTime (registry w1) = _lastTime (registry w) /\
    (reg_intervals w1 = reg_intervals w \/
     exists u p, i_handler it = HPoll u id p /\ reg_intervals w1 = Map_delete id (reg_intervals w)) /\
    wf w1 /\
    exists new, trace w1 = trace w ++ o :: new /\
      fires KInterval new = [] /\ fires KTimeout new = [].
Proof.
  intros Hwf Hj. pose proof (wf_ih w Hwf _ _ _ Hj) as Hok.
  destruct (i_handler it) as [tag|i|d|u k p] eqn:Hh; simpl in Hok; [| |done|].
  - eexists. split; [done|]. simpl. split_and!; try done; [by left| |solve_trace].
    apply (wf_objs w); [done..|]. by apply objs_kept_refl.
  - destruct Hok as [iv Hiv]. simpl. rewrite Hiv. simpl. eexists. split; [done|].
    rewrite Event_fire_eq. simpl. split_and!; try done; [by left| |solve_trace].
    apply (wf_objs w); [done..|]. by apply objs_kept_refl.
  - destruct Hok as [-> (un & c & Hun & Hc & Hst)]. simpl. rewrite Hun. simpl. rewrite Hc.
    destruct (c (env w)) eqn:Hcond.
    + eexists. split; [done|]. simpl.
      split_and!; try done; [right; by exists u, p| |solve_trace].
      apply (wf_from w); [done|simpl..].
      * unfold untils_ok. simpl. intros u' un'. destruct (decide (u' = u)) as [->|Hu].
        -- rewrite list_lookup_insert_eq by (by eapply lookup_lt_Some).
           intros [= <-]. simpl. congruence.
        -- rewrite list_lookup_insert_ne by done. apply Hwf.
      * apply Map_delete_NoDup, Hwf.
      * apply Hwf.
      * intros j' id' it' [Hne Hj']%Map_delete_lookup. exists j', it'.
        split_and!; try done.
        destruct (i_handler it') as [tag'|i'|d'|u' k' p'] eqn:Hh'; simpl; try done.
        intros [-> (un' & c' & Hun' & Hc' & Hst')].
        destruct (decide (u' = u)) as [->|Hu].
        { exfalso. apply Hne.
          apply (wf_poll w Hwf j' j id' id it' it u id' id p' p); done. }
        split; [done|]. exists un', c'. simpl. by rewrite list_lookup_insert_ne.
      * intros j' id' t' Hj'. exists j', t'. by split_and!.
    + eexists. split; [done|]. simpl. split_and!; try done; [by left| |solve_trace].
      apply (wf_objs w); [done..|]. by apply objs_kept_refl.
Qed.

Lemma insert_is_Some {A : Type} (l : list A) i j x :
  is_Some (l !! j) -> is_Some (<[i := x]> l !! j).
Proof. rewrite !lookup_lt_is_Some, length_insert. done. Qed.

Lemma app_is_Some {A : Type} (l : list A) j x :
  is_Some (l !! j) -> is_Some ((l ++ [x]) !! j).
Proof. rewrite !lookup_lt_is_Some, length_app. simpl. lia. Qed.

(** The handler of an entry of [_timeouts] returns and leaves the registry
    as it is. *)
Lemma run_thandler (w : World) j id t o args :
  wf w -> reg_timeouts w !! j = Some (Some (id, t)) ->
  exists w1, run_handler (t_handler t) args (log o w) = Some w1 /\
    registry w1 = registry w /\ wf w1 /\
    exists new, trace w1 = trace w ++ o :: new /\
      fires KInterval new = [] /\ fires KTimeout new = [].
Proof.
  intros Hwf Hj. pose proof (wf_th w Hwf _ _ _ Hj) as Hok.
  destruct (t_handler t) as [tag|i|d|u k p] eqn:Hh; simpl in Hok; [|done| |done].
  - eexists. split; [done|]. simpl. split_and!; try done; [|solve_trace].
    apply (wf_objs w); [done..|]. by apply objs_kept_refl.
  - destruct Hok as [dl Hdl]. simpl. rewrite Hdl. simpl. eexists. split; [done|].
    simpl. split_and!; try done; [|solve_trace].
    apply (wf_objs w); [done..|]. split_and!; simpl; try done.
    intros d'. apply insert_is_Some.
Qed.

Lemma Map_delete_lookup_other {V : Type} (m : EsMap V) i j id v :
  NoDup (Map_keys m) -> m !! i = Some (Some (id, v)) -> j <> i ->
  Map_delete id m !! j = m !! j.
Proof.
  intros Hnd Hi Hne. unfold Map_delete. rewrite list_lookup_fmap.
  destruct (m !! j) as [[[k' v']|]|] eqn:Hj; simpl; try done.
  destruct (Z.eqb_spec k' id) as [->|?]; [|done].
  exfalso. apply Hne. by eapply Map_keys_NoDup_lookup.
Qed.

(** One step of the first loop of [update] on a due entry. *)
Lemma fire_interval_entry (w : World) i id it cur :
  wf w -> reg_intervals w !! i = Some (Some (id, it)) ->
  exists w1,
    run_handler (i_handler it) (i_args it) (log (OFire KInterval id) w) = Some w1 /\
    let w2 := with_intervals_map (rearm i (cur + i_interval it) (reg_intervals w1)) w1 in
    wf w2 /\ reg_timeouts w2 = reg_timeouts w /\ _currentId (registry w2) = _currentId (registry w) /\
    _lastTime (registry w2) = _lastTime (registry w) /\
    length (reg_intervals w2) = length (reg_intervals w) /\
    (forall j, j <> i -> reg_intervals w2 !! j = reg_intervals w !! j) /\
    (reg_intervals w2 !! i = Some (Some (id, rearmed (cur + i_interval it) it)) \/
     (reg_intervals w2 !! i = Some None /\ exists u p, i_handler it = HPoll u id p)) /\
    exists new, trace w2 = trace w ++ OFire KInterval id :: new /\
      fires KInterval new = [] /\ fires KTimeout new = [].
Proof.
  intros Hwf Hi.
  destruct (run_ihandler w i id it (OFire KInterval id) (i_args it) Hwf Hi)
    as (w1 & Hrun & Ht & Hc & Hl & Hm & Hwf1 & Htr).
  exists w1. split; [done|]. simpl. split_and!; try done.
  - apply (wf_shrink w1); [done| by apply objs_kept_refl |simpl..].
    + rewrite rearm_keys. apply Hwf1.
    + apply Hwf1.
    + intros j id' it' (it0 & H0 & Hh & _)%rearm_lookup_inv. by exists j, it0.
    + intros j id' t' Hj. by exists j, t'.
  - rewrite rearm_length. destruct Hm as [->|(u & p & _ & ->)]; [done|].
    apply Map_delete_length.
  - intros j Hne. rewrite rearm_lookup_ne by done.
    destruct Hm as [->|(u & p & _ & ->)]; [done|].
    eapply Map_delete_lookup_other; [apply Hwf|done..].
  - rewrite rearm_lookup_eq. destruct Hm as [->|(u & p & Hh & ->)].
    + rewrite Hi. by left.
    + erewrite Map_delete_lookup_eq by done. right. split; [done|]. by exists u, p.
Qed.

(** One step of the second loop of [update] on a due entry. *)
Lemma fire_timeout_entry (w : World) i id t :
  wf w -> reg_timeouts w !! i = Some (Some (id, t)) ->
  exists w1,
    run_handler (t_handler t) (t_args t) (log (OFire KTimeout id) w) = Some w1 /\
    let w2 := with_registry (clearTimeout id (registry w1)) w1 in
    wf w2 /\ reg_intervals w2 = reg_intervals w /\ _currentId (registry w2) = _currentId (registry w) /\
    _lastTime (registry w2) = _lastTime (registry w) /\
    length (reg_timeouts w2) = length (reg_timeouts w) /\
    (forall j, j <> i -> reg_timeouts w2 !! j = reg_timeouts w !! j) /\
    reg_timeouts w2 !! i = Some None /\
    exists new, trace w2 = trace w ++ OFire KTimeout id :: new /\
      fires KInterval new = [] /\ fires KTimeout new = [].
Proof.
  intros Hwf Hi.
  destruct (run_thandler w i id t (OFire KTimeout id) (t_args t) Hwf Hi)
    as (w1 & Hrun & Hr & Hwf1 & Htr).
  exists w1. split; [done|]. simpl. rewrite Hr. split_and!; try done.
  - apply (wf_shrink w1); [done| by apply objs_kept_refl |simpl; rewrite ?Hr..].
    + apply Hwf.
    + apply Map_delete_NoDup, Hwf.
    + intros j id' it' Hj. by exists j, it'.
    + intros j id' t' [_ Hj]%Map_delete_lookup. by exists j, t'.
  - apply Map_delete_length.
  - intros j Hne. eapply Map_delete_lookup_other; [apply Hwf|done..].
  - by eapply Map_delete_lookup_eq.
Qed.

(** ** The loops of [update] *)

Lemma update_intervals_unfold fuel i cur w :
  update_intervals fuel i cur w =
    match reg_intervals w !! i with
    | None => Some w
    | Some entry =>
        match fuel with
        | O => None
        | S fuel' =>
            match entry with
            | None => update_intervals fuel' (S i) cur w
            | Some (id, interval) =>
                if i_allowedExecutionTime interval <=? cur then
                  w1 ← run_handler (i_handler interval) (i_args interval)
                         (log (OFire KInterval id) w);
                  update_intervals fuel' (S i) cur
                    (with_intervals_map
                       (rearm i (cur + i_interval interval) (reg_intervals w1)) w1)
                else update_intervals fuel' (S i) cur w
            end
        end
    end.
Proof. by destruct fuel. Qed.

Lemma update_timeouts_unfold fuel i cur w :
  update_timeouts fuel i cur w =
    match reg_timeouts w !! i with
    | None => Some w
    | Some entry =>
        match fuel with
        | O => None
        | S fuel' =>
            match entry with
            | None => update_timeouts fuel' (S i) cur w
            | Some (id, timeout) =>
                if t_allowedExecutionTime timeout <=? cur then
                  w1 ← run_handler (t_handler timeout) (t_args timeout)
                         (log (OFire KTimeout id) w);
                  update_timeouts fuel' (S i) cur
                    (with_registry (clearTimeout id (registry w1)) w1)
                else update_timeouts fuel' (S i) cur w
            end
        end
    end.
Proof. by destruct fuel. Qed.

Lemma drop_agree {A : Type} (l l' : list A) i :
  length l' = length l -> (forall j, j <> i -> l' !! j = l !! j) ->
  drop (S i) l' = drop (S i) l.
Proof.
  intros Hlen Hj. apply list_eq. intros k. rewrite !lookup_drop. apply Hj. lia.
Qed.

(** The first loop returns within the fuel [update] gives it, and this is
    what it does. *)
Lemma update_intervals_spec fuel : forall i cur w,
  wf w -> (length (reg_intervals w) <= i + fuel)%nat ->
  exists w', update_intervals fuel i cur w = Some w' /\
    wf w' /\ reg_timeouts w' = reg_timeouts w /\ _currentId (registry w') = _currentId (registry w) /\
    _lastTime (registry w') = _lastTime (registry w) /\
    length (reg_intervals w') = length (reg_intervals w) /\
    (forall j, (j < i)%nat -> reg_intervals w' !! j = reg_intervals w !! j) /\
    (forall j e, (i <= j)%nat -> reg_intervals w !! j = Some e ->
       exists e', reg_intervals w' !! j = Some e' /\ interval_post cur e e') /\
    exists new, trace w' = trace w ++ new /\
      fires KInterval new = due_ids i_allowedExecutionTime cur (drop i (reg_intervals w)) /\
      fires KTimeout new = [].
Proof.
  induction fuel as [|fuel IH]; intros i cur w Hwf Hlen; rewrite update_intervals_unfold.
  - rewrite lookup_ge_None_2 by lia. exists w. split_and!; try done.
    + intros j e Hj He. apply lookup_lt_Some in He. lia.
    + exists []. rewrite app_nil_r, drop_ge by lia. done.
  - destruct (reg_intervals w !! i) as [[[id it]|]|] eqn:Hi.
    + destruct (i_allowedExecutionTime it <=? cur) eqn:Hdue.
      * destruct (fire_interval_entry w i id it cur Hwf Hi) as (w1 & Hrun & Hw2).
        rewrite Hrun. simpl. set (w2 := with_intervals_map _ w1) in *.
        destruct Hw2 as (Hwf2 & Ht2 & Hc2 & Hl2 & Hlen2 & Hoth & Hat & new1 & Htr1 & Hf1 & Hg1).
        destruct (IH (S i) cur w2 Hwf2)
          as (w' & Hrun' & Hwf' & Ht' & Hc' & Hl' & Hlen' & Hlow & Hhigh
              & new2 & Htr2 & Hf2 & Hg2); [lia|].
        exists w'. split_and!; try congruence.
        -- intros j Hj. rewrite Hlow by lia. apply Hoth. lia.
        -- intros j e Hj He. destruct (decide (j = i)) as [->|Hne].
           ++ rewrite Hi in He. injection He as <-. rewrite Hlow by lia.
              destruct Hat as [Hat|[Hat ?]]; rewrite Hat; eexists; (split; [done|]);
                simpl; rewrite Hdue; eauto.
           ++ apply Hhigh; [lia|]. by rewrite Hoth.
        -- exists (OFire KInterval id :: new1 ++ new2). split_and!.
           ++ by rewrite Htr2, Htr1, <- app_assoc.
           ++ erewrite (drop_S _ _ i) by done. simpl. rewrite Hdue.
              rewrite fires_app, Hf1, Hf2. simpl. f_equal. f_equal. by apply drop_agree.
           ++ simpl. by rewrite fires_app, Hg1, Hg2.
      * destruct (IH (S i) cur w Hwf)
          as (w' & Hrun' & Hwf' & Ht' & Hc' & Hl' & Hlen' & Hlow & Hhigh
              & new2 & Htr2 & Hf2 & Hg2); [lia|].
        exists w'. split_and!; try done.
        -- intros j Hj. apply Hlow. lia.
        -- intros j e Hj He. destruct (decide (j = i)) as [->|Hne].
           ++ rewrite Hi in He. injection He as <-. rewrite Hlow by lia.
              eexists. split; [done|]. simpl. by rewrite Hdue.
           ++ apply Hhigh; [lia|done].
        -- exists new2. split_and!; try done.
           erewrite (drop_S _ _ i) by done. simpl. by rewrite Hdue.
    + destruct (IH (S i) cur w Hwf)
        as (w' & Hrun' & Hwf' & Ht' & Hc' & Hl' & Hlen' & Hlow & Hhigh
            & new2 & Htr2 & Hf2 & Hg2); [lia|].
      exists w'. split_and!; try done.
      * intros j Hj. apply Hlow. lia.
      * intros j e Hj He. destruct (decide (j = i)) as [->|Hne].
        -- rewrite Hi in He. injection He as <-. rewrite Hlow by lia. by eexists.
        -- apply Hhigh; [lia|done].
      * exists new2. split_and!; try done. by erewrite (drop_S _ _ i) by done.
    + exists w. split_and!; try done.
      * intros j e Hj He. apply lookup_ge_None in Hi. apply lookup_lt_Some in He. lia.
      * exists []. apply lookup_ge_None in Hi. rewrite app_nil_r, drop_ge by lia. done.
Qed.

(** The second loop returns within the fuel [update] gives it, and this is
    what it does. *)
Lemma update_timeouts_spec fuel : forall i cur w,
  wf w -> (length (reg_timeouts w) <= i + fuel)%nat ->
  exists w', update_timeouts fuel i cur w = Some w' /\
    wf w' /\ reg_intervals w' = reg_intervals w /\ _currentId (registry w') = _currentId (registry w) /\
    _lastTime (registry w') = _lastTime (registry w) /\
    length (reg_timeouts w') = length (reg_timeouts w) /\
    (forall j, (j < i)%nat -> reg_timeouts w' !! j = reg_timeouts w !! j) /\
    (forall j e, (i <= j)%nat -> reg_timeouts w !! j = Some e ->
       exists e', reg_timeouts w' !! j = Some e' /\ timeout_post cur e e') /\
    exists new, trace w' = trace w ++ new /\
      fires KInterval new = [] /\
      fires KTimeout new = due_ids t_allowedExecutionTime cur (drop i (reg_timeouts w)).
Proof.
  induction fuel as [|fuel IH]; intros i cur w Hwf Hlen; rewrite update_timeouts_unfold.
  - rewrite lookup_ge_None_2 by lia. exists w. split_and!; try done.
    + intros j e Hj He. apply lookup_lt_Some in He. lia.
    + exists []. rewrite app_nil_r, drop_ge by lia. done.
  - destruct (reg_timeouts w !! i) as [[[id t]|]|] eqn:Hi.
    + destruct (t_allowedExecutionTime t <=? cur) eqn:Hdue.
      * destruct (fire_timeout_entry w i id t Hwf Hi) as (w1 & Hrun & Hw2).
        rewrite Hrun. simpl. set (w2 := with_registry _ w1) in *.
        destruct Hw2 as (Hwf2 & Ht2 & Hc2 & Hl2 & Hlen2 & Hoth & Hat & new1 & Htr1 & Hf1 & Hg1).
        destruct (IH (S i) cur w2 Hwf2)
          as (w' & Hrun' & Hwf' & Ht' & Hc' & Hl' & Hlen' & Hlow & Hhigh
              & new2 & Htr2 & Hf2 & Hg2); [lia|].
        exists w'. split_and!; try congruence.
        -- intros j Hj. rewrite Hlow by lia. apply Hoth. lia.
        -- intros j e Hj He. destruct (decide (j = i)) as [->|Hne].
           ++ rewrite Hi in He. injection He as <-. rewrite Hlow by lia.
              rewrite Hat. eexists. split; [done|]. simpl. by rewrite Hdue.
           ++ apply Hhigh; [lia|]. by rewrite Hoth.
        -- exists (OFire KTimeout id :: new1 ++ new2). split_and!.
           ++ by rewrite Htr2, Htr1, <- app_assoc.
           ++ simpl. by rewrite fires_app, Hf1, Hf2.
           ++ erewrite (drop_S _ _ i) by done. simpl. rewrite Hdue.
              rewrite fires_app, Hg1, Hg2. simpl. f_equal. f_equal. by apply drop_agree.
      * destruct (IH (S i) cur w Hwf)
          as (w' & Hrun' & Hwf' & Ht' & Hc' & Hl' & Hlen' & Hlow & Hhigh
              & new2 & Htr2 & Hf2 & Hg2); [lia|].
        exists w'. split_and!; try done.
        -- intros j Hj. apply Hlow. lia.
        -- intros j e Hj He. destruct (decide (j = i)) as [->|Hne].
           ++ rewrite Hi in He. injection He as <-. rewrite Hlow by lia.
              eexists. split; [done|]. simpl. by rewrite Hdue.
           ++ apply Hhigh; [lia|done].
        -- exists new2. split_and!; try done.
           erewrite (drop_S _ _ i) by done. simpl. by rewrite Hdue.
    + destruct (IH (S i) cur w Hwf)
        as (w' & Hrun' & Hwf' & Ht' & Hc' & Hl' & Hlen' & Hlow & Hhigh
            & new2 & Htr2 & Hf2 & Hg2); [lia|].
      exists w'. split_and!; try done.
      * intros j Hj. apply Hlow. lia.
      * intros j e Hj He. destruct (decide (j = i)) as [->|Hne].
        -- rewrite Hi in He. injection He as <-. rewrite Hlow by lia. by eexists.
        -- apply Hhigh; [lia|done].
      * exists new2. split_and!; try done. by erewrite (drop_S _ _ i) by done.
    + exists w. split_and!; try done.
      * intros j e Hj He. apply lookup_ge_None in Hi. apply lookup_lt_Some in He. lia.
      * exists []. apply lookup_ge_None in Hi. rewrite app_nil_r, drop_ge by lia. done.
Qed.

(** [update] returns on a well-formed world, and this is what it does:
    the clock advances by [delta]; the intervals due at the new time fire
    once each, in insertion order, and are re-armed; then the timeouts due
    fire once each and are deleted. *)
Lemma update_spec delta (w : World) :
  wf w ->
  let cur := _lastTime (registry w) + delta in
  exists w', update delta w = Some w' /\ wf w' /\
    _lastTime (registry w') = cur /\
    _currentId (registry w') = _currentId (registry w) /\
    length (reg_intervals w') = length (reg_intervals w) /\ length (reg_timeouts w') = length (reg_timeouts w) /\
    (forall j e, reg_intervals w !! j = Some e ->
       exists e', reg_intervals w' !! j = Some e' /\ interval_post cur e e') /\
    (forall j e, reg_timeouts w !! j = Some e ->
       exists e', reg_timeouts w' !! j = Some e' /\ timeout_post cur e e') /\
    exists new, trace w' = trace w ++ new /\
      fires KInterval new = due_ids i_allowedExecutionTime cur (reg_intervals w) /\
      fires KTimeout new = due_ids t_allowedExecutionTime cur (reg_timeouts w).
Proof.
  intros Hwf cur. unfold update. fold cur.
  destruct (update_intervals_spec (length (reg_intervals w)) 0 cur w Hwf)
    as (w1 & Hrun1 & Hwf1 & Ht1 & Hc1 & Hl1 & Hlen1 & _ & Hi1 & new1 & Htr1 & Hf1 & Hg1);
    [lia|].
  rewrite Hrun1. simpl.
  destruct (update_timeouts_spec (length (reg_timeouts w1)) 0 cur w1 Hwf1)
    as (w2 & Hrun2 & Hwf2 & Ht2 & Hc2 & Hl2 & Hlen2 & _ & Hi2 & new2 & Htr2 & Hf2 & Hg2);
    [lia|].
  rewrite Hrun2. simpl. eexists. split; [done|]. simpl. split_and!; try congruence.
  - apply (wf_shrink w2); [done|by apply objs_kept_refl|simpl; try apply Hwf2..].
    + intros j id it Hj. by exists j, it.
    + intros j id t Hj. by exists j, t.
  - intros j e Hj. rewrite Ht2. apply Hi1; [lia|done].
  - intros j e Hj. apply Hi2; [lia|]. by rewrite Ht1.
  - exists (new1 ++ new2). rewrite Htr2, Htr1, <- app_assoc, !fires_app.
    rewrite Hf1, Hg1, Hf2, Hg2, Ht1. simpl. by rewrite app_nil_r.
Qed.

(** ** Well-formedness is kept by every call *)

(** [setInterval] returns the identifier [Until_start] lets its closure
    capture. *)
Lemma setInterval_id h interval args r : (setInterval h interval args r).1 = _currentId r.
Proof. done. Qed.

Lemma clamp_nonneg x : 0 <= clamp x.
Proof. destruct x as [n|]; simpl; [|done]. destruct (n =? 0); lia. Qed.

(** The clamped value is [max(x, 0)] for a number [x]. *)
Lemma clamp_Some n : clamp (Some n) = Z.max n 0.
Proof. simpl. destruct (Z.eqb_spec n 0); lia. Qed.

Lemma wf_set_interval (w w' : World) id it :
  wf w -> objs_kept w w' ->
  reg_intervals w' = Map_set id it (reg_intervals w) -> reg_timeouts w' = reg_timeouts w ->
  ihandler_ok w' id (i_handler it) ->
  (forall u k p, i_handler it = HPoll u k p -> ~ until_polling u w) ->
  wf w'.
Proof.
  intros Hwf Hk Hi Ht Hok Hnew. split.
  - rewrite Hi. apply Map_set_NoDup, Hwf.
  - rewrite Ht. apply Hwf.
  - intros j id' it'. rewrite Hi. intros [[-> ->]|Hj]%Map_set_lookup; [done|].
    eapply ihandler_ok_kept; [done|]. by eapply wf_ih.
  - intros j id' t'. rewrite Ht. intros Hj.
    eapply thandler_ok_kept; [done|]. by eapply wf_th.
  - intros j1 j2 id1 id2 it1 it2 u k1 k2 p1 p2. rewrite Hi.
    intros [[-> ->]|H1]%Map_set_lookup Hh1 [[-> ->]|H2]%Map_set_lookup Hh2.
    + congruence.
    + exfalso. apply (Hnew _ _ _ Hh1).
      pose proof (wf_ih w Hwf _ _ _ H2) as Hok2. rewrite Hh2 in Hok2. apply Hok2.
    + exfalso. apply (Hnew _ _ _ Hh2).
      pose proof (wf_ih w Hwf _ _ _ H1) as Hok1. rewrite Hh1 in Hok1. apply Hok1.
    + by eapply (wf_poll w Hwf j1 j2).
  - apply Hk, Hwf.
Qed.

Lemma wf_set_timeout (w w' : World) id t :
  wf w -> objs_kept w w' ->
  reg_intervals w' = reg_intervals w -> reg_timeouts w' = Map_set id t (reg_timeouts w) ->
  thandler_ok w' (t_handler t) ->
  wf w'.
Proof.
  intros Hwf Hk Hi Ht Hok. split.
  - rewrite Hi. apply Hwf.
  - rewrite Ht. apply Map_set_NoDup, Hwf.
  - intros j id' it'. rewrite Hi. intros Hj.
    eapply ihandler_ok_kept; [done|]. by eapply wf_ih.
  - intros j id' t'. rewrite Ht. intros [[-> ->]|Hj]%Map_set_lookup; [done|].
    eapply thandler_ok_kept; [done|]. by eapply wf_th.
  - intros j1 j2 id1 id2 it1 it2 u k1 k2 p1 p2. rewrite Hi. apply Hwf.
  - apply Hk, Hwf.
Qed.

(** Entries deleted from either map. *)
Lemma wf_delete (w w' : World) :
  wf w -> objs_kept w w' ->
  (reg_intervals w' = reg_intervals w \/ exists id, reg_intervals w' = Map_delete id (reg_intervals w)) ->
  (reg_timeouts w' = reg_timeouts w \/ exists id, reg_timeouts w' = Map_delete id (reg_timeouts w)) ->
  wf w'.
Proof.
  intros Hwf Hk Hi Ht. apply (wf_shrink w); try done.
  - destruct Hi as [->|[id ->]]; [|apply Map_delete_NoDup]; apply Hwf.
  - destruct Ht as [->|[id ->]]; [|apply Map_delete_NoDup]; apply Hwf.
  - intros j id' it'. destruct Hi as [->|[id ->]].
    + intros Hj. by exists j, it'.
    + intros [_ Hj]%Map_delete_lookup. by exists j, it'.
  - intros j id' t'. destruct Ht as [->|[id ->]].
    + intros Hj. by exists j, t'.
    + intros [_ Hj]%Map_delete_lookup. by exists j, t'.
Qed.

Lemma timely_set_interval (w w' : World) id it :
  timely w -> reg_intervals w' = Map_set id it (reg_intervals w) -> reg_timeouts w' = reg_timeouts w ->
  _lastTime (registry w') = _lastTime (registry w) ->
  0 <= i_interval it -> _lastTime (registry w) <= i_allowedExecutionTime it ->
  timely w'.
Proof.
  intros Hti Hi Ht Hl H0 Hd. split; rewrite Hl.
  - intros j id' it'. rewrite Hi. intros [[-> ->]|Hj]%Map_set_lookup; [done|].
    by eapply timely_i.
  - intros j id' t'. rewrite Ht. by eapply timely_t.
Qed.

Lemma timely_set_timeout (w w' : World) id t :
  timely w -> reg_intervals w' = reg_intervals w -> reg_timeouts w' = Map_set id t (reg_timeouts w) ->
  _lastTime (registry w') = _lastTime (registry w) ->
  _lastTime (registry w) <= t_allowedExecutionTime t ->
  timely w'.
Proof.
  intros Hti Hi Ht Hl Hd. split; rewrite Hl.
  - intros j id' it'. rewrite Hi. by eapply timely_i.
  - intros j id' t'. rewrite Ht. intros [[-> ->]|Hj]%Map_set_lookup; [done|].
    by eapply timely_t.
Qed.

Lemma timely_delete (w w' : World) :
  timely w ->
  (reg_intervals w' = reg_intervals w \/ exists id, reg_intervals w' = Map_delete id (reg_intervals w)) ->
  (reg_timeouts w' = reg_timeouts w \/ exists id, reg_timeouts w' = Map_delete id (reg_timeouts w)) ->
  _lastTime (registry w') = _lastTime (registry w) ->
  timely w'.
Proof.
  intros Hti Hi Ht Hl. split; rewrite Hl.
  - intros j id' it'. destruct Hi as [->|[id ->]].
    + by eapply timely_i.
    + intros [_ Hj]%Map_delete_lookup. by eapply timely_i.
  - intros j id' t'. destruct Ht as [->|[id ->]].
    + by eapply timely_t.
    + intros [_ Hj]%Map_delete_lookup. by eapply timely_t.
Qed.

Ltac solve_clamp :=
  repeat match goal with |- context [if ?b then _ else _] => destruct b end; lia.

Ltac solve_objs_kept :=
  unfold objs_kept, until_polling, untils_ok; simpl; split_and!;
  eauto using insert_is_Some, app_is_Some.

Lemma Inv_update delta w w' : update delta w = Some w' -> Inv w -> Inv w'.
Proof.
  intros Hu [Hwf Hti].
  destruct (update_spec delta w Hwf)
    as (w'' & Hu' & Hwf' & Hl & _ & Hli & Hlt & Hi & Ht & _).
  rewrite Hu in Hu'. injection Hu' as <-. split; [done|]. split; rewrite Hl.
  - intros j id it Hj.
    destruct (lookup_lt_is_Some_2 (reg_intervals w) j) as [e He].
    { rewrite <- Hli. by eapply lookup_lt_Some. }
    destruct (Hi _ _ He) as (e' & He' & Hpost). rewrite Hj in He'. injection He' as <-.
    destruct e as [[id0 it0]|]; simpl in Hpost; [|done].
    destruct (timely_i w Hti _ _ _ He) as [H0 Hd].
    destruct (Z.leb_spec (i_allowedExecutionTime it0) (_lastTime (registry w) + delta)).
    + destruct Hpost as [[= -> ->]|[? _]]; [|done]. simpl. lia.
    + injection Hpost as -> ->. lia.
  - intros j id t Hj.
    destruct (lookup_lt_is_Some_2 (reg_timeouts w) j) as [e He].
    { rewrite <- Hlt. by eapply lookup_lt_Some. }
    destruct (Ht _ _ He) as (e' & He' & Hpost). rewrite Hj in He'. injection He' as <-.
    destruct e as [[id0 t0]|]; simpl in Hpost; [|done].
    destruct (Z.leb_spec (t_allowedExecutionTime t0) (_lastTime (registry w) + delta)).
    + done.
    + injection Hpost as -> ->. lia.
Qed.

Lemma Inv_Interval_start i w w' : Interval_start i w = Some w' -> Inv w -> Inv w'.
Proof.
  unfold Interval_start. intros Hs [Hwf Hti].
  destruct (intervals w !! i) as [iv|] eqn:Hiv; simpl in Hs; [|done].
  destruct (iv_isStarted iv); [by injection Hs as <-|].
  injection Hs as <-. split.
  - eapply (wf_set_interval w); [done|solve_objs_kept|done|done| |done].
    simpl. apply insert_is_Some. by eexists.
  - eapply (timely_set_interval w); [done..| |]; simpl; solve_clamp.
Qed.

Lemma Inv_Interval_cancel i w w' : Interval_cancel i w = Some w' -> Inv w -> Inv w'.
Proof.
  unfold Interval_cancel. intros Hs [Hwf Hti].
  destruct (intervals w !! i) as [iv|] eqn:Hiv; simpl in Hs; [|done].
  injection Hs as <-. destruct (iv_canceller iv) as [|id]; split.
  - apply (wf_delete w); [done|solve_objs_kept|by left..].
  - by apply (timely_delete w); [done|left..|].
  - apply (wf_delete w); [done|solve_objs_kept|right; by exists id|by left].
  - by apply (timely_delete w); [done|right; by exists id|left|].
Qed.

(** A change of objects that leaves the registry alone. *)
Lemma Inv_objs (w w' : World) :
  Inv w -> registry w' = registry w -> objs_kept w w' -> Inv w'.
Proof.
  intros [Hwf Hti] Hr Hk. split; [by apply (wf_objs w)|].
  split; rewrite Hr; apply Hti.
Qed.

Lemma Inv_Interval_new interval autoStart w r :
  Interval_new interval autoStart w = Some r -> Inv w -> Inv r.2.
Proof.
  unfold Interval_new. intros Hs HI.
  assert (Inv (with_intervals (intervals w ++ [mkIntervalObj [] (Z.max 0 interval) false ICNoop]) w)) as HI1.
  { apply (Inv_objs w); [done|done|solve_objs_kept]. }
  destruct autoStart; [|by injection Hs as <-].
  destruct (Interval_start _ _) as [w2|] eqn:Hst; simpl in Hs; [|done].
  injection Hs as <-. by eapply Inv_Interval_start.
Qed.

Lemma Inv_Interval_reset i interval w w' :
  Interval_reset i interval w = Some w' -> Inv w -> Inv w'.
Proof.
  unfold Interval_reset. intros Hs HI.
  destruct (Interval_cancel i w) as [w1|] eqn:Hc; simpl in Hs; [|done].
  destruct (intervals w1 !! i) as [iv|] eqn:Hiv; simpl in Hs; [|done].
  injection Hs as <-. apply (Inv_objs w1); [by eapply Inv_Interval_cancel|done|].
  solve_objs_kept.
Qed.

Lemma Inv_Delay_start d w w' : Delay_start d w = Some w' -> Inv w -> Inv w'.
Proof.
  unfold Delay_start. intros Hs [Hwf Hti].
  destruct (delays w !! d) as [dl|] eqn:Hdl; simpl in Hs; [|done].
  destruct (d_isStarted dl).
  { injection Hs as <-. apply (Inv_objs w); [done|done|solve_objs_kept]. }
  destruct (d_isInitialized dl); simpl in Hs; injection Hs as <-; split.
  - eapply (wf_set_timeout w); [done|solve_objs_kept|done|done|].
    simpl. apply insert_is_Some. by eexists.
  - eapply (timely_set_timeout w); [done..|]; simpl; solve_clamp.
  - eapply (wf_set_timeout w); [done|solve_objs_kept|done|done|].
    simpl. apply insert_is_Some. by eexists.
  - eapply (timely_set_timeout w); [done..|]; simpl; solve_clamp.
Qed.

Lemma Inv_Delay_cancel d w w' : Delay_cancel d w = Some w' -> Inv w -> Inv w'.
Proof.
  unfold Delay_cancel. intros Hs [Hwf Hti].
  destruct (delays w !! d) as [dl|] eqn:Hdl; simpl in Hs; [|done].
  destruct (d_canceller dl) as [|id rej].
  { injection Hs as <-. apply (Inv_objs w); [done|done|solve_objs_kept]. }
  injection Hs as <-. destruct (d_rejectOnCancel dl); split.
  - apply (wf_delete w); [done|solve_objs_kept|by left|right; by exists id].
  - by apply (timely_delete w); [done|left|right; by exists id|].
  - apply (wf_delete w); [done|solve_objs_kept|by left|right; by exists id].
  - by apply (timely_delete w); [done|left|right; by exists id|].
Qed.

Lemma Inv_Delay_new duration rejectOnCancel autoStart w r :
  Delay_new duration rejectOnCancel autoStart w = Some r -> Inv w -> Inv r.2.
Proof.
  unfold Delay_new. simpl. intros Hs HI.
  match type of Hs with context [Delay_start _ ?w2] => assert (Inv w2) as HI1 end.
  { apply (Inv_objs w); [done|done|solve_objs_kept]. }
  destruct autoStart; [|by injection Hs as <-].
  destruct (Delay_start _ _) as [w3|] eqn:Hst; simpl in Hs; [|done].
  injection Hs as <-. by eapply Inv_Delay_start.
Qed.

Lemma Inv_Delay_reset d duration w w' :
  Delay_reset d duration w = Some w' -> Inv w -> Inv w'.
Proof.
  unfold Delay_reset. intros Hs HI.
  destruct (Delay_cancel d w) as [w1|] eqn:Hc; simpl in Hs; [|done].
  destruct (delays w1 !! d) as [dl|] eqn:Hdl; simpl in Hs; [|done].
  injection Hs as <-. apply (Inv_objs w1); [by eapply Inv_Delay_cancel|done|].
  solve_objs_kept.
Qed.

Lemma Inv_Until_start u w w' : Until_start u w = Some w' -> Inv w -> Inv w'.
Proof.
  unfold Until_start. intros Hs [Hwf Hti].
  destruct (untils w !! u) as [un|] eqn:Hun; simpl in Hs; [|done].
  destruct (u_isStarted un) eqn:Hst; [by injection Hs as <-|].
  injection Hs as <-.
  destruct (wf_cond w Hwf u un Hun Hst) as [c Hc].
  assert (~ until_polling u w) as Hnp.
  { intros (un' & c' & Hun' & _ & Hst'). congruence. }
  split.
  - eapply (wf_set_interval w); [done| |done|done| |].
    + unfold objs_kept, until_polling, untils_ok. simpl. split_and!; try done.
      * intros u' (un' & c' & Hun' & Hc' & Hst').
        destruct (decide (u' = u)) as [->|Hne]; [congruence|].
        exists un', c'. by rewrite list_lookup_insert_ne.
      * intros Hok u' un'. destruct (decide (u' = u)) as [->|Hne].
        -- rewrite list_lookup_insert_eq by (by eapply lookup_lt_Some).
           by intros [= <-].
        -- rewrite list_lookup_insert_ne by done. apply Hok.
    + simpl. split; [done|]. eexists _, c. simpl.
      rewrite list_lookup_insert_eq by (by eapply lookup_lt_Some). done.
    + simpl. by intros u' k p [= <- _ _].
  - by eapply (timely_set_interval w); [done..| |]; simpl; lia.
Qed.

Lemma Inv_Until_new condition autoStart w r :
  Until_new condition autoStart w = Some r -> Inv w -> Inv r.2.
Proof.
  unfold Until_new. simpl. intros Hs HI.
  match type of Hs with context [Until_start _ ?w2] => assert (Inv w2) as HI1 end.
  { apply (Inv_objs w); [done|done|].
    unfold objs_kept, until_polling, untils_ok. simpl. split_and!; try done.
    - intros u (un & c & Hun & Hc & Hst). exists un, c.
      split_and!; [by apply lookup_app_l_Some|done..].
    - intros Hok u un [[_ Hu]|[_ <-]]%lookup_snoc_Some.
      + by eapply Hok.
      + intros _. by eexists. }
  destruct autoStart; [|by injection Hs as <-].
  destruct (Until_start _ _) as [w3|] eqn:Hst; simpl in Hs; [|done].
  injection Hs as <-. by eapply Inv_Until_start.
Qed.

Lemma Inv_step o w w' : step o w = Some w' -> Inv w -> Inv w'.
Proof.
  destruct o; simpl.
  - apply Inv_update.
  - intros [= <-] [Hwf Hti]. split.
    + by eapply (wf_set_interval w); [done|solve_objs_kept|done..].
    + eapply (timely_set_interval w); [done..| |]; simpl;
        pose proof (clamp_nonneg interval); lia.
  - intros [= <-] [Hwf Hti]. split.
    + apply (wf_delete w); [done|solve_objs_kept|right; by eexists|by left].
    + by apply (timely_delete w); [done|right; by eexists|left|].
  - intros [= <-] [Hwf Hti]. split.
    + by eapply (wf_set_timeout w); [done|solve_objs_kept|done..].
    + eapply (timely_set_timeout w); [done..|]; simpl;
        pose proof (clamp_nonneg delay); lia.
  - intros [= <-] [Hwf Hti]. split.
    + apply (wf_delete w); [done|solve_objs_kept|by left|right; by eexists].
    + by apply (timely_delete w); [done|left|right; by eexists|].
  - destruct (Interval_new _ _ _) as [r|] eqn:Hn; simpl; [|done].
    intros [= <-]. by eapply Inv_Interval_new.
  - apply Inv_Interval_start.
  - apply Inv_Interval_cancel.
  - apply Inv_Interval_reset.
  - unfold onTick_add. destruct (intervals w !! i) as [iv|]; simpl; [|done].
    intros [= <-] HI. apply (Inv_objs w); [done|done|solve_objs_kept].
  - unfold onTick_remove. destruct (intervals w !! i) as [iv|]; simpl; [|done].
    intros [= <-] HI. apply (Inv_objs w); [done|done|solve_objs_kept].
  - destruct (Delay_new _ _ _ _) as [r|] eqn:Hn; simpl; [|done].
    intros [= <-]. by eapply Inv_Delay_new.
  - apply Inv_Delay_start.
  - apply Inv_Delay_cancel.
  - apply Inv_Delay_reset.
  - unfold Delay_then. destruct (delays w !! d) as [dl|]; simpl; [|done].
    intros [= <-] HI. apply (Inv_objs w); [done|done|solve_objs_kept].
  - destruct (Until_new _ _ _) as [r|] eqn:Hn; simpl; [|done].
    intros [= <-]. by eapply Inv_Until_new.
  - apply Inv_Until_start.
  - unfold Until_then. destruct (untils w !! u) as [un|]; simpl; [|done].
    intros [= <-] HI. apply (Inv_objs w); [done|done|solve_objs_kept].
  - intros [= <-] HI. apply (Inv_objs w); [done|done|solve_objs_kept].
Qed.

Lemma Inv_new startTime (e : Env) : Inv (World_new startTime e).
Proof.
  split; split; simpl; try done; try apply NoDup_nil_2.
Qed.

Lemma Inv_run ops : forall w w', run ops w = Some w' -> Inv w -> Inv w'.
Proof.
  induction ops as [|o ops IH]; intros w w'; simpl; [by intros [= <-]|].
  destruct (step o w) as [w1|] eqn:Ho; simpl; [|done].
  intros Hr HI. eapply IH; eauto using Inv_step.
Qed.

Lemma reachable_Inv w : reachable w -> Inv w.
Proof. intros (t & e & ops & Hr). eapply Inv_run; [done|apply Inv_new]. Qed.

(** ** The clock *)

Lemma run_handler_lastTime h args w w' :
  run_handler h args w = Some w' -> _lastTime (registry w') = _lastTime (registry w).
Proof.
  intros Hr. destruct h; simpl in Hr; split_cases; rewrite ?Event_fire_eq; done.
Qed.

Lemma update_lastTime delta w w' :
  update delta w = Some w' -> _lastTime (registry w') = _lastTime (registry w) + delta.
Proof.
  unfold update. intros Hu.
  destruct (update_intervals _ _ _ _) as [w1|] eqn:H1; simpl in Hu; [|done].
  destruct (update_timeouts _ _ _ _) as [w2|] eqn:H2; simpl in Hu; [|done].
  injection Hu as <-. done.
Qed.

(** Only [update] moves the clock. *)
Lemma step_lastTime o w w' :
  step o w = Some w' ->
  _lastTime (registry w') =
    _lastTime (registry w) + match o with RegUpdate delta => delta | _ => 0 end.
Proof.
  intros Hs. destruct o; simpl in Hs; try (by apply update_lastTime);
    unfold_methods; split_cases; simpl; lia.
Qed.

(** ** An Until that was started stays started *)

Lemma until_started_insert (w : World) u u' un0 un' l :
  until_started u w -> untils w !! u' = Some un0 ->
  (u_isStarted un0 = true -> u_isStarted un' = true) ->
  l = <[u' := un']> (untils w) ->
  exists un, l !! u = Some un /\ u_isStarted un = true.
Proof.
  intros (un & Hun & Hst) Hu' Himp ->. destruct (decide (u' = u)) as [->|Hne].
  - exists un'. rewrite list_lookup_insert_eq by (by eapply lookup_lt_Some).
    split; [done|]. apply Himp. congruence.
  - exists un. by rewrite list_lookup_insert_ne.
Qed.

Lemma run_handler_keeps_started u h args w w' :
  run_handler h args w = Some w' -> until_started u w -> until_started u w'.
Proof.
  intros Hr Hu. destruct h; simpl in Hr; split_cases; rewrite ?Event_fire_eq; try done.
  unfold until_started. simpl.
  eapply (until_started_insert w); [done|eassumption| |reflexivity]; done.
Qed.

Lemma step_keeps_started u o w w' :
  step o w = Some w' -> until_started u w -> until_started u w'.
Proof.
  intros Hs Hu. destruct o; simpl in Hs.
  { revert Hs Hu. apply update_keeps; try done.
    intros h args w1 w2. apply run_handler_keeps_started. }
  all: unfold_methods; split_cases; try done; unfold until_started in *; simpl.
  all: try (eapply (until_started_insert w); [done|eassumption| |reflexivity]; done).
  all: destruct Hu as (un & Hun & Hst); exists un; split; [|done].
  all: try by apply lookup_app_l_Some.
  all: rewrite list_lookup_insert_ne; [by apply lookup_app_l_Some|].
  all: apply lookup_lt_Some in Hun; lia.
Qed.

Lemma run_keeps_started u ops : forall w w',
  run ops w = Some w' -> until_started u w -> until_started u w'.
Proof.
  induction ops as [|o ops IH]; intros w w'; simpl; [by intros [= <-]|].
  destruct (step o w) as [w1|] eqn:Ho; simpl; [|done].
  intros Hr Hu. eapply IH; eauto using step_keeps_started.
Qed.

(** ** An Until that was not started keeps its first promise *)

Lemma until_idle_insert (w : World) u p u' un0 un' l :
  until_idle u p w -> untils w !! u' = Some un0 ->
  (u' = u -> u_promise un' = u_promise un0 /\ u_isStarted un' = u_isStarted un0) ->
  l = <[u' := un']> (untils w) ->
  exists un, l !! u = Some un /\ u_promise un = p /\ u_isStarted un = false.
Proof.
  intros (un & Hun & Hp & Hst) Hu' Himp ->. destruct (decide (u' = u)) as [->|Hne].
  - exists un'. rewrite list_lookup_insert_eq by (by eapply lookup_lt_Some).
    destruct Himp as [-> ->]; [done|]. split; [done|]. split; congruence.
  - exists un. by rewrite list_lookup_insert_ne.
Qed.

Lemma run_handler_keeps_idle u p h args w w' :
  run_handler h args w = Some w' -> until_idle u p w -> until_idle u p w'.
Proof.
  intros Hr Hu. destruct h; simpl in Hr; split_cases; rewrite ?Event_fire_eq; try done.
  unfold until_idle. simpl.
  eapply (until_idle_insert w); [done|eassumption| |reflexivity]; done.
Qed.

Lemma step_keeps_idle u p o w w' :
  step o w = Some w' -> o <> UntilStart u -> until_idle u p w -> until_idle u p w'.
Proof.
  intros Hs Hne Hu. destruct o; simpl in Hs.
  { revert Hs Hu. apply update_keeps; try done.
    intros h args w1 w2. apply run_handler_keeps_idle. }
  all: unfold_methods; split_cases; try done; unfold until_idle in *; simpl.
  all: try (eapply (until_idle_insert w); [done|eassumption| |reflexivity];
            intros ->; congruence).
  all: destruct Hu as (un & Hun & Hp & Hst); exists un; split; [|done].
  all: try by apply lookup_app_l_Some.
  all: rewrite list_lookup_insert_ne; [by apply lookup_app_l_Some|].
  all: apply lookup_lt_Some in Hun; lia.
Qed.

Lemma run_keeps_idle u p ops : forall w w',
  run ops w = Some w' -> UntilStart u ∉ ops -> until_idle u p w -> until_idle u p w'.
Proof.
  induction ops as [|o ops IH]; intros w w'; simpl; [by intros [= <-]|].
  destruct (step o w) as [w1|] eqn:Ho; simpl; [|done].
  intros Hr Hnin Hu. apply not_elem_of_cons in Hnin as [Hne Hnin].
  eapply IH; eauto using step_keeps_idle.
Qed.

(** ** The canceller of a Delay is armed only between [start] and the end
       of the wait *)

Lemma last_event_snoc d tr o :
  last_event d (tr ++ [o]) = if delay_event d o then Some o else last_event d tr.
Proof. unfold last_event. by rewrite fold_left_app. Qed.

Lemma last_event_listeners d tr t (ls : list nat) :
  last_event d (tr ++ ((fun l => OListener l t) <$> ls)) = last_event d tr.
Proof.
  unfold last_event. rewrite fold_left_app.
  generalize (fold_left (fun acc o => if delay_event d o then Some o else acc) tr None).
  induction ls as [|l ls IH]; intros acc; simpl; [done|]. apply IH.
Qed.

Lemma last_event_elem d tr o : last_event d tr = Some o -> o ∈ tr.
Proof.
  induction tr as [|o' tr IH] using rev_ind; [done|].
  rewrite last_event_snoc. destruct (delay_event d o').
  - intros [= ->]. apply elem_of_app. right. apply list_elem_of_here.
  - intros H. apply elem_of_app. left. by apply IH.
Qed.

Lemma canceller_inv_frame (w w' : World) :
  canceller_inv w ->
  (forall d dl', delays w' !! d = Some dl' -> d_canceller dl' <> DCNoop ->
     last_event d (trace w') = Some (ODelayStart d) \/
     (last_event d (trace w') = last_event d (trace w) /\
      exists dl, delays w !! d = Some dl /\ d_canceller dl <> DCNoop)) ->
  canceller_inv w'.
Proof.
  intros Hinv H d dl' Hd Hc. destruct (H d dl' Hd Hc) as [?|[-> (dl & Hdl & Hc')]]; [done|].
  by eapply Hinv.
Qed.

(** A world with the same Delays whose trace grew by records of other
    objects. *)
Lemma canceller_inv_same (w w' : World) :
  canceller_inv w -> delays w' = delays w ->
  (forall d, last_event d (trace w') = last_event d (trace w)) ->
  canceller_inv w'.
Proof.
  intros Hinv Hd Htr. apply (canceller_inv_frame w); [done|].
  intros d dl'. rewrite Hd. intros Hdl Hc. right. split; [done|]. by exists dl'.
Qed.

Lemma Nat_eqb_self n : Nat.eqb n n = true.
Proof. apply Nat.eqb_refl. Qed.

Lemma canceller_inv_handler h args w w' :
  run_handler h args w = Some w' -> canceller_inv w -> canceller_inv w'.
Proof.
  intros Hr Hinv. destruct h as [tag|i|d0|u k p]; simpl in Hr; split_cases.
  - apply (canceller_inv_same w); [done|done|]. intros d1. simpl. by rewrite last_event_snoc.
  - rewrite Event_fire_eq. apply (canceller_inv_same w); [done|done|]. intros d1. simpl.
    by rewrite last_event_listeners, last_event_snoc.
  - apply (canceller_inv_frame w); [done|]. simpl. intros d1 dl'.
    destruct (decide (d1 = d0)) as [->|Hne].
    + rewrite list_lookup_insert_eq by (by eapply lookup_lt_Some). by intros [= <-].
    + rewrite list_lookup_insert_ne by done. intros Hdl Hc. right.
      rewrite last_event_snoc. simpl.
      destruct (Nat.eqb_spec d0 d1); [congruence|]. split; [done|]. by exists dl'.
  - by apply (canceller_inv_same w).
  - done.
Qed.

Lemma canceller_inv_update delta w w' :
  update delta w = Some w' -> canceller_inv w -> canceller_inv w'.
Proof.
  apply update_keeps; try done.
  - intros k id w1 H. apply (canceller_inv_same w1); [done|done|].
    intros d. simpl. by rewrite last_event_snoc.
  - apply canceller_inv_handler.
Qed.

Lemma canceller_inv_Delay_start d0 w w' :
  Delay_start d0 w = Some w' -> canceller_inv w -> canceller_inv w'.
Proof.
  unfold Delay_start. intros Hs Hinv.
  destruct (delays w !! d0) as [dl0|] eqn:Hdl0; simpl in Hs; [|done].
  assert (forall d dl' (l : list Delay) tr, l !! d = Some dl' -> d_canceller dl' <> DCNoop ->
            (d <> d0 -> l !! d = delays w !! d) -> tr = trace w ++ [ODelayStart d0] ->
            last_event d tr = Some (ODelayStart d) \/
            (last_event d tr = last_event d (trace w) /\
             exists dl, delays w !! d = Some dl /\ d_canceller dl <> DCNoop)) as Hcase.
  { intros d dl' l tr Hd Hc Hoth ->. rewrite last_event_snoc. simpl.
    destruct (Nat.eqb_spec d0 d) as [->|Hne]; [by left|].
    right. split; [done|]. exists dl'. split; [|done]. rewrite <- Hoth; done. }
  destruct (d_isStarted dl0).
  { injection Hs as <-. apply (canceller_inv_frame w); [done|]. simpl.
    intros d dl' Hd Hc. by eapply Hcase. }
  destruct (d_isInitialized dl0); simpl in Hs; injection Hs as <-;
    (apply (canceller_inv_frame w); [done|]); simpl; intros d dl' Hd Hc;
    (eapply Hcase; [exact Hd|done| |done]); intros Hne; by rewrite list_lookup_insert_ne.
Qed.

Lemma canceller_inv_Delay_cancel d0 w w' :
  Delay_cancel d0 w = Some w' -> canceller_inv w -> canceller_inv w'.
Proof.
  unfold Delay_cancel. intros Hs Hinv.
  destruct (delays w !! d0) as [dl0|] eqn:Hdl0; simpl in Hs; [|done].
  destruct (d_canceller dl0) as [|id rej] eqn:Hc0; injection Hs as <-;
    (apply (canceller_inv_frame w); [done|]).
  - simpl. intros d dl' Hd Hc. right. rewrite last_event_snoc. simpl.
    destruct (Nat.eqb_spec d0 d) as [->|Hne]; [congruence|]. split; [done|]. by exists dl'.
  - assert (forall (l : list Delay) tr, l = delays w -> tr = trace w ++ [ODelayCancel d0] ->
      forall d dl', <[d0 := mkDelay (d_promise dl0) (d_resolver dl0) (d_rejecter dl0) DCNoop
                             (d_duration dl0) (d_rejectOnCancel dl0) false false]> l !! d
                    = Some dl' -> d_canceller dl' <> DCNoop ->
        last_event d tr = Some (ODelayStart d) \/
        (last_event d tr = last_event d (trace w) /\
         exists dl, delays w !! d = Some dl /\ d_canceller dl <> DCNoop)) as Hcase.
    { intros l tr -> -> d dl'.
      destruct (decide (d = d0)) as [->|Hne].
      - rewrite list_lookup_insert_eq by (by eapply lookup_lt_Some). by intros [= <-].
      - rewrite list_lookup_insert_ne by done. intros Hd Hc. right.
        rewrite last_event_snoc. simpl.
        destruct (Nat.eqb_spec d0 d); [congruence|]. split; [done|]. by exists dl'. }
    destruct (d_rejectOnCancel dl0); simpl; intros d dl' Hd Hc;
      (eapply Hcase; [reflexivity|reflexivity|exact Hd|exact Hc]).
Qed.

Lemma canceller_inv_Delay_new duration rejectOnCancel autoStart w r :
  Delay_new duration rejectOnCancel autoStart w = Some r ->
  canceller_inv w -> canceller_inv r.2.
Proof.
  unfold Delay_new. simpl. intros Hs Hinv.
  match type of Hs with context [Delay_start _ ?w2] => assert (canceller_inv w2) as H2 end.
  { apply (canceller_inv_frame w); [done|]. simpl.
    intros d dl' [[_ Hd]|[_ <-]]%lookup_snoc_Some Hc; [|done].
    right. split; [done|]. by exists dl'. }
  destruct autoStart; [|by injection Hs as <-].
  destruct (Delay_start _ _) as [w3|] eqn:Hst; simpl in Hs; [|done].
  injection Hs as <-. by eapply canceller_inv_Delay_start.
Qed.

Lemma canceller_inv_Delay_reset d0 duration w w' :
  Delay_reset d0 duration w = Some w' -> canceller_inv w -> canceller_inv w'.
Proof.
  unfold Delay_reset. intros Hs Hinv.
  destruct (Delay_cancel d0 w) as [w1|] eqn:Hc; simpl in Hs; [|done].
  destruct (delays w1 !! d0) as [dl0|] eqn:Hdl0; simpl in Hs; [|done].
  injection Hs as <-.
  apply (canceller_inv_frame w1); [by eapply canceller_inv_Delay_cancel|]. simpl.
  intros d dl'. destruct (decide (d = d0)) as [->|Hne].
  - rewrite list_lookup_insert_eq by (by eapply lookup_lt_Some).
    intros [= <-] Hcn. right. split; [done|]. by exists dl0.
  - rewrite list_lookup_insert_ne by done. intros Hd Hcn. right. split; [done|].
    by exists dl'.
Qed.

Lemma canceller_inv_step o w w' : step o w = Some w' -> canceller_inv w -> canceller_inv w'.
Proof.
  intros Hs Hinv. destruct o; simpl in Hs;
    eauto using canceller_inv_update, canceller_inv_Delay_start, canceller_inv_Delay_cancel,
      canceller_inv_Delay_reset.
  all: try (destruct (Delay_new _ _ _ _) as [r|] eqn:Hn; simpl in Hs; [|done];
            injection Hs as <-; by eapply canceller_inv_Delay_new).
  all: unfold_methods; split_cases; try done.
  all: by apply (canceller_inv_same w).
Qed.

Lemma canceller_inv_run ops : forall w w',
  run ops w = Some w' -> canceller_inv w -> canceller_inv w'.
Proof.
  induction ops as [|o ops IH]; intros w w'; simpl; [by intros [= <-]|].
  destruct (step o w) as [w1|] eqn:Ho; simpl; [|done].
  intros Hr Hinv. eapply IH; eauto using canceller_inv_step.
Qed.

Lemma reachable_canceller_inv w : reachable w -> canceller_inv w.
Proof.
  intros (t & e & ops & Hr). eapply canceller_inv_run; [done|]. by intros d dl.
Qed.

(** ** How often an item fires *)

Lemma due_ids_sub {V : Type} (allowed : V -> Z) cur (m : EsMap V) :
  sublist (due_ids allowed cur m) (Map_keys m).
Proof.
  induction m as [|[[k v]|] m IH]; [done| |].
  - rewrite Map_keys_cons_Some. unfold due_ids. simpl. fold (due_ids allowed cur m).
    destruct (allowed v <=? cur); [by apply sublist_skip|by apply sublist_cons].
  - by rewrite Map_keys_cons_None.
Qed.

Lemma due_ids_elem {V : Type} (allowed : V -> Z) cur (m : EsMap V) id :
  id ∈ due_ids allowed cur m <->
  exists j v, m !! j = Some (Some (id, v)) /\ allowed v <= cur.
Proof.
  unfold due_ids. rewrite list_elem_of_omap. split.
  - intros ([[k v]|] & [j Hj]%list_elem_of_lookup & Hf); [|done].
    destruct (Z.leb_spec (allowed v) cur); [|done]. injection Hf as ->. by exists j, v.
  - intros (j & v & Hj & Hle). exists (Some (id, v)). split.
    + by eapply list_elem_of_lookup_2.
    + destruct (Z.leb_spec (allowed v) cur); [done|lia].
Qed.

(** With distinct keys, the entry under [id] decides how often [id] is in
    the list of the keys due. *)
Lemma due_ids_count {V : Type} (allowed : V -> Z) cur (m : EsMap V) j id v :
  NoDup (Map_keys m) -> m !! j = Some (Some (id, v)) ->
  count_occ Z.eq_dec (due_ids allowed cur m) id =
    if allowed v <=? cur then 1%nat else 0%nat.
Proof.
  intros Hnd Hj. destruct (Z.leb_spec (allowed v) cur) as [Hle|Hgt].
  - apply NoDup_count_occ'.
    + apply NoDup_ListNoDup. eapply sublist_NoDup; [done|apply due_ids_sub].
    + apply list_elem_of_In, due_ids_elem. by exists j, v.
  - apply count_occ_not_In. rewrite <- list_elem_of_In, due_ids_elem.
    intros (j' & v' & Hj' & Hle).
    assert (j' = j) as -> by (by eapply Map_keys_NoDup_lookup).
    rewrite Hj in Hj'. injection Hj' as <-. lia.
Qed.

Lemma due_ids_count_le {V : Type} (allowed : V -> Z) cur (m : EsMap V) id :
  NoDup (Map_keys m) -> (count_occ Z.eq_dec (due_ids allowed cur m) id <= 1)%nat.
Proof.
  intros Hnd. apply NoDup_count_occ, NoDup_ListNoDup.
  eapply sublist_NoDup; [done|apply due_ids_sub].
Qed.

Lemma Map_get_set {V : Type} k (v : V) (m : EsMap V) : Map_get k (Map_set k v m) = Some v.
Proof.
  induction m as [|[[k' v']|] m IH]; simpl.
  - by rewrite Z.eqb_refl.
  - destruct (Z.eqb_spec k' k) as [->|Hne]; simpl.
    + by rewrite Z.eqb_refl.
    + by destruct (Z.eqb_spec k' k).
  - done.
Qed.

(** ** A step back in time fires nothing *)

Lemma update_intervals_idle fuel : forall i cur w,
  (forall j id it, reg_intervals w !! j = Some (Some (id, it)) -> cur < i_allowedExecutionTime it) ->
  (length (reg_intervals w) <= i + fuel)%nat ->
  update_intervals fuel i cur w = Some w.
Proof.
  induction fuel as [|fuel IH]; intros i cur w Hlate Hlen; rewrite update_intervals_unfold.
  - by rewrite lookup_ge_None_2 by lia.
  - destruct (reg_intervals w !! i) as [[[id it]|]|] eqn:Hi; [| |done].
    + destruct (Z.leb_spec (i_allowedExecutionTime it) cur) as [Hle|_].
      * specialize (Hlate _ _ _ Hi). lia.
      * apply IH; [done|lia].
    + apply IH; [done|lia].
Qed.

Lemma update_timeouts_idle fuel : forall i cur w,
  (forall j id t, reg_timeouts w !! j = Some (Some (id, t)) -> cur < t_allowedExecutionTime t) ->
  (length (reg_timeouts w) <= i + fuel)%nat ->
  update_timeouts fuel i cur w = Some w.
Proof.
  induction fuel as [|fuel IH]; intros i cur w Hlate Hlen; rewrite update_timeouts_unfold.
  - by rewrite lookup_ge_None_2 by lia.
  - destruct (reg_timeouts w !! i) as [[[id t]|]|] eqn:Hi; [| |done].
    + destruct (Z.leb_spec (t_allowedExecutionTime t) cur) as [Hle|_].
      * specialize (Hlate _ _ _ Hi). lia.
      * apply IH; [done|lia].
    + apply IH; [done|lia].
Qed.

Lemma update_negative delta (w : World) :
  timely w -> delta < 0 ->
  update delta w = Some (with_lastTime (_lastTime (registry w) + delta) w).
Proof.
  intros Hti Hneg. unfold update.
  rewrite update_intervals_idle; [simpl|..|lia].
  - rewrite update_timeouts_idle; [done|..|lia].
    intros j id t Hj. pose proof (timely_t w Hti _ _ _ Hj). lia.
  - intros j id it Hj. pose proof (timely_i w Hti _ _ _ Hj). lia.
Qed.

Lemma Map_keys_elem {V : Type} (m : EsMap V) k :
  k ∈ Map_keys m -> exists j v, m !! j = Some (Some (k, v)).
Proof.
  unfold Map_keys. rewrite list_elem_of_omap.
  intros ([[k' v]|] & [j Hj]%list_elem_of_lookup & Hf); [|done].
  injection Hf as ->. by exists j, v.
Qed.

(** * The claims *)

(** C1, as the code has it.  With a registry created at time 0 and a
    started Interval of 500 ms, one call [update(1100)] fires the tick event
    exactly once: an item fires at most once per call of [update].  The tick
    carries what [now()] returns while the handlers run, which is still the
    time before the call, 0; the clock reads 1100 when the call returns. *)
Theorem C1_interval_500_update_1100_ticks_once (e : Env) :
  exists i w1 w2,
    Interval_new 500 true (World_new 0 e) = Some (i, w1) /\
    update 1100 w1 = Some w2 /\
    ticks i (trace w2) = [0] /\
    now (registry w2) = 1100.
Proof. eexists _, _, _. split_and!; reflexivity. Qed.

(** C2.  In every reachable world (callers' callbacks being observers) and
    for every [delta], [update(delta)] returns and works at
    [currentTime = lastTime + delta]: a repeating item
    that is due ([allowedExecutionTime <= currentTime]) has its handler
    invoked exactly once, and no item is invoked twice, whatever the number
    of periods [delta] spans; its entry is then re-armed at
    [currentTime + interval] (the entry is empty instead when the handler
    deleted it: the polling closure of an Until whose condition holds); a
    repeating item that is not due is not invoked and stays; a one-shot item
    that is due is invoked once and removed; finally
    [lastTime = currentTime]. *)
Theorem C2_update_fires_each_due_item_once (w : World) (delta : Z) :
  reachable w ->
  let currentTime := _lastTime (registry w) + delta in
  exists w' new,
    update delta w = Some w' /\ trace w' = trace w ++ new /\
    (forall j id it, reg_intervals w !! j = Some (Some (id, it)) ->
       if i_allowedExecutionTime it <=? currentTime then
         count_occ Z.eq_dec (fires KInterval new) id = 1%nat /\
         (reg_intervals w' !! j = Some (Some (id, rearmed (currentTime + i_interval it) it)) \/
          (reg_intervals w' !! j = Some None /\ exists u p, i_handler it = HPoll u id p))
       else
         count_occ Z.eq_dec (fires KInterval new) id = 0%nat /\
         reg_intervals w' !! j = Some (Some (id, it))) /\
    (forall id, (count_occ Z.eq_dec (fires KInterval new) id <= 1)%nat) /\
    (forall j id t, reg_timeouts w !! j = Some (Some (id, t)) ->
       if t_allowedExecutionTime t <=? currentTime then
         count_occ Z.eq_dec (fires KTimeout new) id = 1%nat /\
         reg_timeouts w' !! j = Some None /\ id ∉ Map_keys (reg_timeouts w')
       else
         count_occ Z.eq_dec (fires KTimeout new) id = 0%nat /\
         reg_timeouts w' !! j = Some (Some (id, t))) /\
    (forall id, (count_occ Z.eq_dec (fires KTimeout new) id <= 1)%nat) /\
    _lastTime (registry w') = currentTime.
Proof.
  intros [Hwf Hti]%reachable_Inv currentTime.
  destruct (update_spec delta w Hwf)
    as (w' & Hu & Hwf' & Hl & _ & Hli & Hlt & Hi & Ht & new & Htr & Hfi & Hft).
  fold currentTime in Hl, Hi, Ht, Hfi, Hft.
  exists w', new. split_and!; try done.
  - intros j id it Hj. destruct (Hi _ _ Hj) as (e' & He' & Hpost). simpl in Hpost.
    rewrite Hfi, (due_ids_count _ _ _ j id it) by (done || apply Hwf).
    destruct (i_allowedExecutionTime it <=? currentTime).
    + split; [done|]. destruct Hpost as [->|[-> ?]]; eauto.
    + by subst e'.
  - intros id. rewrite Hfi. apply due_ids_count_le, Hwf.
  - intros j id t Hj. destruct (Ht _ _ Hj) as (e' & He' & Hpost). simpl in Hpost.
    rewrite Hft, (due_ids_count _ _ _ j id t) by (done || apply Hwf).
    destruct (Z.leb_spec (t_allowedExecutionTime t) currentTime) as [Hle|Hgt].
    + subst e'. split_and!; try done.
      intros (j' & t' & Hj')%Map_keys_elem.
      destruct (lookup_lt_is_Some_2 (reg_timeouts w) j') as [e He].
      { rewrite <- Hlt. by eapply lookup_lt_Some. }
      destruct (Ht _ _ He) as (e'' & He'' & Hpost'). rewrite Hj' in He''.
      injection He'' as <-. destruct e as [[id0 t0]|]; simpl in Hpost'; [|done].
      destruct (t_allowedExecutionTime t0 <=? currentTime); [done|].
      injection Hpost' as -> ->.
      assert (j' = j) as ->
        by (apply (Map_keys_NoDup_lookup (reg_timeouts w) j' j id0 t0 t); [apply Hwf|done..]).
      congruence.
    + by subst e'.
  - intros id. rewrite Hft. apply due_ids_count_le, Hwf.
Qed.

(** C3, as the code has it.  A work item is created due at the time of the
    registry plus [max(period_or_delay, 0)] (plus 0 when the argument is
    absent), and a repeating item that fires in [update(delta)] is due next
    at [currentTime + interval], where [currentTime = lastTime + delta] is
    the time of that call: the old due time plays no part.  Due times are
    functions of the registry's own clock only. *)
Theorem C3_due_times_follow_the_registry_clock :
  (forall h n args r,
     Map_get (setInterval h (Some n) args r).1 (_intervals (setInterval h (Some n) args r).2)
     = Some (mkInterval h args (Z.max n 0) (now r + Z.max n 0))) /\
  (forall h args r,
     Map_get (setInterval h None args r).1 (_intervals (setInterval h None args r).2)
     = Some (mkInterval h args 0 (now r + 0))) /\
  (forall h n args r,
     Map_get (setTimeout h (Some n) args r).1 (_timeouts (setTimeout h (Some n) args r).2)
     = Some (mkTimeout h args (now r + Z.max n 0))) /\
  (forall h args r,
     Map_get (setTimeout h None args r).1 (_timeouts (setTimeout h None args r).2)
     = Some (mkTimeout h args (now r + 0))) /\
  (forall (w : World) delta, reachable w ->
     exists w', update delta w = Some w' /\
       forall j id it it',
         reg_intervals w !! j = Some (Some (id, it)) ->
         i_allowedExecutionTime it <= now (registry w) + delta ->
         reg_intervals w' !! j = Some (Some (id, it')) ->
         i_allowedExecutionTime it' = now (registry w) + delta + i_interval it).
Proof.
  split_and!.
  - intros h n args r. rewrite setInterval_eq. simpl fst. simpl snd. simpl _intervals.
    rewrite Map_get_set. unfold now. by destruct (Z.eqb_spec n 0) as [->|?].
  - intros h args r. rewrite setInterval_eq. simpl fst. simpl snd. simpl _intervals.
    by rewrite Map_get_set.
  - intros h n args r. rewrite setTimeout_eq. simpl fst. simpl snd. simpl _timeouts.
    rewrite Map_get_set. unfold now. by destruct (Z.eqb_spec n 0) as [->|?].
  - intros h args r. rewrite setTimeout_eq. simpl fst. simpl snd. simpl _timeouts.
    by rewrite Map_get_set.
  - intros w delta [Hwf Hti]%reachable_Inv.
    destruct (update_spec delta w Hwf) as (w' & Hu & _ & _ & _ & _ & _ & Hi & _).
    exists w'. split; [done|]. intros j id it it' Hj Hdue Hj'.
    destruct (Hi _ _ Hj) as (e' & He' & Hpost). rewrite Hj' in He'. injection He' as <-.
    simpl in Hpost. unfold now in Hdue.
    destruct (Z.leb_spec (i_allowedExecutionTime it) (_lastTime (registry w) + delta));
      [|lia].
    by destruct Hpost as [[= ->]|[? _]].
Qed.

(** C4, as the code has it.  Along every sequence of calls in which no
    [update] is given a negative [delta], [now()] does not decrease: a later
    call of [now()] returns at least what an earlier call returned. *)
Theorem C4_now_monotone_when_no_delta_is_negative ops (w w' : World) :
  run ops w = Some w' -> Forall forward ops ->
  now (registry w) <= now (registry w').
Proof.
  revert w. induction ops as [|o ops IH]; intros w; simpl.
  - by intros [= <-].
  - destruct (step o w) as [w1|] eqn:Ho; simpl; [|done].
    intros Hr [Hf Hfs]%Forall_cons. specialize (IH _ Hr Hfs).
    apply step_lastTime in Ho. unfold now in *. destruct o; simpl in Hf; lia.
Qed.

(** C5, as the code has it.  In every reachable world (callers' callbacks
    being observers) every method of the registry returns, for every
    argument; and [update] with a negative [delta] moves the clock back by
    [delta] and does nothing else (no handler is invoked, no entry changes)
    when the sum [lastTime + delta] is exact: the time of the registry,
    [delta] and the sum are safe integers.  Where the sum rounds, the clock
    may stay and items due at its time fire, as the registry over binary64
    shows at the time [2^54]. *)
Theorem C5_registry_total_and_exact_negative_delta_fires_nothing (w : World) :
  reachable w ->
  (forall o, registry_op o -> exists w', step o w = Some w') /\
  (forall delta, delta < 0 ->
     isSafeInteger (now (registry w)) -> isSafeInteger delta ->
     isSafeInteger (now (registry w) + delta) ->
     exists w', update delta w = Some w' /\
       now (registry w') = now (registry w) + delta /\
       now (registry w') < now (registry w) /\
       trace w' = trace w /\
       w' = with_lastTime (now (registry w) + delta) w).
Proof.
  intros [Hwf Hti]%reachable_Inv. split.
  - intros o Ho. destruct o; simpl in *; try done; try by eexists.
    destruct (update_spec delta w Hwf) as (w' & Hu & _). by exists w'.
  - intros delta Hneg _ _ _. eexists. split; [by apply update_negative|].
    unfold now. simpl. split_and!; try done. lia.
Qed.

(** ** Supporting facts on [cancel] and [start] *)

(** What the armed canceller of a Delay does. *)
Lemma Delay_cancel_armed (w : World) d dl timeoutId rejecter :
  delays w !! d = Some dl -> d_canceller dl = DCArmed timeoutId rejecter ->
  exists w', Delay_cancel d w = Some w' /\
    reg_timeouts w' = Map_delete timeoutId (reg_timeouts w) /\
    promises w' =
      (if d_rejectOnCancel dl then settle rejecter (Rejected "cancelled") (promises w)
       else promises w) /\
    exists dl', delays w' !! d = Some dl' /\ d_canceller dl' = DCNoop /\
      d_isStarted dl' = false /\ d_isInitialized dl' = false /\
      d_promise dl' = d_promise dl.
Proof.
  intros Hd Hc. unfold Delay_cancel. rewrite Hd. simpl. rewrite Hc.
  eexists. split; [done|]. simpl.
  destruct (d_rejectOnCancel dl); simpl; split_and!; try done;
    eexists; (split; [apply list_lookup_insert_eq; by eapply lookup_lt_Some|done]).
Qed.

(** With [rejectOnCancel = true] the armed canceller rejects the pending
    promise it captured, and the promise stays rejected: this is what every
    awaiter attached to it observes. *)
Lemma Delay_cancel_rejects (w : World) d dl timeoutId rejecter :
  delays w !! d = Some dl -> d_canceller dl = DCArmed timeoutId rejecter ->
  d_rejectOnCancel dl = true -> promises w !! rejecter = Some Pending ->
  exists w', Delay_cancel d w = Some w' /\
    forall ops w'', run ops w' = Some w'' ->
      promises w'' !! rejecter = Some (Rejected "cancelled").
Proof.
  intros Hd Hc Hr Hp.
  destruct (Delay_cancel_armed w d dl timeoutId rejecter Hd Hc) as (w' & Hw' & _ & Hps & _).
  exists w'. split; [done|]. intros ops w'' Hrun.
  eapply (run_keeps_settled rejecter (Rejected "cancelled")); [done|exact Hrun|].
  unfold settled_as. rewrite Hps, Hr. unfold settle. rewrite Hp.
  apply list_lookup_insert_eq. by eapply lookup_lt_Some.
Qed.

(** A started Interval ignores [start]. *)
Lemma Interval_start_running (w : World) i iv :
  intervals w !! i = Some iv -> iv_isStarted iv = true -> Interval_start i w = Some w.
Proof. intros Hi Hs. unfold Interval_start. rewrite Hi. simpl. by rewrite Hs. Qed.

(** A started Until ignores [start]. *)
Lemma Until_start_running (w : World) u un :
  untils w !! u = Some un -> u_isStarted un = true -> Until_start u w = Some w.
Proof. intros Hu Hs. unfold Until_start. rewrite Hu. simpl. by rewrite Hs. Qed.

Lemma delays_not_started_handler h args w w' :
  run_handler h args w = Some w' -> delays_not_started w -> delays_not_started w'.
Proof.
  unfold delays_not_started. intros Hr Hf.
  destruct h; simpl in Hr; split_cases; rewrite ?Event_fire_eq; simpl; try done.
  by apply Forall_insert.
Qed.

Lemma delays_not_started_step o w w' :
  step o w = Some w' -> delays_not_started w -> delays_not_started w'.
Proof.
  intros Hs Hf. destruct o; simpl in Hs.
  { revert Hs Hf. apply update_keeps; try done. apply delays_not_started_handler. }
  all: unfold delays_not_started in *; unfold_methods; split_cases; simpl; try done.
  all: repeat match goal with
         | H : delays _ !! _ = Some _ |- _ =>
             pose proof (Forall_lookup_1 _ _ _ _ Hf H); clear H
         end.
  all: repeat first [apply Forall_insert | apply Forall_app_2 | apply Forall_cons_2
                     | apply Forall_nil_2]; simpl; try done.
  all: simpl in *;
    match goal with
    | H : <[_:=_]> _ !! _ = Some _ |- _ =>
        apply list_lookup_insert_Some in H as [(_ & <- & _)|[? _]]; done
    end.
Qed.

Lemma delays_not_started_reachable w : reachable w -> delays_not_started w.
Proof.
  intros (t & e & ops & Hr).
  assert (delays_not_started (World_new t e)) as H0 by apply Forall_nil_2.
  revert Hr H0. generalize (World_new t e). induction ops as [|o ops IH]; intros w0; simpl.
  - by intros [= <-].
  - destruct (step o w0) as [w1|] eqn:Ho; simpl; [|done].
    intros Hr H0. eapply IH; eauto using delays_not_started_step.
Qed.

(** Hence [Delay.start] never returns early: every call sets a timeout. *)
Lemma Delay_start_always_registers (w : World) d dl :
  reachable w -> delays w !! d = Some dl ->
  exists w' t, Delay_start d w = Some w' /\
    reg_timeouts w' = Map_set (_currentId (registry w)) t (reg_timeouts w) /\
    t_handler t = HDelayFire d /\
    _currentId (registry w') = next_id (registry w).
Proof.
  intros Hf%delays_not_started_reachable Hd.
  pose proof (Forall_lookup_1 _ _ _ _ Hf Hd) as Hs.
  unfold Delay_start. rewrite Hd. simpl. rewrite Hs.
  destruct (d_isInitialized dl); simpl; eexists _, _; split_and!; done.
Qed.

(** A Delay whose timeout closure ran starts again on a fresh promise. *)
Lemma Delay_start_after_fire (w w1 : World) d args :
  run_handler (HDelayFire d) args w = Some w1 ->
  exists w2 dl2, Delay_start d w1 = Some w2 /\ delays w2 !! d = Some dl2 /\
    d_promise dl2 = length (promises w1) /\
    promises w2 !! d_promise dl2 = Some Pending.
Proof.
  simpl. intros Hr. destruct (delays w !! d) as [dl|] eqn:Hd; simpl in Hr; [|done].
  injection Hr as <-. unfold Delay_start. simpl.
  rewrite list_lookup_insert_eq by (by eapply lookup_lt_Some). simpl.
  eexists _, _. split; [done|]. simpl.
  rewrite list_lookup_insert_eq
    by (rewrite length_insert; by eapply lookup_lt_Some).
  split; [done|]. simpl. split; [done|].
  by apply list_lookup_middle.
Qed.

(** C8.  An Until constructed with [autoStart = false] holds a promise
    that is fulfilled from the start, whatever its condition, and that
    stays fulfilled.  As long as [start()] was not called, [then] (or
    [catch], [finally]) returns and attaches the awaiter to this promise;
    [start()] then returns and puts a fresh pending promise in the place of
    the first, which is another promise; it leaves the awaiters where they
    are, on the promise that is fulfilled, so the earlier awaiters never
    depend on the condition. *)
Theorem C8_until_not_started_holds_a_fulfilled_promise condition (w : World) :
  exists u w1 p,
    Until_new condition false w = Some (u, w1) /\
    untils w1 !! u = Some (mkUntil p (Some condition) false) /\
    promises w1 !! p = Some Fulfilled /\
    (forall ops w2, run ops w1 = Some w2 -> promises w2 !! p = Some Fulfilled) /\
    (forall ops w2, run ops w1 = Some w2 -> UntilStart u ∉ ops ->
       (forall a, exists w3, Until_then u a w2 = Some w3 /\
          awaiters w3 = awaiters w2 ++ [(a, p)]) /\
       (exists w3 un, Until_start u w2 = Some w3 /\
          untils w3 !! u = Some un /\ u_isStarted un = true /\
          u_promise un <> p /\
          promises w3 !! u_promise un = Some Pending /\
          promises w3 !! p = Some Fulfilled /\
          awaiters w3 = awaiters w2 /\
          forall ops' w4, run ops' w3 = Some w4 -> promises w4 !! p = Some Fulfilled)).
Proof.
  exists (length (untils w)), (with_untils
            (untils w ++ [mkUntil (length (promises w)) (Some condition) false])
            (with_promises (promises w ++ [Fulfilled]) w)), (length (promises w)).
  assert (promises (with_untils
            (untils w ++ [mkUntil (length (promises w)) (Some condition) false])
            (with_promises (promises w ++ [Fulfilled]) w)) !! length (promises w)
          = Some Fulfilled) as Hp by (by apply list_lookup_middle).
  split_and!; try done.
  - by apply list_lookup_middle.
  - intros ops w2 Hr. by eapply (run_keeps_settled _ Fulfilled).
  - intros ops w2 Hr Hnin.
    assert (promises w2 !! length (promises w) = Some Fulfilled) as Hp2
      by (by eapply (run_keeps_settled _ Fulfilled)).
    destruct (run_keeps_idle (length (untils w)) (length (promises w)) ops _ _ Hr Hnin)
      as (un & Hun & Hup & Hst).
    { eexists. split; [by apply list_lookup_middle|done]. }
    split.
    + intros a. unfold Until_then. rewrite Hun. simpl. eexists. split; [done|].
      simpl. by rewrite Hup.
    + unfold Until_start. rewrite Hun. simpl. rewrite Hst. simpl.
      eexists _, _. split; [done|]. simpl. split.
      { apply list_lookup_insert_eq. by eapply lookup_lt_Some. }
      simpl. split_and!; try done.
      * apply lookup_lt_Some in Hp2. lia.
      * by apply list_lookup_middle.
      * by apply lookup_app_l_Some.
      * intros ops' w4 Hr'. eapply (run_keeps_settled _ Fulfilled); [done|exact Hr'|].
        unfold settled_as. simpl. by apply lookup_app_l_Some.
Qed.

(** C9.  After [start()] the Until is started in every later world,
    whatever is called and also once its condition held and its promise is
    fulfilled: nothing clears [_isStarted].  Every later [start()] returns
    at once and changes nothing, so the Until keeps the promise it has and
    cannot wait a second time.  (A Delay whose timeout ran starts again on a
    fresh promise: [Delay_start_after_fire].) *)
Theorem C9_until_started_stays_started u (w0 w1 : World) ops w2 :
  Until_start u w0 = Some w1 -> run ops w1 = Some w2 ->
  (exists un, untils w2 !! u = Some un /\ u_isStarted un = true) /\
  Until_start u w2 = Some w2.
Proof.
  intros Hs Hr.
  assert (until_started u w1) as H1.
  { unfold Until_start in Hs. destruct (untils w0 !! u) as [un|] eqn:Hun; simpl in Hs; [|done].
    destruct (u_isStarted un) eqn:Hst.
    - injection Hs as <-. by exists un.
    - simpl in Hs. injection Hs as <-. eexists. simpl.
      split; [apply list_lookup_insert_eq; by eapply lookup_lt_Some|done]. }
  destruct (run_keeps_started u ops _ _ Hr H1) as (un & Hun & Hst).
  split; [by exists un|]. by eapply Until_start_running.
Qed.

(** C10.  Take a Delay of a reachable world that is not running: [start]
    was never called on it, or the latest event of its life is the run of
    its timeout closure (it was fulfilled by its timer), or it is a call of
    [cancel].  Then [cancel()] does nothing, with [rejectOnCancel] true or
    false: registry, promises and objects are the same afterwards; the world
    only differs by the record of the call in the trace. *)
Theorem C10_cancel_of_a_delay_not_running_is_a_noop (w : World) d dl :
  reachable w -> delays w !! d = Some dl ->
  ODelayStart d ∉ trace w \/
  last_event d (trace w) = Some (ODelayFired d) \/
  last_event d (trace w) = Some (ODelayCancel d) ->
  exists w', Delay_cancel d w = Some w' /\
    w' = log (ODelayCancel d) w /\
    registry w' = registry w /\ promises w' = promises w /\ delays w' = delays w /\
    intervals w' = intervals w /\ untils w' = untils w /\ awaiters w' = awaiters w.
Proof.
  intros Hinv%reachable_canceller_inv Hd Hidle.
  assert (d_canceller dl = DCNoop) as Hc.
  { destruct (d_canceller dl) as [|id rej] eqn:Hc; [done|]. exfalso.
    assert (last_event d (trace w) = Some (ODelayStart d)) as Hl.
    { eapply Hinv; [done|]. by rewrite Hc. }
    destruct Hidle as [Hnin|[Hf|Hf]]; [|congruence..].
    apply Hnin. by eapply last_event_elem. }
  unfold Delay_cancel. rewrite Hd. simpl. rewrite Hc. by eexists.
Qed.

(** * Further properties *)

(** ** The identifiers of the registry *)

Lemma MAX_SAFE_INTEGER_eq : MAX_SAFE_INTEGER = 9007199254740991.
Proof. reflexivity. Qed.

Lemma MIN_SAFE_INTEGER_eq : MIN_SAFE_INTEGER = -9007199254740991.
Proof. reflexivity. Qed.

Lemma ID_PERIOD_eq : ID_PERIOD = 18014398509481982.
Proof. reflexivity. Qed.

Lemma next_id_mod r :
  id_in_range r ->
  next_id r = MIN_SAFE_INTEGER + (_currentId r - MIN_SAFE_INTEGER + 1) mod ID_PERIOD /\
  MIN_SAFE_INTEGER <= next_id r < MAX_SAFE_INTEGER.
Proof.
  unfold id_in_range, next_id, ID_PERIOD.
  rewrite MAX_SAFE_INTEGER_eq, MIN_SAFE_INTEGER_eq. intros Hr.
  destruct (Z.eqb_spec (_currentId r + 1) 9007199254740991) as [Heq|Hne].
  - replace (_currentId r - -9007199254740991 + 1) with (1 * (9007199254740991 - -9007199254740991))
      by lia.
    rewrite Z.mod_mul by lia. lia.
  - rewrite Z.mod_small by lia. lia.
Qed.

Lemma generate_ids_S n r :
  generate_ids (S n) r =
    (_currentId r :: (generate_ids n (_generateId r).2).1,
     (generate_ids n (_generateId r).2).2).
Proof. simpl. by destruct (generate_ids n _). Qed.

(** The identifiers of [n] calls in a row, in closed form. *)
Lemma generate_ids_closed n : forall r,
  id_in_range r ->
  (generate_ids n r).1 =
    (fun j : nat => MIN_SAFE_INTEGER
                    + (_currentId r - MIN_SAFE_INTEGER + Z.of_nat j) mod ID_PERIOD)
      <$> seq 0 n /\
  _currentId (generate_ids n r).2 =
    MIN_SAFE_INTEGER + (_currentId r - MIN_SAFE_INTEGER + Z.of_nat n) mod ID_PERIOD /\
  _intervals (generate_ids n r).2 = _intervals r /\
  _timeouts (generate_ids n r).2 = _timeouts r /\
  _lastTime (generate_ids n r).2 = _lastTime r.
Proof.
  assert (0 < ID_PERIOD) as HP by (rewrite ID_PERIOD_eq; lia).
  induction n as [|n IH]; intros r Hr.
  - simpl. split_and!; try done. rewrite Z.add_0_r, Z.mod_small; [lia|].
    unfold id_in_range, ID_PERIOD in *. lia.
  - rewrite generate_ids_S.
    destruct (next_id_mod r Hr) as [Hnext Hrange].
    assert (_currentId (_generateId r).2 = next_id r) as Hc1 by done.
    assert (_intervals (_generateId r).2 = _intervals r) as Hi1 by done.
    assert (_timeouts (_generateId r).2 = _timeouts r) as Ht1 by done.
    assert (_lastTime (_generateId r).2 = _lastTime r) as Hl1 by done.
    generalize dependent (_generateId r).2. intros r1 Hc1 Hi1 Ht1 Hl1.
    cbn [fst snd].
    destruct (IH r1) as (Hids & Hcur & Hi & Ht & Hl).
    { unfold id_in_range. by rewrite Hc1. }
    rewrite Hc1 in Hids, Hcur.
    assert (forall j : nat,
              (next_id r - MIN_SAFE_INTEGER + Z.of_nat j) mod ID_PERIOD
              = (_currentId r - MIN_SAFE_INTEGER + Z.of_nat (S j)) mod ID_PERIOD) as Hshift.
    { intros j. rewrite Hnext.
      replace (MIN_SAFE_INTEGER + (_currentId r - MIN_SAFE_INTEGER + 1) mod ID_PERIOD
               - MIN_SAFE_INTEGER + Z.of_nat j)
        with ((_currentId r - MIN_SAFE_INTEGER + 1) mod ID_PERIOD + Z.of_nat j) by lia.
      rewrite Zplus_mod_idemp_l. f_equal. lia. }
    split_and!.
    + rewrite Hids. simpl. f_equal.
      * rewrite Z.add_0_r, Z.mod_small; [lia|]. unfold id_in_range, ID_PERIOD in *. lia.
      * rewrite <- fmap_S_seq, <- list_fmap_compose. apply list_fmap_ext.
        intros _ j _. simpl. by rewrite Hshift.
    + by rewrite Hcur, Hshift.
    + by rewrite Hi.
    + by rewrite Ht.
    + by rewrite Hl.
Qed.

Lemma mod_shift_inj a j1 j2 :
  0 <= j1 < j2 -> j2 < ID_PERIOD ->
  (a + j1) mod ID_PERIOD <> (a + j2) mod ID_PERIOD.
Proof.
  intros Hj HP Heq.
  assert (((a + j2) - (a + j1)) mod ID_PERIOD = 0) as H0.
  { rewrite Zminus_mod, Heq, Z.sub_diag. apply Z.mod_0_l. lia. }
  replace (a + j2 - (a + j1)) with (j2 - j1) in H0 by lia.
  rewrite Z.mod_small in H0 by lia. lia.
Qed.

(** X1.  Starting from a registry whose [_currentId] is in range, up to
    18,014,398,509,481,982 calls of [_generateId] in a row return pairwise
    distinct identifiers, each a safe integer below [MAX_SAFE_INTEGER]; the
    call after that many returns the first identifier again. *)
Theorem X1_generated_ids_distinct_within_one_period (n : nat) r :
  id_in_range r -> Z.of_nat n <= ID_PERIOD ->
  NoDup (generate_ids n r).1 /\
  (forall id, id ∈ (generate_ids n r).1 -> MIN_SAFE_INTEGER <= id < MAX_SAFE_INTEGER) /\
  (Z.of_nat n = ID_PERIOD -> (generate_ids n r).2 = r).
Proof.
  intros Hr Hn. destruct (generate_ids_closed n r Hr) as (Hids & Hcur & Hi & Ht & Hl).
  assert (0 < ID_PERIOD) as HP by (rewrite ID_PERIOD_eq; lia).
  split_and!.
  - rewrite Hids. apply NoDup_fmap_2_strong; [|apply NoDup_seq].
    intros j1 j2 [_ H1]%elem_of_seq [_ H2]%elem_of_seq Heq.
    destruct (decide (j1 = j2)) as [|Hne]; [done|]. exfalso.
    destruct (decide (j1 < j2)%nat).
    + apply (mod_shift_inj (_currentId r - MIN_SAFE_INTEGER) (Z.of_nat j1) (Z.of_nat j2));
        lia.
    + apply (mod_shift_inj (_currentId r - MIN_SAFE_INTEGER) (Z.of_nat j2) (Z.of_nat j1));
        lia.
  - intros id. rewrite Hids. intros (j & -> & _)%list_elem_of_fmap.
    pose proof (Z.mod_pos_bound (_currentId r - MIN_SAFE_INTEGER + Z.of_nat j) ID_PERIOD HP).
    unfold ID_PERIOD in *. lia.
  - intros Heq. destruct (generate_ids n r).2 as [im tm c l] eqn:Hg. simpl in *.
    destruct r as [im0 tm0 c0 l0]. simpl in *. subst. f_equal.
    rewrite Heq.
    replace (c0 - MIN_SAFE_INTEGER + ID_PERIOD) with (c0 - MIN_SAFE_INTEGER + 1 * ID_PERIOD)
      by lia.
    rewrite Z.mod_add by lia. rewrite Z.mod_small; [lia|].
    unfold id_in_range, ID_PERIOD in *. simpl in Hr. lia.
Qed.

Lemma run_handler_currentId h args w w' :
  run_handler h args w = Some w' -> _currentId (registry w') = _currentId (registry w).
Proof.
  intros Hr. destruct h; simpl in Hr; split_cases; rewrite ?Event_fire_eq; done.
Qed.

Lemma update_currentId delta w w' :
  update delta w = Some w' -> _currentId (registry w') = _currentId (registry w).
Proof.
  intros Hu. symmetry.
  eapply (update_keeps (fun w1 => _currentId (registry w) = _currentId (registry w1)));
    [..|exact Hu|done]; try done.
  intros h args w1 w2 Hr ->. symmetry. by eapply run_handler_currentId.
Qed.

(** A call hands out at most one identifier. *)
Lemma step_currentId o w w' :
  step o w = Some w' ->
  _currentId (registry w') = _currentId (registry w) \/
  _currentId (registry w') = next_id (registry w).
Proof.
  intros Hs. destruct o; simpl in Hs; try (left; by eapply update_currentId);
    unfold_methods; split_cases; simpl; auto.
  all: right; unfold next_id;
    repeat match goal with H : (_ =? _) = _ |- _ => simpl in H; rewrite H; clear H end;
    done.
Qed.

Lemma id_in_range_step o w w' :
  step o w = Some w' -> id_in_range (registry w) -> id_in_range (registry w').
Proof.
  intros Hs Hr. unfold id_in_range.
  destruct (step_currentId o w w' Hs) as [->| ->]; [done|]. by apply next_id_mod.
Qed.

(** X2.  In every reachable world [_currentId] is a safe integer at least
    [MIN_SAFE_INTEGER] and below [MAX_SAFE_INTEGER]; so is every identifier
    [setInterval] and [setTimeout] return. *)
Theorem X2_identifiers_stay_in_the_safe_range (w : World) :
  reachable w ->
  id_in_range (registry w) /\
  (forall h interval args,
     MIN_SAFE_INTEGER <= (setInterval h interval args (registry w)).1 < MAX_SAFE_INTEGER) /\
  (forall h delay args,
     MIN_SAFE_INTEGER <= (setTimeout h delay args (registry w)).1 < MAX_SAFE_INTEGER).
Proof.
  intros (t & e & ops & Hr).
  assert (id_in_range (registry w)) as Hw.
  { assert (id_in_range (registry (World_new t e))) as H0.
    { unfold id_in_range. simpl. rewrite MAX_SAFE_INTEGER_eq, MIN_SAFE_INTEGER_eq. lia. }
    revert Hr H0. generalize (World_new t e).
    induction ops as [|o ops IH]; intros w0; simpl; [by intros [= <-]|].
    destruct (step o w0) as [w1|] eqn:Ho; simpl; [|done].
    intros Hr H0. eapply IH; eauto using id_in_range_step. }
  split_and!; [done|intros; by rewrite setInterval_eq|intros; by rewrite setTimeout_eq].
Qed.

(** ** Scheduling and clearing *)

Lemma Map_get_set_ne {V : Type} k k' (v : V) (m : EsMap V) :
  k' <> k -> Map_get k' (Map_set k v m) = Map_get k' m.
Proof.
  intros Hne. induction m as [|[[k0 v0]|] m IH]; simpl.
  - by destruct (Z.eqb_spec k k').
  - destruct (Z.eqb_spec k0 k) as [->|Hk]; simpl.
    + destruct (Z.eqb_spec k k'); [congruence|]. done.
    + destruct (Z.eqb_spec k0 k'); [done|]. exact IH.
  - exact IH.
Qed.

Lemma Map_get_delete_eq {V : Type} k (m : EsMap V) : Map_get k (Map_delete k m) = None.
Proof.
  induction m as [|[[k0 v0]|] m IH]; [done| |exact IH].
  change (Map_delete k (Some (k0, v0) :: m))
    with (Map_delete_entry k (Some (k0, v0)) :: Map_delete k m).
  simpl. destruct (Z.eqb_spec k0 k) as [->|Hne]; simpl; [exact IH|].
  destruct (Z.eqb_spec k0 k); [done|exact IH].
Qed.

Lemma Map_get_delete_ne {V : Type} k k' (m : EsMap V) :
  k' <> k -> Map_get k' (Map_delete k m) = Map_get k' m.
Proof.
  intros Hne. induction m as [|[[k0 v0]|] m IH]; [done| |exact IH].
  change (Map_delete k (Some (k0, v0) :: m))
    with (Map_delete_entry k (Some (k0, v0)) :: Map_delete k m).
  simpl. destruct (Z.eqb_spec k0 k) as [->|Hk]; simpl.
  - destruct (Z.eqb_spec k k'); [congruence|exact IH].
  - destruct (Z.eqb_spec k0 k'); [done|exact IH].
Qed.

(** Deleting a key that is not in the map leaves the map as it is. *)
Lemma Map_delete_absent {V : Type} k (m : EsMap V) :
  Map_get k m = None -> Map_delete k m = m.
Proof.
  induction m as [|[[k0 v0]|] m IH]; [done| |].
  - change (Map_delete k (Some (k0, v0) :: m))
      with (Map_delete_entry k (Some (k0, v0)) :: Map_delete k m).
    simpl. destruct (Z.eqb_spec k0 k); [done|]. intros H. by rewrite IH.
  - change (Map_delete k (None :: m)) with (None :: Map_delete k m).
    simpl. intros H. by rewrite IH.
Qed.

(** X3.  [setInterval] stores the new item under the identifier it returns
    and changes the item of no other identifier, nor any timeout;
    [clearInterval] of that identifier removes the item and again changes no
    other.  The same holds of [setTimeout] and [clearTimeout]. *)
Theorem X3_schedule_then_clear_touches_one_identifier h x args r k :
  let id := (setInterval h x args r).1 in
  let r1 := (setInterval h x args r).2 in
  let tid := (setTimeout h x args r).1 in
  let r2 := (setTimeout h x args r).2 in
  Map_get id (_intervals r1) = Some (mkInterval h args (clamp x) (now r + clamp x)) /\
  _timeouts r1 = _timeouts r /\ now r1 = now r /\
  Map_get id (_intervals (clearInterval id r1)) = None /\
  Map_get tid (_timeouts r2) = Some (mkTimeout h args (now r + clamp x)) /\
  _intervals r2 = _intervals r /\ now r2 = now r /\
  Map_get tid (_timeouts (clearTimeout tid r2)) = None /\
  (k <> id ->
     Map_get k (_intervals r1) = Map_get k (_intervals r) /\
     Map_get k (_intervals (clearInterval id r1)) = Map_get k (_intervals r)) /\
  (k <> tid ->
     Map_get k (_timeouts r2) = Map_get k (_timeouts r) /\
     Map_get k (_timeouts (clearTimeout tid r2)) = Map_get k (_timeouts r)).
Proof.
  rewrite setInterval_eq, setTimeout_eq. cbn [fst snd]. unfold now. simpl.
  split_and!; try done.
  - apply Map_get_set.
  - apply Map_get_delete_eq.
  - apply Map_get_set.
  - apply Map_get_delete_eq.
  - intros Hne. by rewrite Map_get_delete_ne, Map_get_set_ne.
  - intros Hne. by rewrite Map_get_delete_ne, Map_get_set_ne.
Qed.

(** X4.  Clearing an identifier under which nothing is pending (unknown, or
    cleared before) leaves the registry exactly as it is; so clearing twice
    is clearing once. *)
Theorem X4_clearing_an_unknown_identifier_changes_nothing id r :
  (Map_get id (_intervals r) = None -> clearInterval id r = r) /\
  (Map_get id (_timeouts r) = None -> clearTimeout id r = r) /\
  clearInterval id (clearInterval id r) = clearInterval id r /\
  clearTimeout id (clearTimeout id r) = clearTimeout id r.
Proof.
  assert (forall r, Map_get id (_intervals r) = None -> clearInterval id r = r) as Hi.
  { intros [im tm c l]. unfold clearInterval. simpl. intros H.
    by rewrite Map_delete_absent. }
  assert (forall r, Map_get id (_timeouts r) = None -> clearTimeout id r = r) as Ht.
  { intros [im tm c l]. unfold clearTimeout. simpl. intros H.
    by rewrite Map_delete_absent. }
  split_and!; [apply Hi|apply Ht| |].
  - apply Hi. apply Map_get_delete_eq.
  - apply Ht. apply Map_get_delete_eq.
Qed.

(** ** What [update] fires, and in which order *)

(** X5.  In a reachable world [update] first invokes the repeating items
    that are due, in the order of the map (insertion order), and only then
    the one-shot items that are due, in the order of the map. *)
Theorem X5_update_fires_intervals_before_timeouts (w : World) delta :
  reachable w ->
  exists w' new1 new2,
    update delta w = Some w' /\ trace w' = trace w ++ new1 ++ new2 /\
    fires KInterval new1 =
      due_ids i_allowedExecutionTime (now (registry w) + delta) (reg_intervals w) /\
    fires KTimeout new1 = [] /\
    fires KInterval new2 = [] /\
    fires KTimeout new2 =
      due_ids t_allowedExecutionTime (now (registry w) + delta) (reg_timeouts w).
Proof.
  intros [Hwf _]%reachable_Inv. unfold update, now.
  destruct (update_intervals_spec (length (reg_intervals w)) 0
              (_lastTime (registry w) + delta) w Hwf)
    as (w1 & Hrun1 & Hwf1 & Ht1 & _ & _ & _ & _ & _ & new1 & Htr1 & Hf1 & Hg1); [lia|].
  rewrite Hrun1. simpl.
  destruct (update_timeouts_spec (length (reg_timeouts w1)) 0
              (_lastTime (registry w) + delta) w1 Hwf1)
    as (w2 & Hrun2 & _ & _ & _ & _ & _ & _ & _ & new2 & Htr2 & Hf2 & Hg2); [lia|].
  rewrite Hrun2. simpl. eexists _, new1, new2. split; [done|]. simpl.
  rewrite Htr2, Htr1, <- app_assoc, Hg2, Ht1. done.
Qed.

(** X6.  In every reachable world no pending item is overdue: each
    repeating and each one-shot item is due at [now()] or later, and the
    period of a repeating item is not negative. *)
Theorem X6_no_pending_item_is_overdue (w : World) :
  reachable w ->
  (forall j id it, reg_intervals w !! j = Some (Some (id, it)) ->
     0 <= i_interval it /\ now (registry w) <= i_allowedExecutionTime it) /\
  (forall j id t, reg_timeouts w !! j = Some (Some (id, t)) ->
     now (registry w) <= t_allowedExecutionTime t).
Proof. intros [_ Hti]%reachable_Inv. split; apply Hti. Qed.

(** The entries [update] leaves were there before. *)
Lemma update_keys_sub delta w w' :
  wf w -> update delta w = Some w' ->
  (forall k, k ∈ Map_keys (reg_intervals w') -> k ∈ Map_keys (reg_intervals w)) /\
  (forall k, k ∈ Map_keys (reg_timeouts w') -> k ∈ Map_keys (reg_timeouts w)).
Proof.
  intros Hwf Hu.
  destruct (update_spec delta w Hwf) as (w'' & Hu' & _ & _ & _ & Hli & Hlt & Hi & Ht & _).
  rewrite Hu in Hu'. injection Hu' as <-. split.
  - intros k (j & it' & Hj)%Map_keys_elem.
    destruct (lookup_lt_is_Some_2 (reg_intervals w) j) as [e He].
    { rewrite <- Hli. by eapply lookup_lt_Some. }
    destruct (Hi _ _ He) as (e' & He' & Hpost). rewrite Hj in He'. injection He' as <-.
    destruct e as [[id0 it0]|]; simpl in Hpost; [|done].
    assert (k = id0) as ->.
    { destruct (_ <=? _); [destruct Hpost as [[= -> _]|[? _]]|injection Hpost as -> _];
        done. }
    by eapply Map_keys_lookup.
  - intros k (j & t' & Hj)%Map_keys_elem.
    destruct (lookup_lt_is_Some_2 (reg_timeouts w) j) as [e He].
    { rewrite <- Hlt. by eapply lookup_lt_Some. }
    destruct (Ht _ _ He) as (e' & He' & Hpost). rewrite Hj in He'. injection He' as <-.
    destruct e as [[id0 t0]|]; simpl in Hpost; [|done].
    assert (k = id0) as ->.
    { destruct (_ <=? _); [done|injection Hpost as -> _]; done. }
    by eapply Map_keys_lookup.
Qed.

Lemma due_ids_keys {V : Type} (allowed : V -> Z) cur (m : EsMap V) k :
  k ∈ due_ids allowed cur m -> k ∈ Map_keys m.
Proof. intros (j & v & Hj & _)%due_ids_elem. by eapply Map_keys_lookup. Qed.

Lemma Map_delete_keys {V : Type} k k' (m : EsMap V) :
  k' ∈ Map_keys (Map_delete k m) -> k' ∈ Map_keys m /\ k' <> k.
Proof.
  intros (j & v & [Hne Hj]%Map_delete_lookup)%Map_keys_elem.
  split; [by eapply Map_keys_lookup|done].
Qed.

(** Every call but [update] fires nothing, and removes entries unless it
    is one of the scheduling calls. *)
Lemma step_registry_shape (o : Op) w w' :
  step o w = Some w' -> (forall delta, o <> RegUpdate delta) ->
  (exists new, trace w' = trace w ++ new /\
     fires KInterval new = [] /\ fires KTimeout new = [] /\ forall i, ticks i new = []) /\
  (schedules_no_interval o ->
   forall k, k ∈ Map_keys (reg_intervals w') -> k ∈ Map_keys (reg_intervals w)) /\
  (schedules_no_timeout o ->
   forall k, k ∈ Map_keys (reg_timeouts w') -> k ∈ Map_keys (reg_timeouts w)).
Proof.
  intros Hs Hne.
  assert (forall tr : list Obs, exists new, tr = tr ++ new /\
            fires KInterval new = [] /\ fires KTimeout new = [] /\
            forall i, ticks i new = []) as Hnil.
  { intros tr. exists []. by rewrite app_nil_r. }
  assert (forall (tr : list Obs) d, exists new, tr ++ [ODelayStart d] = tr ++ new /\
            fires KInterval new = [] /\ fires KTimeout new = [] /\
            forall i, ticks i new = []) as Hstart.
  { intros tr d. by eexists. }
  assert (forall (tr : list Obs) d, exists new, tr ++ [ODelayCancel d] = tr ++ new /\
            fires KInterval new = [] /\ fires KTimeout new = [] /\
            forall i, ticks i new = []) as Hcancel.
  { intros tr d. by eexists. }
  destruct o; simpl in Hs; try (by destruct (Hne delta)); unfold_methods; split_cases;
    simpl; (split; [first [apply Hnil|apply Hstart|apply Hcancel]|]);
    (split; intros Hno k Hk; simpl in Hno; try done;
     repeat match goal with
       | H : _ ∈ Map_keys (Map_delete _ _) |- _ => apply Map_delete_keys in H as [H _]
       end; try done).
Qed.

(** A call that schedules nothing neither fires nor brings back an
    identifier that is not in the map. *)
Lemma step_absent (o : Op) w w' :
  wf w -> step o w = Some w' ->
  exists new, trace w' = trace w ++ new /\
    (schedules_no_interval o -> forall id, id ∉ Map_keys (reg_intervals w) ->
       (id ∉ Map_keys (reg_intervals w')) /\ id ∉ fires KInterval new) /\
    (schedules_no_timeout o -> forall id, id ∉ Map_keys (reg_timeouts w) ->
       (id ∉ Map_keys (reg_timeouts w')) /\ id ∉ fires KTimeout new).
Proof.
  intros Hwf Hs.
  assert ((exists delta, o = RegUpdate delta) \/ forall delta, o <> RegUpdate delta)
    as [[delta ->]|Hne] by (destruct o; eauto).
  - simpl in Hs. destruct (update_keys_sub _ _ _ Hwf Hs) as [Hki Hkt].
    destruct (update_spec delta w Hwf) as (w'' & Hu & _ & _ & _ & _ & _ & _ & _ & new & Htr & Hfi & Hft).
    rewrite Hs in Hu. injection Hu as <-. exists new. split; [done|].
    split; intros _ id Hid; (split; [by auto|]).
    + rewrite Hfi. by intros ?%due_ids_keys.
    + rewrite Hft. by intros ?%due_ids_keys.
  - destruct (step_registry_shape _ _ _ Hs Hne) as ((new & Htr & Hfi & Hft & _) & Hki & Hkt).
    exists new. split; [done|]. rewrite Hfi, Hft.
    split; intros Hno id Hid; (split; [by auto|by apply not_elem_of_nil]).
Qed.

Lemma run_absent_interval id ops : forall w w',
  Inv w -> run ops w = Some w' -> Forall schedules_no_interval ops ->
  id ∉ Map_keys (reg_intervals w) ->
  exists new, trace w' = trace w ++ new /\ id ∉ fires KInterval new.
Proof.
  induction ops as [|o ops IH]; intros w w' HI Hr Hall Hid; simpl in Hr.
  - injection Hr as <-. exists []. split; [by rewrite app_nil_r|by apply not_elem_of_nil].
  - destruct (step o w) as [w1|] eqn:Hs; [|done]. simpl in Hr.
    apply Forall_cons in Hall as [Ho Hall].
    destruct (step_absent _ _ _ (proj1 HI) Hs) as (new1 & Htr1 & Hi & _).
    destruct (Hi Ho id Hid) as [Hid1 Hf1].
    destruct (IH w1 w' (Inv_step _ _ _ Hs HI) Hr Hall Hid1) as (new2 & Htr2 & Hf2).
    exists (new1 ++ new2). split; [by rewrite Htr2, Htr1, app_assoc|].
    rewrite fires_app. by intros [?|?]%elem_of_app.
Qed.

Lemma run_absent_timeout id ops : forall w w',
  Inv w -> run ops w = Some w' -> Forall schedules_no_timeout ops ->
  id ∉ Map_keys (reg_timeouts w) ->
  exists new, trace w' = trace w ++ new /\ id ∉ fires KTimeout new.
Proof.
  induction ops as [|o ops IH]; intros w w' HI Hr Hall Hid; simpl in Hr.
  - injection Hr as <-. exists []. split; [by rewrite app_nil_r|by apply not_elem_of_nil].
  - destruct (step o w) as [w1|] eqn:Hs; [|done]. simpl in Hr.
    apply Forall_cons in Hall as [Ho Hall].
    destruct (step_absent _ _ _ (proj1 HI) Hs) as (new1 & Htr1 & _ & Ht).
    destruct (Ht Ho id Hid) as [Hid1 Hf1].
    destruct (IH w1 w' (Inv_step _ _ _ Hs HI) Hr Hall Hid1) as (new2 & Htr2 & Hf2).
    exists (new1 ++ new2). split; [by rewrite Htr2, Htr1, app_assoc|].
    rewrite fires_app. by intros [?|?]%elem_of_app.
Qed.

(** X7.  After [clearInterval(id)] no later call invokes the item [id], as
    long as no repeating item is scheduled anew ([setInterval] may hand the
    identifier out again); the same for [clearTimeout(id)] and one-shot
    items.  Neither [update] nor any method of Interval, Delay or Until
    brings a cleared item back. *)
Theorem X7_a_cleared_item_is_never_invoked (w : World) id :
  reachable w ->
  (forall ops w', Forall schedules_no_interval ops ->
     run (RegClearInterval id :: ops) w = Some w' ->
     exists new, trace w' = trace w ++ new /\ id ∉ fires KInterval new) /\
  (forall ops w', Forall schedules_no_timeout ops ->
     run (RegClearTimeout id :: ops) w = Some w' ->
     exists new, trace w' = trace w ++ new /\ id ∉ fires KTimeout new).
Proof.
  intros HI%reachable_Inv. split; intros ops w' Hall Hr; simpl in Hr.
  - eapply (run_absent_interval id) in Hr as (new & Htr & Hf); [by exists new|..|done|].
    + by apply (Inv_step (RegClearInterval id) w).
    + simpl. by intros [_ ?]%Map_delete_keys.
  - eapply (run_absent_timeout id) in Hr as (new & Htr & Hf); [by exists new|..|done|].
    + by apply (Inv_step (RegClearTimeout id) w).
    + simpl. by intros [_ ?]%Map_delete_keys.
Qed.

(** The one-shot items [update] fired are gone from the map. *)
Lemma update_timeout_gone delta w w' j id t :
  wf w -> update delta w = Some w' ->
  reg_timeouts w !! j = Some (Some (id, t)) ->
  t_allowedExecutionTime t <= _lastTime (registry w) + delta ->
  id ∉ Map_keys (reg_timeouts w').
Proof.
  intros Hwf Hu Hj Hle.
  destruct (update_spec delta w Hwf) as (w'' & Hu' & _ & _ & _ & _ & Hlt & _ & Ht & _).
  rewrite Hu in Hu'. injection Hu' as <-.
  intros (j' & t' & Hj')%Map_keys_elem.
  destruct (lookup_lt_is_Some_2 (reg_timeouts w) j') as [e He].
  { rewrite <- Hlt. by eapply lookup_lt_Some. }
  destruct (Ht _ _ He) as (e'' & He'' & Hpost'). rewrite Hj' in He''.
  injection He'' as <-. destruct e as [[id0 t0]|]; simpl in Hpost'; [|done].
  destruct (Z.leb_spec (t_allowedExecutionTime t0) (_lastTime (registry w) + delta));
    [done|].
  injection Hpost' as -> ->.
  assert (j' = j) as ->
    by (apply (Map_keys_NoDup_lookup (reg_timeouts w) j' j id0 t0 t); [apply Hwf|done..]).
  rewrite Hj in He. injection He as ->. lia.
Qed.

(** X8.  A one-shot item runs once: when [update] finds it due it invokes
    it exactly once, and no later call invokes it again, as long as no
    one-shot item is scheduled anew. *)
Theorem X8_a_one_shot_item_runs_exactly_once (w : World) delta ops w' j id t :
  reachable w ->
  reg_timeouts w !! j = Some (Some (id, t)) ->
  t_allowedExecutionTime t <= now (registry w) + delta ->
  Forall schedules_no_timeout ops ->
  run (RegUpdate delta :: ops) w = Some w' ->
  exists new, trace w' = trace w ++ new /\
    count_occ Z.eq_dec (fires KTimeout new) id = 1%nat.
Proof.
  unfold now. intros HI%reachable_Inv Hj Hle Hall Hr. simpl in Hr.
  destruct (update delta w) as [w1|] eqn:Hu; [|done]. simpl in Hr.
  pose proof (update_timeout_gone _ _ _ _ _ _ (proj1 HI) Hu Hj Hle) as Hgone.
  destruct (update_spec delta w (proj1 HI)) as (w'' & Hu' & _ & _ & _ & _ & _ & _ & _ & new1 & Htr1 & _ & Hft).
  rewrite Hu in Hu'. injection Hu' as <-.
  destruct (run_absent_timeout id ops w1 w' (Inv_update _ _ _ Hu HI) Hr Hall Hgone)
    as (new2 & Htr2 & Hf2).
  exists (new1 ++ new2). split; [by rewrite Htr2, Htr1, app_assoc|].
  rewrite fires_app, count_occ_app, Hft, (due_ids_count _ _ _ j id t) by (done || apply HI).
  destruct (Z.leb_spec (t_allowedExecutionTime t) (_lastTime (registry w) + delta)); [|lia].
  rewrite (proj1 (count_occ_not_In Z.eq_dec _ id)); [done|].
  by rewrite <- list_elem_of_In.
Qed.

(** ** The records of a run of [update] *)

Lemma run_handler_obs h args w w1 :
  run_handler h args w = Some w1 ->
  trace w1 = trace w ++ handler_obs w h args /\ intervals w1 = intervals w.
Proof.
  intros Hr. destruct h; simpl in Hr; split_cases; simpl; rewrite ?app_nil_r;
    try done.
  rewrite Event_fire_eq. simpl. rewrite E. by rewrite <- app_assoc.
Qed.

Lemma handler_obs_ext w w1 h args :
  intervals w1 = intervals w -> _lastTime (registry w1) = _lastTime (registry w) ->
  handler_obs w1 h args = handler_obs w h args.
Proof. intros Hi Hl. destruct h; simpl; try done. unfold now. by rewrite Hi, Hl. Qed.

Lemma interval_obs_ext w w1 cur :
  intervals w1 = intervals w -> _lastTime (registry w1) = _lastTime (registry w) ->
  forall m, flat_map (interval_obs w1 cur) m = flat_map (interval_obs w cur) m.
Proof.
  intros Hi Hl m. apply flat_map_ext. intros [[id it]|]; simpl; [|done].
  by rewrite (handler_obs_ext w w1).
Qed.

Lemma timeout_obs_ext w w1 cur :
  intervals w1 = intervals w -> _lastTime (registry w1) = _lastTime (registry w) ->
  forall m, flat_map (timeout_obs w1 cur) m = flat_map (timeout_obs w cur) m.
Proof.
  intros Hi Hl m. apply flat_map_ext. intros [[id it]|]; simpl; [|done].
  by rewrite (handler_obs_ext w w1).
Qed.

Lemma update_intervals_obs fuel : forall i cur w w',
  wf w -> update_intervals fuel i cur w = Some w' ->
  intervals w' = intervals w /\
  trace w' = trace w ++ flat_map (interval_obs w cur) (drop i (reg_intervals w)).
Proof.
  induction fuel as [|fuel IH]; intros i cur w w' Hwf; rewrite update_intervals_unfold.
  - destruct (reg_intervals w !! i) eqn:Hi; [done|]. intros [= <-].
    apply lookup_ge_None in Hi. rewrite drop_ge by lia. simpl. by rewrite app_nil_r.
  - destruct (reg_intervals w !! i) as [[[id it]|]|] eqn:Hi.
    + erewrite (drop_S _ _ i) by done. simpl.
      destruct (i_allowedExecutionTime it <=? cur) eqn:Hdue.
      * destruct (fire_interval_entry w i id it cur Hwf Hi) as (w1 & Hrun & Hw2).
        rewrite Hrun. simpl. set (w2 := with_intervals_map _ w1) in *.
        destruct Hw2 as (Hwf2 & _ & _ & Hl2 & Hlen2 & Hoth & _).
        apply run_handler_obs in Hrun as [Htr1 Hi1]. simpl in Htr1, Hi1.
        intros [Hi' Htr']%IH; [|done]. split; [by rewrite Hi'|].
        rewrite Htr'. simpl. rewrite Htr1, <- !app_assoc. simpl. do 3 f_equal.
        rewrite (interval_obs_ext w w2) by done. f_equal. by apply drop_agree.
      * by apply IH.
    + erewrite (drop_S _ _ i) by done. simpl. by apply IH.
    + intros [= <-]. apply lookup_ge_None in Hi. rewrite drop_ge by lia. simpl.
      by rewrite app_nil_r.
Qed.

Lemma update_timeouts_obs fuel : forall i cur w w',
  wf w -> update_timeouts fuel i cur w = Some w' ->
  intervals w' = intervals w /\
  trace w' = trace w ++ flat_map (timeout_obs w cur) (drop i (reg_timeouts w)).
Proof.
  induction fuel as [|fuel IH]; intros i cur w w' Hwf; rewrite update_timeouts_unfold.
  - destruct (reg_timeouts w !! i) eqn:Hi; [done|]. intros [= <-].
    apply lookup_ge_None in Hi. rewrite drop_ge by lia. simpl. by rewrite app_nil_r.
  - destruct (reg_timeouts w !! i) as [[[id t]|]|] eqn:Hi.
    + erewrite (drop_S _ _ i) by done. simpl.
      destruct (t_allowedExecutionTime t <=? cur) eqn:Hdue.
      * destruct (fire_timeout_entry w i id t Hwf Hi) as (w1 & Hrun & Hw2).
        rewrite Hrun. simpl. set (w2 := with_registry _ w1) in *.
        destruct Hw2 as (Hwf2 & _ & _ & Hl2 & Hlen2 & Hoth & _).
        apply run_handler_obs in Hrun as [Htr1 Hi1]. simpl in Htr1, Hi1.
        intros [Hi' Htr']%IH; [|done]. split; [by rewrite Hi'|].
        rewrite Htr'. simpl. rewrite Htr1, <- !app_assoc. simpl. do 3 f_equal.
        rewrite (timeout_obs_ext w w2) by done. f_equal. by apply drop_agree.
      * by apply IH.
    + erewrite (drop_S _ _ i) by done. simpl. by apply IH.
    + intros [= <-]. apply lookup_ge_None in Hi. rewrite drop_ge by lia. simpl.
      by rewrite app_nil_r.
Qed.

Lemma update_obs delta w w' :
  wf w -> update delta w = Some w' ->
  intervals w' = intervals w /\
  trace w' = trace w
    ++ flat_map (interval_obs w (now (registry w) + delta)) (reg_intervals w)
    ++ flat_map (timeout_obs w (now (registry w) + delta)) (reg_timeouts w).
Proof.
  unfold update, now. intros Hwf Hu.
  destruct (update_intervals_spec (length (reg_intervals w)) 0
              (_lastTime (registry w) + delta) w Hwf)
    as (w1 & Hrun1 & Hwf1 & Ht1 & _ & Hl1 & _); [lia|].
  rewrite Hrun1 in Hu. simpl in Hu.
  destruct (update_timeouts _ _ _ w1) as [w2|] eqn:Hrun2; simpl in Hu; [|done].
  injection Hu as <-. simpl.
  apply update_intervals_obs in Hrun1 as [Hi1 Htr1]; [|done].
  apply update_timeouts_obs in Hrun2 as [Hi2 Htr2]; [|done].
  split; [congruence|]. rewrite Htr2, Htr1, <- app_assoc, !drop_0, Ht1.
  by rewrite (timeout_obs_ext w w1).
Qed.

(** X9.  The records of a run of [update] in a reachable world, in full:
    the entries of [_intervals] that are due, in the order of the map, each
    with the records of its handler, then those of [_timeouts].  Handlers
    run while the loops mutate the maps, yet the outcome is a function of
    the two maps as they were at the call; a tick carries the time the
    registry had before the call. *)
Theorem X9_update_records_follow_the_maps_at_the_call (w : World) delta :
  reachable w ->
  exists w', update delta w = Some w' /\
    trace w' = trace w
      ++ flat_map (interval_obs w (now (registry w) + delta)) (reg_intervals w)
      ++ flat_map (timeout_obs w (now (registry w) + delta)) (reg_timeouts w).
Proof.
  intros [Hwf _]%reachable_Inv.
  destruct (update_spec delta w Hwf) as (w' & Hu & _).
  exists w'. split; [done|]. by apply update_obs.
Qed.

(** ** Intervals *)

(** The link of the Intervals to the registry is kept when the Intervals
    stay as they are and no tick closure is added to [_intervals]. *)
Lemma linked_frame w w' :
  intervals w' = intervals w ->
  (forall j id it i, reg_intervals w' !! j = Some (Some (id, it)) -> i_handler it = HTick i ->
     exists j' it', reg_intervals w !! j' = Some (Some (id, it')) /\
       i_handler it' = HTick i /\ i_interval it' = i_interval it) ->
  intervals_linked w -> intervals_linked w'.
Proof.
  intros Hi Hm [Ho He]. split; rewrite Hi; [done|].
  intros j id it i Hj Hh. destruct (Hm _ _ _ _ Hj Hh) as (j' & it' & Hj' & Hh' & <-).
  by eapply He.
Qed.

Lemma linked_update delta w w' :
  wf w -> update delta w = Some w' -> intervals_linked w -> intervals_linked w'.
Proof.
  intros Hwf Hu. destruct (update_obs _ _ _ Hwf Hu) as [Hi _].
  destruct (update_spec delta w Hwf) as (w'' & Hu' & _ & _ & _ & Hli & _ & Hpost & _).
  rewrite Hu in Hu'. injection Hu' as <-.
  apply linked_frame; [done|]. intros j id it i Hj Hh.
  destruct (lookup_lt_is_Some_2 (reg_intervals w) j) as [e He].
  { rewrite <- Hli. by eapply lookup_lt_Some. }
  destruct (Hpost _ _ He) as (e' & He' & Hp). rewrite Hj in He'. injection He' as <-.
  destruct e as [[id0 it0]|]; simpl in Hp; [|done].
  destruct (_ <=? _); [destruct Hp as [[= -> ->]|[? _]]; [|done]|injection Hp as -> ->];
    by exists j, it0.
Qed.

(** No tick closure of an Interval that is not started is in the map. *)
Lemma stopped_no_entry i w j id it :
  intervals_linked w -> interval_stopped i w ->
  reg_intervals w !! j = Some (Some (id, it)) -> i_handler it <> HTick i.
Proof.
  intros [Ho He] (iv & Hiv & Hst) Hj Hh.
  destruct (He _ _ _ _ Hj Hh) as (iv' & Hiv' & Hc & _).
  rewrite Hiv in Hiv'. injection Hiv' as <-.
  destruct (Ho _ _ Hiv) as [_ Hn]. rewrite Hn in Hc by done. done.
Qed.

Lemma linked_Interval_start i w w' :
  Interval_start i w = Some w' -> intervals_linked w -> intervals_linked w'.
Proof.
  unfold Interval_start. intros Hs Hl.
  destruct (intervals w !! i) as [iv|] eqn:Hiv; simpl in Hs; [|done].
  destruct (iv_isStarted iv) eqn:Hst; [by injection Hs as <-|].
  injection Hs as <-.
  pose proof Hl as [Ho He]. destruct (Ho _ _ Hiv) as [H0 _]. split; simpl.
  - intros i' iv'. destruct (decide (i' = i)) as [->|Hne].
    + rewrite list_lookup_insert_eq by (by eapply lookup_lt_Some). by intros [= <-].
    + rewrite list_lookup_insert_ne by done. apply Ho.
  - intros j id it i' [[-> ->]|Hj]%Map_set_lookup Hh.
    + simpl in Hh. injection Hh as <-. eexists. split_and!.
      * apply list_lookup_insert_eq. by eapply lookup_lt_Some.
      * done.
      * simpl. destruct (Z.eqb_spec (iv_interval iv) 0); lia.
    + destruct (decide (i' = i)) as [->|Hne].
      * exfalso. eapply (stopped_no_entry i w); [done|by exists iv|done..].
      * rewrite list_lookup_insert_ne by done. by eapply He.
Qed.

Lemma linked_Interval_cancel i w w' :
  Interval_cancel i w = Some w' -> intervals_linked w ->
  intervals_linked w' /\ interval_stopped i w'.
Proof.
  unfold Interval_cancel. intros Hs [Ho He].
  destruct (intervals w !! i) as [iv|] eqn:Hiv; simpl in Hs; [|done].
  injection Hs as <-. destruct (Ho _ _ Hiv) as [H0 _]. split; [split|]; simpl.
  - intros i' iv'. destruct (decide (i' = i)) as [->|Hne].
    + rewrite list_lookup_insert_eq by (by eapply lookup_lt_Some). by intros [= <-].
    + rewrite list_lookup_insert_ne by done. apply Ho.
  - intros j id it i' Hj Hh.
    assert (reg_intervals w !! j = Some (Some (id, it)) /\
            (forall k, iv_canceller iv = ICClear k -> id <> k)) as [Hj' Hk].
    { destruct (iv_canceller iv); [by split|].
      apply Map_delete_lookup in Hj as [? ?]. split; [done|]. by intros k [= <-]. }
    destruct (He _ _ _ _ Hj' Hh) as (iv' & Hiv' & Hc & Hp).
    destruct (decide (i' = i)) as [->|Hne].
    + rewrite Hiv in Hiv'. injection Hiv' as <-. by destruct (Hk _ Hc).
    + rewrite list_lookup_insert_ne by done. by exists iv'.
  - eexists. split; [apply list_lookup_insert_eq; by eapply lookup_lt_Some|done].
Qed.

Lemma linked_Interval_new interval autoStart w r :
  Interval_new interval autoStart w = Some r -> intervals_linked w ->
  intervals_linked r.2.
Proof.
  unfold Interval_new. intros Hs Hl.
  assert (intervals_linked
            (with_intervals
               (intervals w ++ [mkIntervalObj [] (Z.max 0 interval) false ICNoop]) w)) as Hl1.
  { destruct Hl as [Ho He]. split; simpl.
    - intros i iv [[_ Hi]|[_ <-]]%lookup_snoc_Some; [by eapply Ho|]. simpl.
      split; [lia|done].
    - intros j id it i Hj Hh. destruct (He _ _ _ _ Hj Hh) as (iv & Hiv & ?).
      exists iv. split; [by apply lookup_app_l_Some|done]. }
  destruct autoStart; simpl in Hs.
  - destruct (Interval_start _ _) as [w2|] eqn:Hst; simpl in Hs; [|done].
    injection Hs as <-. simpl. by eapply linked_Interval_start.
  - by injection Hs as <-.
Qed.

Lemma linked_Interval_reset i interval w w' :
  Interval_reset i interval w = Some w' -> intervals_linked w ->
  intervals_linked w' /\ interval_stopped i w'.
Proof.
  unfold Interval_reset. intros Hs Hl.
  destruct (Interval_cancel i w) as [w1|] eqn:Hc; simpl in Hs; [|done].
  destruct (linked_Interval_cancel _ _ _ Hc Hl) as [Hl1 Hst1].
  pose proof Hst1 as (iv & Hiv & Hst). rewrite Hiv in Hs. simpl in Hs.
  injection Hs as <-. pose proof Hl1 as [Ho He]. destruct (Ho _ _ Hiv) as [_ Hn].
  split; [split|]; simpl.
  - intros i' iv'. destruct (decide (i' = i)) as [->|Hne].
    + rewrite list_lookup_insert_eq by (by eapply lookup_lt_Some). intros [= <-].
      simpl. split; [lia|done].
    + rewrite list_lookup_insert_ne by done. apply Ho.
  - intros j id it i' Hj Hh. destruct (decide (i' = i)) as [->|Hne].
    + exfalso. by eapply (stopped_no_entry i w1).
    + rewrite list_lookup_insert_ne by done. by eapply He.
  - eexists. split; [apply list_lookup_insert_eq; by eapply lookup_lt_Some|done].
Qed.

Lemma linked_step (o : Op) w w' :
  wf w -> step o w = Some w' -> intervals_linked w -> intervals_linked w'.
Proof.
  intros Hwf Hs Hl. destruct o; simpl in Hs;
    try (by eapply linked_update);
    try (by eapply linked_Interval_start);
    try (by eapply linked_Interval_cancel);
    try (by eapply linked_Interval_reset).
  all: try (destruct (Interval_new _ _ _) as [r|] eqn:Hn; simpl in Hs; [|done];
            injection Hs as <-; by eapply linked_Interval_new).
  all: try (destruct Hl as [Ho He]; unfold_methods; split_cases; split; simpl;
            [ intros i' iv';
              try (destruct (decide (i' = i)) as [->|Hne];
                   [ rewrite list_lookup_insert_eq by (by eapply lookup_lt_Some);
                     intros [= <-]; simpl; by eapply Ho
                   | rewrite list_lookup_insert_ne by done; by apply Ho ])
            | intros j' id' it' i' Hj Hh;
              try (destruct (decide (i' = i)) as [->|Hne];
                   [ rewrite list_lookup_insert_eq by (by eapply lookup_lt_Some);
                     destruct (He _ _ _ _ Hj Hh) as (iv' & Hiv' & ? & ?);
                     eexists; split; [done|]; simpl; split; congruence
                   | rewrite list_lookup_insert_ne by done; by eapply He ]) ];
            fail).
  all: apply (linked_frame w); [unfold_methods; split_cases; done| |done].
  all: intros j' id' it' i' Hj Hh; unfold_methods; split_cases; simpl in Hj;
    repeat match goal with
      | H : Map_set _ _ _ !! _ = Some (Some _) |- _ =>
          apply Map_set_lookup in H as [[-> ->]|H]; [by simpl in Hh|]
      | H : Map_delete _ _ !! _ = Some (Some _) |- _ =>
          apply Map_delete_lookup in H as [_ H]
      end; by exists j', it'.
Qed.

Lemma linked_run ops : forall w w',
  Inv w -> run ops w = Some w' -> intervals_linked w -> intervals_linked w'.
Proof.
  induction ops as [|o ops IH]; intros w w' HI Hr Hl; simpl in Hr.
  - by injection Hr as <-.
  - destruct (step o w) as [w1|] eqn:Hs; [|done]. simpl in Hr.
    eapply (IH w1); [by eapply Inv_step|done|]. eapply linked_step; [apply HI|done..].
Qed.

Lemma reachable_linked w : reachable w -> intervals_linked w.
Proof.
  intros (startTime & e & ops & Hr). eapply linked_run; [apply Inv_new|exact Hr|].
  split; simpl; intros *; by rewrite ?lookup_nil.
Qed.

Lemma ticks_app i (a b : list Obs) : ticks i (a ++ b) = ticks i a ++ ticks i b.
Proof. apply omap_app. Qed.

Lemma ticks_listeners i t (ls : list nat) : ticks i ((fun l => OListener l t) <$> ls) = [].
Proof. induction ls as [|l ls IH]; [done|]. simpl. exact IH. Qed.

Lemma ticks_handler_other i w h args :
  h <> HTick i -> ticks i (handler_obs w h args) = [].
Proof.
  intros Hne. destruct h as [tag|k|d|u id p]; simpl; try done.
  destruct (intervals w !! k); [|done]. simpl.
  destruct (Nat.eqb_spec k i) as [->|_]; [done|]. apply ticks_listeners.
Qed.

Lemma ticks_handler_tick i w iv args :
  intervals w !! i = Some iv ->
  handler_obs w (HTick i) args =
    OTick i (now (registry w)) :: ((fun l => OListener l (now (registry w))) <$> iv_listeners iv) /\
  ticks i (handler_obs w (HTick i) args) = [now (registry w)].
Proof.
  intros Hiv. simpl. rewrite Hiv. split; [done|]. simpl.
  by rewrite Nat_eqb_self, ticks_listeners.
Qed.

Lemma ticks_intervals_none i w cur (m : EsMap IntervalHandler) :
  (forall j id it, m !! j = Some (Some (id, it)) -> i_handler it <> HTick i) ->
  ticks i (flat_map (interval_obs w cur) m) = [].
Proof.
  induction m as [|e m IH]; intros Hm; [done|]. simpl. rewrite ticks_app, IH.
  - rewrite app_nil_r. destruct e as [[id it]|]; simpl; [|done].
    destruct (_ <=? _); [|done]. simpl. apply ticks_handler_other. by apply (Hm 0%nat id).
  - intros j. apply (Hm (S j)).
Qed.

Lemma ticks_timeouts_none i w cur (m : EsMap TimeoutHandler) :
  (forall j id t, m !! j = Some (Some (id, t)) -> t_handler t <> HTick i) ->
  ticks i (flat_map (timeout_obs w cur) m) = [].
Proof.
  induction m as [|e m IH]; intros Hm; [done|]. simpl. rewrite ticks_app, IH.
  - rewrite app_nil_r. destruct e as [[id it]|]; simpl; [|done].
    destruct (_ <=? _); [|done]. simpl. apply ticks_handler_other. by apply (Hm 0%nat id).
  - intros j. apply (Hm (S j)).
Qed.

(** No tick closure is in [_timeouts]. *)
Lemma wf_timeouts_no_tick i w j id t :
  wf w -> reg_timeouts w !! j = Some (Some (id, t)) -> t_handler t <> HTick i.
Proof. intros Hwf Hj Hh. pose proof (wf_th w Hwf _ _ _ Hj) as Hok. by rewrite Hh in Hok. Qed.

Lemma stopped_lookup_insert (l : list Interval) i i' iv' :
  (exists iv, l !! i = Some iv /\ iv_isStarted iv = false) ->
  (i' = i -> iv_isStarted iv' = false) ->
  exists iv, <[i' := iv']> l !! i = Some iv /\ iv_isStarted iv = false.
Proof.
  intros (iv & Hiv & Hst) Himp. destruct (decide (i' = i)) as [->|Hne].
  - exists iv'. split; [apply list_lookup_insert_eq; by eapply lookup_lt_Some|auto].
  - exists iv. by rewrite list_lookup_insert_ne.
Qed.

Lemma stopped_lookup_app (l : list Interval) i x :
  (exists iv, l !! i = Some iv /\ iv_isStarted iv = false) ->
  exists iv, (l ++ [x]) !! i = Some iv /\ iv_isStarted iv = false.
Proof. intros (iv & Hiv & Hst). exists iv. split; [by apply lookup_app_l_Some|done]. Qed.

Lemma step_keeps_stopped i (o : Op) w w' :
  step o w = Some w' -> o <> IntervalStart i -> (forall delta, o <> RegUpdate delta) ->
  interval_stopped i w -> interval_stopped i w'.
Proof.
  intros Hs Hne Hnu Hst. destruct o; try (by destruct (Hnu delta)); simpl in Hs.
  all: unfold_methods; split_cases; try done; unfold interval_stopped in *; simpl.
  all: repeat match goal with
         | H : intervals (with_intervals (<[_ := _]> _) _) !! _ = Some _ |- _ =>
             simpl in H;
             rewrite list_lookup_insert_eq in H by (by eapply lookup_lt_Some);
             injection H as <-
         end.
  all: repeat first
         [ apply stopped_lookup_insert;
           [|simpl; try done; intros Heq; destruct Hst as (iv & Hiv & Hst);
             first [ congruence | apply lookup_lt_Some in Hiv; lia ]]
         | apply stopped_lookup_app ].
  all: done.
Qed.

(** An Interval that is not started stays so, and does not tick, in every
    call but its own [start]. *)
Lemma step_stopped i (o : Op) w w' :
  wf w -> intervals_linked w -> interval_stopped i w -> o <> IntervalStart i ->
  step o w = Some w' ->
  interval_stopped i w' /\ exists new, trace w' = trace w ++ new /\ ticks i new = [].
Proof.
  intros Hwf Hl Hst Hne Hs.
  assert ((exists delta, o = RegUpdate delta) \/ forall delta, o <> RegUpdate delta)
    as [[delta ->]|Hnu] by (destruct o; eauto).
  - simpl in Hs. destruct (update_obs _ _ _ Hwf Hs) as [Hi Htr]. split.
    + unfold interval_stopped. by rewrite Hi.
    + eexists. split; [exact Htr|]. rewrite ticks_app, ticks_intervals_none, ticks_timeouts_none.
      * done.
      * intros j id t. by apply wf_timeouts_no_tick.
      * intros j id it. by apply stopped_no_entry.
  - destruct (step_registry_shape _ _ _ Hs Hnu) as [(new & Htr & _ & _ & Hti) _].
    split; [by eapply step_keeps_stopped|by exists new].
Qed.

(** X10.  An Interval that is not started does not tick: from a reachable
    world in which [_isStarted] is false (the Interval was constructed with
    [autoStart = false], cancelled or reset), no call produces a tick of
    it until its [start()] is called, whatever the other Intervals, Delays,
    Untils and callers of the registry do; and [cancel()] and [reset()]
    leave the Interval in this state. *)
Theorem X10_an_interval_not_started_does_not_tick (w : World) i :
  reachable w ->
  (forall ops w', interval_stopped i w -> IntervalStart i ∉ ops ->
     run ops w = Some w' ->
     interval_stopped i w' /\ exists new, trace w' = trace w ++ new /\ ticks i new = []) /\
  (forall w', Interval_cancel i w = Some w' -> interval_stopped i w') /\
  (forall interval w', Interval_reset i interval w = Some w' -> interval_stopped i w').
Proof.
  intros Hreach. pose proof (reachable_Inv _ Hreach) as HI.
  pose proof (reachable_linked _ Hreach) as Hl. clear Hreach. split_and!.
  - intros ops. revert w HI Hl.
    induction ops as [|o ops IH]; intros w HI Hl w' Hst Hnin Hr; simpl in Hr.
    + injection Hr as <-. split; [done|]. exists []. by rewrite app_nil_r.
    + destruct (step o w) as [w1|] eqn:Hs; [|done]. simpl in Hr.
      apply not_elem_of_cons in Hnin as [Hne Hnin].
      destruct (step_stopped i o w w1 (proj1 HI) Hl Hst) as (Hst1 & new1 & Htr1 & Hti1);
        [done..|].
      destruct (IH w1 (Inv_step _ _ _ Hs HI) (linked_step _ _ _ (proj1 HI) Hs Hl) w'
                  Hst1 Hnin Hr) as (Hst' & new2 & Htr2 & Hti2).
      split; [done|]. exists (new1 ++ new2).
      split; [by rewrite Htr2, Htr1, app_assoc|]. by rewrite ticks_app, Hti1, Hti2.
  - intros w' Hc. by eapply linked_Interval_cancel.
  - intros interval w' Hc. by eapply linked_Interval_reset.
Qed.

(** An Interval has at most one tick closure in [_intervals]. *)
Lemma tick_entry_unique i w j1 j2 id1 id2 it1 it2 :
  wf w -> intervals_linked w ->
  reg_intervals w !! j1 = Some (Some (id1, it1)) -> i_handler it1 = HTick i ->
  reg_intervals w !! j2 = Some (Some (id2, it2)) -> i_handler it2 = HTick i ->
  j1 = j2.
Proof.
  intros Hwf [_ He] Hj1 Hh1 Hj2 Hh2.
  destruct (He _ _ _ _ Hj1 Hh1) as (iv1 & Hiv1 & Hc1 & _).
  destruct (He _ _ _ _ Hj2 Hh2) as (iv2 & Hiv2 & Hc2 & _).
  rewrite Hiv1 in Hiv2. injection Hiv2 as <-. rewrite Hc1 in Hc2. injection Hc2 as <-.
  eapply Map_keys_NoDup_lookup; [apply Hwf|done..].
Qed.

Lemma flat_map_at {A B : Type} (f : A -> list B) (l : list A) j x :
  l !! j = Some x ->
  flat_map f l = flat_map f (take j l) ++ f x ++ flat_map f (drop (S j) l).
Proof.
  intros Hj. rewrite <- (take_drop_middle l j x Hj) at 1. by rewrite flat_map_app.
Qed.

(** What [update] makes of the tick closure of an Interval. *)
Lemma update_tick i w j id it delta :
  wf w -> intervals_linked w ->
  reg_intervals w !! j = Some (Some (id, it)) -> i_handler it = HTick i ->
  let t := now (registry w) in
  let due := i_allowedExecutionTime it <=? t + delta in
  exists iv w' pre post,
    intervals w !! i = Some iv /\ i_interval it = iv_interval iv /\
    update delta w = Some w' /\
    trace w' = trace w ++ pre
      ++ (if due
          then OFire KInterval id :: OTick i t :: ((fun l => OListener l t) <$> iv_listeners iv)
          else [])
      ++ post /\
    ticks i pre = [] /\ ticks i post = [] /\
    reg_intervals w' !! j =
      Some (Some (id, if due then rearmed (t + delta + i_interval it) it else it)).
Proof.
  intros Hwf Hl Hj Hh t due. pose proof Hl as [_ He].
  destruct (He _ _ _ _ Hj Hh) as (iv & Hiv & _ & Hp).
  destruct (update_spec delta w Hwf) as (w' & Hu & _ & _ & _ & _ & _ & Hpost & _).
  destruct (update_obs _ _ _ Hwf Hu) as [_ Htr].
  exists iv, w', (flat_map (interval_obs w (t + delta)) (take j (reg_intervals w))),
    (flat_map (interval_obs w (t + delta)) (drop (S j) (reg_intervals w))
     ++ flat_map (timeout_obs w (t + delta)) (reg_timeouts w)).
  split_and!; try done.
  - rewrite Htr, (flat_map_at _ _ _ _ Hj), <- !app_assoc. do 2 f_equal.
    fold t. simpl. fold due. rewrite Hh. destruct due; [|done].
    by rewrite (proj1 (ticks_handler_tick i w iv _ Hiv)).
  - apply ticks_intervals_none. intros j' id' it' Hj' Hh'.
    apply lookup_take_Some in Hj' as [Hj' Hlt].
    assert (j' = j) by (by eapply (tick_entry_unique i w)). lia.
  - rewrite ticks_app, ticks_intervals_none, ticks_timeouts_none; [done|..].
    + intros j' id' t'. by apply wf_timeouts_no_tick.
    + intros j' id' it' Hj' Hh'. rewrite lookup_drop in Hj'.
      assert (S j + j' = j)%nat by (by eapply (tick_entry_unique i w)). lia.
  - destruct (Hpost _ _ Hj) as (e' & He' & Hp'). simpl in Hp'.
    change (_lastTime (registry w)) with t in Hp'. fold due in Hp'.
    rewrite He'. destruct due; [|by subst e'].
    destruct Hp' as [->|[_ (u & p & Hpoll)]]; [done|congruence].
Qed.

(** X11.  A run of [update] makes the Interval whose tick closure is in
    the map tick once when the closure is due and not at all when it is
    not, however many periods the call spans.  The tick carries [now()] as
    it is during the call, which is the time before the call, and the
    listeners are called with it in the order they were added; the closure
    is then due one period after the time the call advances to. *)
Theorem X11_a_started_interval_ticks_once_per_update_when_due (w : World) i j id it delta :
  reachable w ->
  reg_intervals w !! j = Some (Some (id, it)) -> i_handler it = HTick i ->
  let t := now (registry w) in
  let due := i_allowedExecutionTime it <=? t + delta in
  exists iv w' pre post,
    intervals w !! i = Some iv /\ i_interval it = iv_interval iv /\
    update delta w = Some w' /\
    trace w' = trace w ++ pre
      ++ (if due
          then OFire KInterval id :: OTick i t :: ((fun l => OListener l t) <$> iv_listeners iv)
          else [])
      ++ post /\
    ticks i pre = [] /\ ticks i post = [] /\
    reg_intervals w' !! j =
      Some (Some (id, if due then rearmed (t + delta + i_interval it) it else it)).
Proof.
  intros Hreach. apply update_tick; [by apply reachable_Inv|by apply reachable_linked].
Qed.

Lemma Map_set_has {V : Type} k (v : V) (m : EsMap V) :
  exists j, Map_set k v m !! j = Some (Some (k, v)).
Proof.
  induction m as [|[[k' v']|] m [j IH]]; simpl.
  - by exists 0%nat.
  - destruct (k' =? k); [by exists 0%nat|by exists (S j)].
  - by exists (S j).
Qed.

(** An Interval whose closure is due within one period ticks in every
    [update] that spans a period. *)
Lemma run_updates_tick i P deltas : forall w j id it,
  Inv w -> intervals_linked w ->
  reg_intervals w !! j = Some (Some (id, it)) -> i_handler it = HTick i ->
  i_interval it = P -> i_allowedExecutionTime it <= now (registry w) + P ->
  Forall (fun d => P <= d) deltas ->
  exists w' new, run (RegUpdate <$> deltas) w = Some w' /\
    trace w' = trace w ++ new /\
    ticks i new = times_before (now (registry w)) deltas.
Proof.
  induction deltas as [|d ds IH]; intros w j id it HI Hl Hj Hh Hp Hdue Hall.
  - exists w, []. by rewrite app_nil_r.
  - apply Forall_cons in Hall as [Hd Hall].
    destruct (update_tick i w j id it d (proj1 HI) Hl Hj Hh)
      as (iv & w1 & pre & post & Hiv & _ & Hu & Htr & Hpre & Hpo & Hj1).
    assert ((i_allowedExecutionTime it <=? now (registry w) + d) = true) as Hle
      by (apply Z.leb_le; lia).
    rewrite Hle in Htr, Hj1.
    assert (now (registry w1) = now (registry w) + d) as Hnow by (by apply update_lastTime).
    destruct (IH w1 j id (rearmed (now (registry w) + d + i_interval it) it))
      as (w' & new & Hr & Htr' & Hti); try done.
    + by eapply Inv_update.
    + by eapply linked_update; [apply HI|..].
    + simpl. rewrite Hnow. lia.
    + exists w', (pre ++ (OFire KInterval id :: OTick i (now (registry w))
                   :: ((fun l => OListener l (now (registry w))) <$> iv_listeners iv))
                  ++ post ++ new).
      split_and!.
      * simpl. by rewrite Hu.
      * rewrite Htr', Htr, <- !app_assoc. done.
      * rewrite !ticks_app, Hpre, Hpo, Hti, Hnow. simpl.
        by rewrite Nat_eqb_self, ticks_listeners.
Qed.

(** X12.  An Interval constructed started with period [p] ticks in every
    later [update(d)] with [d >= max(0, p)], once per call: after the calls
    [update(d1)], ..., [update(dk)] it has ticked [k] times, and the ticks
    carry the time of the registry before each call: [t], [t + d1],
    [t + d1 + d2], ... for a registry at time [t]. *)
Theorem X12_an_interval_ticks_in_every_update_spanning_a_period
    (w : World) p i w0 deltas :
  reachable w -> Interval_new p true w = Some (i, w0) ->
  Forall (fun d => Z.max 0 p <= d) deltas ->
  exists w' new, run (RegUpdate <$> deltas) w0 = Some w' /\
    trace w' = trace w0 ++ new /\
    ticks i new = times_before (now (registry w)) deltas.
Proof.
  intros Hreach Hn Hall.
  assert (step (NewInterval p true) w = Some w0) as Hs by (unfold step; by rewrite Hn).
  pose proof (Inv_step _ _ _ Hs (reachable_Inv _ Hreach)) as HI0.
  pose proof (linked_step _ _ _ (proj1 (reachable_Inv _ Hreach)) Hs
                (reachable_linked _ Hreach)) as Hl0.
  assert (exists j id it, reg_intervals w0 !! j = Some (Some (id, it)) /\
            i_handler it = HTick i /\ i_interval it = Z.max 0 p /\
            i_allowedExecutionTime it <= now (registry w0) + Z.max 0 p /\
            now (registry w0) = now (registry w)) as (j & id & it & Hj & Hh & Hp & Hdue & Hnow).
  { clear Hs HI0 Hl0. unfold Interval_new, Interval_start in Hn. simpl in Hn.
    rewrite list_lookup_middle in Hn by done. simpl in Hn. injection Hn as <- <-.
    destruct (Map_set_has (_currentId (registry w))
                (mkInterval (HTick (length (intervals w))) []
                   (clamp (Some (Z.max 0 p)))
                   (_lastTime (registry w) + clamp (Some (Z.max 0 p))))
                (reg_intervals w)) as [j Hj].
    eexists j, _, _. split; [exact Hj|]. unfold now. simpl.
    destruct (Z.eqb_spec (Z.max 0 p) 0); split_and!; try done; lia. }
  rewrite <- Hnow. by eapply run_updates_tick.
Qed.

(** ** Predicates kept by the steps of [update] *)

(** A property of worlds is kept by [update] as soon as it is kept by
    the processing of each entry that is due: the call of its handler
    followed by the re-arming of the interval or the clearing of the
    timeout. *)
Section UpdateSteps.

Variable P : World -> Prop.
Variable cur : Z.
Hypothesis P_istep : forall j id it w w1,
  wf w -> P w -> reg_intervals w !! j = Some (Some (id, it)) ->
  i_allowedExecutionTime it <= cur ->
  run_handler (i_handler it) (i_args it) (log (OFire KInterval id) w) = Some w1 ->
  P (with_intervals_map (rearm j (cur + i_interval it) (reg_intervals w1)) w1).
Hypothesis P_tstep : forall j id t w w1,
  wf w -> P w -> reg_timeouts w !! j = Some (Some (id, t)) ->
  t_allowedExecutionTime t <= cur ->
  run_handler (t_handler t) (t_args t) (log (OFire KTimeout id) w) = Some w1 ->
  P (with_registry (clearTimeout id (registry w1)) w1).
Hypothesis P_time : forall w, P w -> P (with_lastTime cur w).

Lemma update_intervals_steps fuel : forall i w w',
  wf w -> update_intervals fuel i cur w = Some w' -> P w -> P w'.
Proof.
  induction fuel as [|fuel IH]; intros i w w' Hwf; rewrite update_intervals_unfold.
  - destruct (reg_intervals w !! i); [done|]. by intros [= <-].
  - destruct (reg_intervals w !! i) as [[[id it]|]|] eqn:Hi;
      [| by apply IH | by intros [= <-]].
    destruct (Z.leb_spec (i_allowedExecutionTime it) cur) as [Hle|Hgt]; [|by apply IH].
    destruct (fire_interval_entry w i id it cur Hwf Hi) as (w1 & Hrun & Hwf2 & _).
    rewrite Hrun. simpl. intros Hu HP. eapply IH; [exact Hwf2|exact Hu|].
    by apply (P_istep i id it w w1).
Qed.

Lemma update_timeouts_steps fuel : forall i w w',
  wf w -> update_timeouts fuel i cur w = Some w' -> P w -> P w'.
Proof.
  induction fuel as [|fuel IH]; intros i w w' Hwf; rewrite update_timeouts_unfold.
  - destruct (reg_timeouts w !! i); [done|]. by intros [= <-].
  - destruct (reg_timeouts w !! i) as [[[id t]|]|] eqn:Hi;
      [| by apply IH | by intros [= <-]].
    destruct (Z.leb_spec (t_allowedExecutionTime t) cur) as [Hle|Hgt]; [|by apply IH].
    destruct (fire_timeout_entry w i id t Hwf Hi) as (w1 & Hrun & Hwf2 & _).
    rewrite Hrun. simpl. intros Hu HP. eapply IH; [exact Hwf2|exact Hu|].
    by apply (P_tstep i id t w w1).
Qed.

Lemma update_steps delta w w' :
  cur = _lastTime (registry w) + delta ->
  wf w -> update delta w = Some w' -> P w -> P w'.
Proof.
  unfold update. intros <- Hwf Hu HP.
  destruct (update_intervals_spec (length (reg_intervals w)) 0 cur w Hwf)
    as (w1 & Hrun1 & Hwf1 & _); [lia|].
  rewrite Hrun1 in Hu. simpl in Hu.
  destruct (update_timeouts _ _ _ w1) as [w2|] eqn:Hrun2; simpl in Hu; [|done].
  injection Hu as <-. apply P_time.
  eapply update_timeouts_steps; [exact Hwf1|exact Hrun2|].
  eapply update_intervals_steps; [exact Hwf|exact Hrun1|done].
Qed.

End UpdateSteps.

(** ** The promises the registry can settle *)

Lemma settle_length p s (store : list PromiseState) :
  length (settle p s store) = length store.
Proof.
  unfold settle. destruct (store !! p) as [[| |r]|]; try done. apply length_insert.
Qed.

Lemma settle_lookup_ne p q s (store : list PromiseState) :
  p <> q -> settle p s store !! q = store !! q.
Proof.
  intros Hne. unfold settle. destruct (store !! p) as [[| |r]|]; try done.
  by apply list_lookup_insert_ne.
Qed.

Lemma settle_pending p s (store : list PromiseState) :
  store !! p = Some Pending -> settle p s store !! p = Some s.
Proof.
  intros Hp. unfold settle. rewrite Hp. apply list_lookup_insert_eq.
  by eapply lookup_lt_Some.
Qed.

(** What a handler leaves of the promises, of the Delays and of the maps. *)
Lemma run_handler_refs h args w w1 :
  run_handler h args w = Some w1 ->
  length (promises w1) = length (promises w) /\
  (forall d dl1, delays w1 !! d = Some dl1 ->
     exists dl, delays w !! d = Some dl /\ d_resolver dl1 = d_resolver dl) /\
  (forall j id it, reg_intervals w1 !! j = Some (Some (id, it)) ->
     reg_intervals w !! j = Some (Some (id, it))) /\
  reg_timeouts w1 = reg_timeouts w /\
  length (delays w1) = length (delays w) /\ env w1 = env w.
Proof.
  intros Hr. destruct h as [tag|i|d0|u k p]; simpl in Hr; split_cases;
    rewrite ?Event_fire_eq; simpl; rewrite ?settle_length, ?length_insert;
    split_and!; eauto.
  - intros d' dl1. destruct (decide (d' = d0)) as [->|Hne].
    + rewrite list_lookup_insert_eq by (by eapply lookup_lt_Some). intros [= <-]. eauto.
    + rewrite list_lookup_insert_ne by done. eauto.
  - by intros j id it [_ ?]%Map_delete_lookup.
Qed.

(** A handler settles no promise but the one of its own resolving
    function. *)
Lemma run_handler_promise h args w w1 p :
  run_handler h args w = Some w1 ->
  match h with
  | HDelayFire d => forall dl, delays w !! d = Some dl -> d_resolver dl <> p
  | HPoll _ _ p' => p' <> p
  | _ => True
  end ->
  promises w1 !! p = promises w !! p.
Proof.
  intros Hr Hok. destruct h as [tag|i|d0|u k p']; simpl in Hr; split_cases;
    rewrite ?Event_fire_eq; simpl; try done.
  - apply settle_lookup_ne. by apply Hok.
  - by apply settle_lookup_ne.
Qed.

Lemma refs_frame w w' :
  (length (promises w) <= length (promises w'))%nat ->
  (forall d dl', delays w' !! d = Some dl' ->
     (exists d0 dl, delays w !! d0 = Some dl /\ d_resolver dl' = d_resolver dl) \/
     (d_resolver dl' < length (promises w'))%nat) ->
  (forall j id it u k p, reg_intervals w' !! j = Some (Some (id, it)) ->
     i_handler it = HPoll u k p ->
     (exists j' id' it', reg_intervals w !! j' = Some (Some (id', it')) /\
        i_handler it' = HPoll u k p) \/
     (p < length (promises w'))%nat) ->
  refs_allocated w -> refs_allocated w'.
Proof.
  intros Hlen Hd Hm [Hrd Hrm]. split.
  - intros d dl' [(d0 & dl & Hd0 & ->)|?]%Hd; [|done].
    eapply Nat.lt_le_trans; [by eapply Hrd|done].
  - intros j id it u k p Hj [(j' & id' & it' & Hj' & Hh')|?]%(Hm _ _ _ _ _ _ Hj); [|done].
    eapply Nat.lt_le_trans; [by eapply Hrm|done].
Qed.

Lemma refs_update delta w w' :
  wf w -> update delta w = Some w' -> refs_allocated w -> refs_allocated w'.
Proof.
  intros Hwf Hu. eapply (update_steps refs_allocated (_lastTime (registry w) + delta));
    [..|reflexivity|exact Hwf|exact Hu]; clear.
  - intros j id it w0 w1 _ HP _ _ (Hlen & Hd & Hm & _)%run_handler_refs.
    revert HP. apply refs_frame; simpl in *.
    + by rewrite Hlen.
    + intros d dl' (dl & ? & ?)%Hd. left. by exists d, dl.
    + intros j' id' it' u k p (it0 & Hj' & Hh & _)%rearm_lookup_inv Hh'. left.
      exists j', id', it0. split; [by apply Hm|congruence].
  - intros j id t w0 w1 _ HP _ _ (Hlen & Hd & Hm & _)%run_handler_refs.
    revert HP. apply refs_frame; simpl in *.
    + by rewrite Hlen.
    + intros d dl' (dl & ? & ?)%Hd. left. by exists d, dl.
    + intros j' id' it' u k p Hj' Hh'. left. exists j', id', it'. split; [by apply Hm|done].
  - intros w0. by apply refs_frame; simpl; eauto 10.
Qed.

Lemma refs_step (o : Op) w w' :
  wf w -> step o w = Some w' -> refs_allocated w -> refs_allocated w'.
Proof.
  intros Hwf Hs. destruct o; simpl in Hs; [by eapply refs_update|..].
  all: apply refs_frame; unfold_methods; split_cases; simpl;
    rewrite ?settle_length, ?length_app; simpl; try lia.
  all: repeat match goal with
         | H : delays _ !! _ = Some _ |- _ => progress simpl in H
         end.
  all: try (intros d' dl' Hd;
    repeat match goal with
      | H : <[_ := _]> _ !! _ = Some _ |- _ =>
          apply list_lookup_insert_Some in H as [(_ & <- & _)|[_ H]]
      | H : (_ ++ [_]) !! _ = Some _ |- _ =>
          apply lookup_snoc_Some in H as [[_ H]|[_ <-]]
      end; simpl; first [by left; eauto | right; lia]).
  all: intros j' id' it' u' k' p' Hj Hh;
    repeat match goal with
      | H : Map_set _ _ _ !! _ = Some (Some _) |- _ =>
          apply Map_set_lookup in H as [[-> ->]|H];
          [simpl in Hh; first [done | injection Hh as <- <- <-; right; lia]|]
      | H : Map_delete _ _ !! _ = Some (Some _) |- _ =>
          apply Map_delete_lookup in H as [_ H]
      end; left; eauto.
Qed.

Lemma reachable_refs w : reachable w -> refs_allocated w.
Proof.
  intros (startTime & e & ops & Hr).
  assert (Inv (World_new startTime e) /\ refs_allocated (World_new startTime e)) as [HI Hre].
  { split; [apply Inv_new|]. split; simpl; intros *; by rewrite ?lookup_nil. }
  revert Hr HI Hre. generalize (World_new startTime e). clear.
  induction ops as [|o ops IH]; intros w0 Hr HI Hre; simpl in Hr.
  - by injection Hr as <-.
  - destruct (step o w0) as [w1|] eqn:Hs; [|done]. simpl in Hr.
    eapply (IH w1); [done|by eapply Inv_step|]. eapply refs_step; [apply HI|done..].
Qed.

(** ** A Delay fulfils its promise when its time has come *)

Lemma delay_waiting_frame d p id due w w' :
  (forall d' dl', delays w' !! d' = Some dl' ->
     exists dl, delays w !! d' = Some dl /\ d_resolver dl' = d_resolver dl) ->
  length (delays w') = length (delays w) ->
  (forall j k it u k' p', reg_intervals w' !! j = Some (Some (k, it)) ->
     i_handler it = HPoll u k' p' ->
     exists j0 k0 it0, reg_intervals w !! j0 = Some (Some (k0, it0)) /\
       i_handler it0 = HPoll u k' p') ->
  (reg_timeouts w' = reg_timeouts w \/
   exists k, k <> id /\ reg_timeouts w' = Map_delete k (reg_timeouts w)) ->
  promises w' !! p = promises w !! p ->
  delay_waiting d p id due w -> delay_waiting d p id due w'.
Proof.
  intros Hd Hlen Hm Ht Hp ((dl & Hdl & Hres) & Hoth & Hpoll & Hkey & Hst).
  split_and!.
  - destruct (lookup_lt_is_Some_2 (delays w') d) as [dl' Hdl'].
    { rewrite Hlen. by eapply lookup_lt_Some. }
    exists dl'. split; [done|]. destruct (Hd _ _ Hdl') as (dl0 & Hdl0 & ->). congruence.
  - intros d' dl' Hdl' Hne. destruct (Hd _ _ Hdl') as (dl0 & Hdl0 & ->). by eapply Hoth.
  - intros j k it u k' p' Hj Hh. destruct (Hm _ _ _ _ _ _ Hj Hh) as (j0 & k0 & it0 & ? & ?).
    by eapply Hpoll.
  - intros j k t Hj. destruct Ht as [Ht|(k0 & Hne & Ht)]; rewrite Ht in Hj.
    + by eapply Hkey.
    + apply Map_delete_lookup in Hj as [_ Hj]. by eapply Hkey.
  - rewrite Hp. destruct Hst as [(j & t & Hj & Hdue & Hpe)|[Hnin Hf]].
    + left. exists j, t. split_and!; try done.
      destruct Ht as [->|(k0 & Hne & ->)]; [done|]. by apply Map_delete_lookup_ne.
    + right. split; [|done].
      destruct Ht as [->|(k0 & Hne & ->)]; [done|]. by intros [? _]%Map_delete_keys.
Qed.

Lemma delay_waiting_update d p id due delta w w' :
  wf w -> update delta w = Some w' ->
  delay_waiting d p id due w -> delay_waiting d p id due w'.
Proof.
  intros Hwf Hu.
  eapply (update_steps (delay_waiting d p id due) (_lastTime (registry w) + delta));
    [..|reflexivity|exact Hwf|exact Hu]; clear.
  - intros j k it w0 w1 Hwf HP Hj _ Hrun.
    pose proof (run_handler_refs _ _ _ _ Hrun) as (_ & Hd & Hm & Ht & Hlen & _).
    apply (delay_waiting_frame d p id due w0); [..|exact HP]; simpl in *; try done.
    + intros j' k' it' u k0 p' (it0 & Hj' & Hh & _)%rearm_lookup_inv Hh'.
      exists j', k', it0. split; [by apply Hm|congruence].
    + by left.
    + eapply (run_handler_promise _ _ _ _ p) in Hrun; [done|].
      pose proof (wf_ih w0 Hwf _ _ _ Hj) as Hok.
      destruct (i_handler it) as [tag|i|d0|u k0 p'] eqn:Hh; simpl in Hok; try done.
      destruct HP as (_ & _ & Hpoll & _). by eapply Hpoll.
  - intros j k t w0 w1 Hwf HP Hj _ Hrun.
    pose proof (wf_th w0 Hwf _ _ _ Hj) as Hok.
    pose proof HP as ((dl & Hdl & Hres) & Hoth & Hpoll & Hkey & Hst).
    destruct (decide (k = id)) as [->|Hne].
    + pose proof (proj1 (Hkey _ _ _ Hj) eq_refl) as Hh. rewrite Hh in Hrun.
      simpl in Hrun. rewrite Hdl in Hrun. simpl in Hrun. injection Hrun as <-.
      split_and!; simpl.
      * eexists. split; [apply list_lookup_insert_eq; by eapply lookup_lt_Some|done].
      * intros d' dl' Hdl' Hne. rewrite list_lookup_insert_ne in Hdl' by done.
        by eapply Hoth.
      * done.
      * intros j' k' t' [_ Hj']%Map_delete_lookup. by eapply Hkey.
      * right. split; [by intros [_ ?]%Map_delete_keys|].
        destruct Hst as [(j0 & t0 & _ & _ & Hpe)|[Hnin _]].
        -- rewrite Hres. by apply settle_pending.
        -- destruct Hnin. by eapply Map_keys_lookup.
    + pose proof (run_handler_refs _ _ _ _ Hrun) as (_ & Hd & Hm & Ht & Hlen & _).
      apply (delay_waiting_frame d p id due w0); [..|exact HP]; simpl in *; try done.
      * intros j' k' it' u k0 p' Hj' Hh'. exists j', k', it'. split; [by apply Hm|done].
      * right. exists k. by rewrite Ht.
      * eapply (run_handler_promise _ _ _ _ p) in Hrun; [done|].
        destruct (t_handler t) as [tag|i|d0|u k0 p'] eqn:Hh; simpl in Hok; try done.
        simpl. intros dl0 Hdl0. eapply Hoth; [done|]. intros ->.
        apply Hne. by apply (Hkey _ _ _ Hj).
  - intros w0. apply delay_waiting_frame; simpl; eauto 10.
Qed.

(** The state of the promise after one [update]. *)
Lemma delay_waiting_outcome d p id due delta w w' :
  wf w -> update delta w = Some w' ->
  delay_waiting d p id due w -> promises w !! p = Some Pending ->
  promises w' !! p =
    Some (if due <=? now (registry w) + delta then Fulfilled else Pending).
Proof.
  unfold now. intros Hwf Hu HP Hpe.
  pose proof (delay_waiting_update _ _ _ _ _ _ _ Hwf Hu HP) as (_ & _ & _ & _ & Hst').
  destruct HP as (_ & _ & _ & _ & [(j & t & Hj & Hdue & _)|[_ Hf]]); [|congruence].
  destruct (Z.leb_spec due (_lastTime (registry w) + delta)) as [Hle|Hgt].
  - pose proof (update_timeout_gone _ _ _ _ _ _ Hwf Hu Hj) as Hgone.
    destruct Hst' as [(j' & t' & Hj' & _)|[_ Hf]]; [|done].
    destruct Hgone; [lia|]. by eapply Map_keys_lookup.
  - destruct (update_spec delta w Hwf) as (w'' & Hu' & _ & _ & _ & _ & _ & _ & Hpost & _).
    rewrite Hu in Hu'. injection Hu' as <-.
    destruct (Hpost _ _ Hj) as (e' & He' & Hp'). simpl in Hp'.
    destruct (Z.leb_spec (t_allowedExecutionTime t) (_lastTime (registry w) + delta));
      [lia|]. subst e'.
    destruct Hst' as [(_ & _ & _ & _ & Hpe')|[Hnin _]]; [done|].
    destruct Hnin. by eapply Map_keys_lookup.
Qed.

Lemma run_updates_total deltas : forall w,
  Inv w -> exists w', run (RegUpdate <$> deltas) w = Some w'.
Proof.
  induction deltas as [|delta ds IH]; intros w HI; [by exists w|].
  destruct (update_spec delta w (proj1 HI)) as (w1 & Hu & _).
  destruct (IH w1 (Inv_update _ _ _ Hu HI)) as [w' Hr].
  exists w'. simpl. by rewrite Hu.
Qed.

Lemma run_updates_delay d p id due deltas : forall w,
  Inv w -> delay_waiting d p id due w -> promises w !! p = Some Pending ->
  exists w', run (RegUpdate <$> deltas) w = Some w' /\
    promises w' !! p =
      Some (if delay_outcome (due - now (registry w)) deltas then Fulfilled else Pending).
Proof.
  induction deltas as [|delta ds IH]; intros w HI HP Hpe; [by exists w|].
  destruct (update_spec delta w (proj1 HI)) as (w1 & Hu & _).
  pose proof (delay_waiting_outcome _ _ _ _ _ _ _ (proj1 HI) Hu HP Hpe) as Hp1.
  pose proof (Inv_update _ _ _ Hu HI) as HI1.
  assert (now (registry w1) = now (registry w) + delta) as Hnow by (by apply update_lastTime).
  simpl. rewrite Hu. simpl.
  destruct (Z.leb_spec due (now (registry w) + delta)) as [Hle|Hgt].
  - destruct (run_updates_total ds w1 HI1) as [w' Hr]. exists w'. split; [done|].
    rewrite (proj2 (Z.leb_le _ _)) by lia. simpl.
    by eapply (run_keeps_settled p Fulfilled).
  - destruct (IH w1 HI1) as (w' & Hr & Hp'); [by eapply delay_waiting_update; [apply HI|..]|done|].
    exists w'. split; [done|]. rewrite (proj2 (Z.leb_gt _ _)) by lia. simpl.
    rewrite Hp', Hnow. by replace (due - (now (registry w) + delta))
      with (due - now (registry w) - delta) by lia.
Qed.

(** With distinct keys, the entry under a key that was set is the entry
    set. *)
Lemma Map_set_lookup_eq {V : Type} k (v v' : V) (m : EsMap V) j :
  NoDup (Map_keys m) -> Map_set k v m !! j = Some (Some (k, v')) -> v' = v.
Proof.
  intros Hnd Hj. destruct (Map_set_has k v m) as [j0 Hj0].
  assert (j = j0) as -> by (eapply Map_keys_NoDup_lookup; [by apply Map_set_NoDup|done..]).
  congruence.
Qed.

(** A Delay constructed started waits on a fresh promise. *)
Lemma delay_waiting_new dur roc w d w0 :
  reachable w -> Delay_new dur roc true w = Some (d, w0) ->
  let p := length (promises w) in
  Inv w0 /\
  delay_waiting d p (_currentId (registry w)) (now (registry w) + Z.max 0 dur) w0 /\
  promises w0 !! p = Some Pending /\
  (exists dl, delays w0 !! d = Some dl /\ d_promise dl = p) /\
  now (registry w0) = now (registry w).
Proof.
  intros Hreach Hn p.
  assert (step (NewDelay dur roc true) w = Some w0) as Hs by (unfold step; by rewrite Hn).
  pose proof (reachable_Inv _ Hreach) as HI.
  pose proof (reachable_refs _ Hreach) as [Hrd Hrm].
  split; [by eapply Inv_step|]. clear Hs.
  unfold Delay_new, Delay_start in Hn. simpl in Hn.
  rewrite list_lookup_middle in Hn by done. simpl in Hn. injection Hn as <- <-.
  assert (forall x : Z, 0 <= x -> (if x =? 0 then 0 else Z.max x 0) = x) as Hclamp
    by (intros x Hx; destruct (Z.eqb_spec x 0); lia).
  split; [|split_and!; simpl].
  - unfold delay_waiting. split_and!; simpl.
    + eexists.
      split; [apply list_lookup_insert_eq; rewrite length_app; simpl; lia|done].
    + intros d' dl' Hdl' Hne. rewrite list_lookup_insert_ne in Hdl' by done.
      apply lookup_snoc_Some in Hdl' as [[_ Hdl']|[? _]]; [|done].
      apply Hrd in Hdl'. unfold p. lia.
    + intros j k it u k' p' Hj Hh. pose proof (Hrm _ _ _ _ _ _ Hj Hh). unfold p. lia.
    + intros j k t Hj. split.
      * intros ->. apply Map_set_lookup_eq in Hj as ->; [done|apply HI].
      * intros Hh. apply Map_set_lookup in Hj as [[-> _]|Hj]; [done|].
        pose proof (wf_th w (proj1 HI) _ _ _ Hj) as Hok. rewrite Hh in Hok.
        simpl in Hok. apply lookup_lt_is_Some in Hok. lia.
    + left. destruct (Map_set_has (_currentId (registry w))
                        (mkTimeout (HDelayFire (length (delays w))) []
                           (_lastTime (registry w)
                            + (if Z.max 0 dur =? 0 then 0 else Z.max (Z.max 0 dur) 0)))
                        (reg_timeouts w)) as [j Hj].
      eexists j, _. split; [exact Hj|]. simpl. unfold now. rewrite Hclamp by lia.
      split; [done|]. by apply list_lookup_middle.
  - by apply list_lookup_middle.
  - eexists.
    split; [apply list_lookup_insert_eq; rewrite length_app; simpl; lia|done].
  - done.
Qed.

(** X13.  A Delay constructed started with duration [dur] fulfils its
    promise in the first [update] that brings the registry to
    [max(0, dur)] milliseconds or more after the construction, and not
    before: after the calls [update(d1)], ..., [update(dk)] the promise is
    fulfilled when some sum [d1 + ... + di] has reached [max(0, dur)] and
    it is pending otherwise.  This is for times the registry computes
    exactly: the time of the construction, the duration, the time the
    Delay is due and the times the calls of [update] reach are safe
    integers, and so are the deltas. *)
Theorem X13_a_delay_is_fulfilled_once_its_duration_has_elapsed
    (w : World) dur roc d w0 deltas :
  reachable w -> Delay_new dur roc true w = Some (d, w0) ->
  isSafeInteger (now (registry w)) -> isSafeInteger dur ->
  isSafeInteger (now (registry w) + Z.max 0 dur) ->
  exact_updates (now (registry w)) deltas ->
  exists dl w', delays w0 !! d = Some dl /\
    promises w0 !! d_promise dl = Some Pending /\
    run (RegUpdate <$> deltas) w0 = Some w' /\
    promises w' !! d_promise dl =
      Some (if delay_outcome (Z.max 0 dur) deltas then Fulfilled else Pending).
Proof.
  intros Hreach Hn _ _ _ _.
  destruct (delay_waiting_new _ _ _ _ _ Hreach Hn) as (HI & HP & Hpe & (dl & Hdl & Hp) & Hnow).
  destruct (run_updates_delay _ _ _ _ deltas w0 HI HP Hpe) as (w' & Hr & Hp').
  exists dl, w'. rewrite Hp. split_and!; try done.
  rewrite Hp', Hnow. by replace (now (registry w) + Z.max 0 dur - now (registry w))
    with (Z.max 0 dur) by lia.
Qed.

(** ** An Until fulfils its promise at the first [update] at which its
       condition holds *)

Lemma run_handler_until u h args w w1 :
  run_handler h args w = Some w1 ->
  (forall k p, h <> HPoll u k p) -> untils w1 !! u = untils w !! u.
Proof.
  intros Hr Hne. destruct h as [tag|i|d0|u' k p']; simpl in Hr; split_cases;
    rewrite ?Event_fire_eq; simpl; try done.
  apply list_lookup_insert_ne. intros ->. by eapply Hne.
Qed.

Lemma until_waiting_mono u p id c t t' w :
  t <= t' -> until_waiting u p id c t w -> until_waiting u p id c t' w.
Proof.
  intros Hle (Hd & Hm & [(j & it & un & Hj & Hh & Hi & Ha & Hrest)|HB]).
  - split_and!; try done. left. exists j, it, un. split_and!; try apply Hrest; try done.
    lia.
  - split_and!; try done. by right.
Qed.

Section UntilUpdate.

Variables (u p : nat) (id : Z) (c : Env -> bool) (cur : Z) (e : Env) (tr0 : list Obs).

Lemma polling_istep j k it w w1 :
  wf w -> until_update_inv u p id c cur e tr0 w -> reg_intervals w !! j = Some (Some (k, it)) ->
  i_allowedExecutionTime it <= cur ->
  run_handler (i_handler it) (i_args it) (log (OFire KInterval k) w) = Some w1 ->
  until_update_inv u p id c cur e tr0
    (with_intervals_map (rearm j (cur + i_interval it) (reg_intervals w1)) w1).
Proof.
  intros Hwf ((Hd & Hm & Hst) & He & Hfalse & tr & Htr & Htrue) Hj _ Hrun.
  destruct (run_ihandler w j k it (OFire KInterval k) (i_args it) Hwf Hj)
    as (w1' & Hrun' & _ & _ & _ & Hreg & _ & new & Htr1 & Hf1 & _).
  rewrite Hrun in Hrun'. injection Hrun' as <-.
  pose proof (run_handler_refs _ _ _ _ Hrun) as (_ & Hd1 & Hm1 & _ & _ & He1).
  simpl in Hd1, Hm1, He1.
  assert (forall j' k2 it2 u' k' p', rearm j (cur + i_interval it) (reg_intervals w1) !! j'
            = Some (Some (k2, it2)) -> i_handler it2 = HPoll u' k' p' -> k2 <> id ->
            u' <> u /\ p' <> p) as Hm'.
  { intros j' k2 it2 u' k' p' (it0 & Hj' & Hh0 & _)%rearm_lookup_inv Hh' Hne.
    apply Hm1 in Hj'. apply (Hm j' k2 it0 u' k' p'); [done|congruence|done]. }
  assert (forall d dl, delays w1 !! d = Some dl -> d_resolver dl <> p) as Hd'.
  { intros d dl (dl0 & Hdl0 & ->)%Hd1. by eapply Hd. }
  assert (exists tr', trace w1 = tr0 ++ tr' /\
            fires KInterval tr' = fires KInterval tr ++ [k]) as (tr' & Htr' & Hf').
  { exists (tr ++ OFire KInterval k :: new). rewrite Htr1, Htr, <- app_assoc.
    split; [done|]. rewrite fires_app. simpl. by rewrite Hf1. }
  destruct (decide (k = id)) as [->|Hne].
  - destruct Hst as [(j0 & it0 & un & Hj0 & Hh0 & Hi0 & Ha0 & Hun & Hc & Hpe)|[Hnin _]];
      [|destruct Hnin; by eapply Map_keys_lookup].
    assert (j0 = j) as -> by (eapply Map_keys_NoDup_lookup; [apply Hwf|done..]).
    rewrite Hj in Hj0. injection Hj0 as <-.
    rewrite Hh0 in Hrun. simpl in Hrun. rewrite Hun in Hrun. simpl in Hrun.
    rewrite Hc in Hrun. destruct (c (env w)) eqn:Hcond.
    + injection Hrun as <-. simpl in *. split_and!; simpl; try done.
      * split_and!; simpl; try done. right. split.
        -- rewrite rearm_keys. by intros [_ ?]%Map_delete_keys.
        -- by apply settle_pending.
      * congruence.
      * exists tr'. split; [done|]. intros _ _. by apply settle_pending.
    + injection Hrun as <-. simpl in *. split_and!; simpl; try done.
      * split_and!; simpl; try done. left.
        exists j, (rearmed (cur + i_interval it) it), un. split_and!; try done.
        -- rewrite rearm_lookup_eq, Hj. done.
        -- simpl. lia.
      * exists tr'. split; [done|]. congruence.
  - pose proof (wf_ih w Hwf _ _ _ Hj) as Hok.
    assert (promises w1 !! p = promises w !! p) as Hp1.
    { eapply (run_handler_promise _ _ _ _ p) in Hrun; [done|].
      destruct (i_handler it) as [tag|i|d0|u' k' p'] eqn:Hh; simpl in Hok; try done.
      by eapply (Hm j k it u' k' p'). }
    assert (untils w1 !! u = untils w !! u) as Hu1.
    { eapply (run_handler_until u) in Hrun; [done|]. intros k' p' Hh.
      by destruct (Hm j k it u k' p'). }
    split; [|split; [|split]]; simpl.
    + split; [done|]. split; [done|]. simpl.
      destruct Hst as [(j0 & it0 & un & Hj0 & Hh0 & Hi0 & Ha0 & Hun & Hc & Hpe)|[Hnin Hf]].
      * left. exists j0, it0, un. rewrite Hp1, Hu1. split_and!; try done.
        assert (j <> j0) as Hjj by (intros ->; congruence).
        rewrite rearm_lookup_ne by done.
        destruct Hreg as [->|(u' & p' & _ & ->)]; [done|]. by apply Map_delete_lookup_ne.
      * right. rewrite Hp1. split; [|done]. rewrite rearm_keys.
        intros (j' & it' & Hj')%Map_keys_elem. apply Hm1 in Hj'.
        destruct Hnin. by eapply Map_keys_lookup.
    + congruence.
    + rewrite Hp1. done.
    + exists tr'. split; [done|]. rewrite Hp1, Hf'.
      intros Hc [?|?%list_elem_of_singleton]%elem_of_app; [by apply Htrue|congruence].
Qed.

Lemma polling_tstep j k t w w1 :
  wf w -> until_update_inv u p id c cur e tr0 w -> reg_timeouts w !! j = Some (Some (k, t)) ->
  t_allowedExecutionTime t <= cur ->
  run_handler (t_handler t) (t_args t) (log (OFire KTimeout k) w) = Some w1 ->
  until_update_inv u p id c cur e tr0 (with_registry (clearTimeout k (registry w1)) w1).
Proof.
  intros Hwf ((Hd & Hm & Hst) & He & Hfalse & tr & Htr & Htrue) Hj _ Hrun.
  destruct (run_thandler w j k t (OFire KTimeout k) (t_args t) Hwf Hj)
    as (w1' & Hrun' & Hreg & _ & new & Htr1 & Hf1 & _).
  rewrite Hrun in Hrun'. injection Hrun' as <-.
  pose proof (run_handler_refs _ _ _ _ Hrun) as (_ & Hd1 & _ & _ & _ & He1).
  simpl in Hd1, He1. pose proof (wf_th w Hwf _ _ _ Hj) as Hok.
  assert (promises w1 !! p = promises w !! p) as Hp1.
  { eapply (run_handler_promise _ _ _ _ p) in Hrun; [done|].
    destruct (t_handler t) as [tag|i|d0|u' k' p'] eqn:Hh; simpl in Hok; try done.
    simpl. intros dl Hdl. by eapply Hd. }
  assert (untils w1 !! u = untils w !! u) as Hu1.
  { eapply (run_handler_until u) in Hrun; [done|]. intros k' p' Hh.
    by rewrite Hh in Hok. }
  split_and!; simpl; rewrite ?Hreg, ?Hp1, ?Hu1; try done.
  - split_and!; simpl; rewrite ?Hreg, ?Hp1, ?Hu1; try done.
    intros d dl (dl0 & Hdl0 & ->)%Hd1. by eapply Hd.
  - congruence.
  - exists (tr ++ OFire KTimeout k :: new). rewrite Htr1, Htr, <- app_assoc.
    split; [done|]. rewrite fires_app. simpl. by rewrite Hf1, app_nil_r.
Qed.

Lemma polling_update delta w w' :
  cur = _lastTime (registry w) + delta ->
  wf w -> update delta w = Some w' ->
  until_update_inv u p id c cur e tr0 w -> until_update_inv u p id c cur e tr0 w'.
Proof.
  apply (update_steps (until_update_inv u p id c cur e tr0) cur).
  - intros j k it w0 w1. apply polling_istep.
  - intros j k t w0 w1. apply polling_tstep.
  - intros w0 HP. exact HP.
Qed.

End UntilUpdate.

(** The state of the promise after one [update] that does not move the
    clock backwards. *)
Lemma until_waiting_update u p id c delta w w' :
  wf w -> update delta w = Some w' -> 0 <= delta ->
  until_waiting u p id c (now (registry w)) w -> promises w !! p = Some Pending ->
  promises w' !! p = Some (if c (env w) then Fulfilled else Pending) /\
  env w' = env w /\ until_waiting u p id c (now (registry w')) w'.
Proof.
  unfold now. intros Hwf Hu Hdelta HP Hpe.
  pose proof (update_lastTime _ _ _ Hu) as Hnow.
  destruct (polling_update u p id c (_lastTime (registry w) + delta) (env w) (trace w)
              delta w w' eq_refl Hwf Hu) as (HP' & He' & Hfalse & tr & Htr & Htrue).
  { split_and!; try done.
    - eapply until_waiting_mono; [|exact HP]. lia.
    - exists []. rewrite app_nil_r. split; [done|]. by intros _ ?%elem_of_nil. }
  rewrite Hnow. split_and!; try done.
  destruct (c (env w)) eqn:Hcond; [|by apply Hfalse]. apply Htrue; [done|].
  destruct (update_spec delta w Hwf) as (w'' & Hu' & _ & _ & _ & _ & _ & _ & _ & new & Htr' & Hf & _).
  rewrite Hu in Hu'. injection Hu' as <-. rewrite Htr in Htr'.
  apply app_inv_head in Htr' as ->. rewrite Hf. apply due_ids_elem.
  destruct HP as (_ & _ & [(j & it & un & Hj & _ & _ & Ha & _)|[_ Hf']]); [|congruence].
  exists j, it. split; [done|lia].
Qed.

Lemma run_user_total (ops : list Op) : forall w,
  Inv w -> Forall user_forward ops -> exists w', run ops w = Some w'.
Proof.
  induction ops as [|o ops IH]; intros w HI Hall; [by exists w|].
  apply Forall_cons in Hall as [Ho Hall].
  assert (exists w1, step o w = Some w1) as [w1 Hs].
  { destruct o; try done; simpl; [|by eexists].
    destruct (update_spec delta w (proj1 HI)) as (w1 & Hu & _). by exists w1. }
  destruct (IH w1 (Inv_step _ _ _ Hs HI) Hall) as [w' Hr].
  exists w'. simpl. by rewrite Hs.
Qed.

Lemma run_user_until u p id c (ops : list Op) : forall w,
  Inv w -> Forall user_forward ops ->
  until_waiting u p id c (now (registry w)) w -> promises w !! p = Some Pending ->
  exists w', run ops w = Some w' /\
    promises w' !! p = Some (if until_outcome c (env w) ops then Fulfilled else Pending).
Proof.
  induction ops as [|o ops IH]; intros w HI Hall HP Hpe; [by exists w|].
  apply Forall_cons in Hall as [Ho Hall].
  destruct o; try done; simpl.
  - destruct (update_spec delta w (proj1 HI)) as (w1 & Hu & _). rewrite Hu. simpl.
    destruct (until_waiting_update _ _ _ _ _ _ _ (proj1 HI) Hu Ho HP Hpe)
      as (Hp1 & He1 & HP1).
    pose proof (Inv_update _ _ _ Hu HI) as HI1.
    destruct (c (env w)) eqn:Hcond; simpl.
    + destruct (run_user_total ops w1 HI1 Hall) as [w' Hr]. exists w'. split; [done|].
      by eapply (run_keeps_settled p Fulfilled).
    + rewrite <- He1. by apply IH.
  - apply (IH (with_env (f (env w)) w)); try done.
    by apply (Inv_step (UserAssign f) w).
Qed.

(** An Until constructed started polls for a fresh promise. *)
Lemma until_waiting_new c w u w0 :
  reachable w -> Until_new c true w = Some (u, w0) ->
  let p := S (length (promises w)) in
  Inv w0 /\ until_waiting u p (_currentId (registry w)) c (now (registry w0)) w0 /\
  promises w0 !! p = Some Pending /\
  (exists un, untils w0 !! u = Some un /\ u_promise un = p) /\
  env w0 = env w.
Proof.
  intros Hreach Hn p.
  assert (step (NewUntil c true) w = Some w0) as Hs by (unfold step; by rewrite Hn).
  pose proof (reachable_Inv _ Hreach) as HI.
  pose proof (reachable_refs _ Hreach) as [Hrd Hrm].
  split; [by eapply Inv_step|]. clear Hs.
  unfold Until_new, Until_start in Hn. simpl in Hn.
  rewrite list_lookup_middle in Hn by done. simpl in Hn. injection Hn as <- <-.
  assert (length (promises w ++ [Fulfilled]) = p) as Hlen
    by (rewrite length_app; simpl; unfold p; lia).
  rewrite Hlen. split; [|split_and!; simpl].
  - unfold until_waiting. split_and!; simpl.
    + intros d dl Hdl%Hrd. lia.
    + intros j k it u' k' p' [[-> _]|Hj]%Map_set_lookup Hh Hne; [done|].
      pose proof (wf_ih w (proj1 HI) _ _ _ Hj) as Hok. rewrite Hh in Hok.
      destruct Hok as [_ (un & c' & Hun & _)]. apply lookup_lt_Some in Hun.
      pose proof (Hrm _ _ _ _ _ _ Hj Hh). lia.
    + left. destruct (Map_set_has (_currentId (registry w))
                        (mkInterval (HPoll (length (untils w)) (_currentId (registry w)) p)
                           [] 0 (_lastTime (registry w) + 0))
                        (reg_intervals w)) as [j Hj].
      eexists j, _, _. split; [exact Hj|]. simpl. unfold now. simpl. split_and!; try done.
      * lia.
      * apply list_lookup_insert_eq. rewrite length_app. simpl. lia.
      * done.
      * rewrite <- Hlen. by apply list_lookup_middle.
  - rewrite <- Hlen. by apply list_lookup_middle.
  - eexists.
    split; [apply list_lookup_insert_eq; rewrite length_app; simpl; lia|done].
  - done.
Qed.

(** X14.  An Until constructed started fulfils its promise at the first
    [update] at which its condition holds, and not before: in a program
    that assigns its variables and calls [update] with deltas that are not
    negative, the promise is fulfilled when the condition held at one of
    the calls of [update] and it is pending otherwise.  The condition is
    read at the calls of [update] only: that it held between two calls
    does not count. *)
Theorem X14_an_until_is_fulfilled_at_the_first_update_its_condition_holds
    (w : World) c u w0 (ops : list Op) :
  reachable w -> Until_new c true w = Some (u, w0) -> Forall user_forward ops ->
  exists un w', untils w0 !! u = Some un /\
    promises w0 !! u_promise un = Some Pending /\
    run ops w0 = Some w' /\
    promises w' !! u_promise un =
      Some (if until_outcome c (env w) ops then Fulfilled else Pending).
Proof.
  intros Hreach Hn Hall.
  destruct (until_waiting_new _ _ _ _ Hreach Hn) as (HI & HP & Hpe & (un & Hun & Hp) & He).
  destruct (run_user_until _ _ _ _ ops w0 HI Hall HP Hpe) as (w' & Hr & Hp').
  exists un, w'. rewrite Hp, <- He. by split_and!.
Qed.

(** X15.  [Time.while(condition)] waits as long as the condition holds:
    the promise of a While constructed started is fulfilled when the
    condition failed at one of the calls of [update], and it is pending
    otherwise. *)
Theorem X15_a_while_is_fulfilled_at_the_first_update_its_condition_fails
    (w : World) c u w0 (ops : list Op) :
  reachable w -> While_new c true w = Some (u, w0) -> Forall user_forward ops ->
  exists un w', untils w0 !! u = Some un /\
    promises w0 !! u_promise un = Some Pending /\
    run ops w0 = Some w' /\
    promises w' !! u_promise un =
      Some (if until_outcome (fun e => negb (c e)) (env w) ops then Fulfilled else Pending).
Proof.
  unfold While_new. intros Hreach Hn Hall.
  destruct (until_waiting_new _ _ _ _ Hreach Hn) as (HI & HP & Hpe & (un & Hun & Hp) & He).
  destruct (run_user_until _ _ _ _ ops w0 HI Hall HP Hpe) as (w' & Hr & Hp').
  exists un, w'. rewrite Hp, <- He. by split_and!.
Qed.

(** ** Events *)

(** X16.  The listeners of an event: [remove] takes out the first
    occurrence of a listener and leaves the list as it is when the listener
    is not in it, so it undoes an [add] of a listener that was not in the
    list, while a listener added twice stays once; [fire] calls the
    listeners in the order they were added, each as often as it is in the
    list, and touches nothing else. *)
Theorem X16_event_remove_takes_out_the_first_occurrence l (ls : list nat) :
  (l ∉ ls -> Event_remove l ls = ls) /\
  (forall ls1 ls2, l ∉ ls1 -> Event_remove l (ls1 ++ l :: ls2) = ls1 ++ ls2) /\
  (l ∉ ls -> Event_remove l (Event_add l ls) = ls) /\
  (l ∉ ls -> Event_remove l (Event_add l (Event_add l ls)) = Event_add l ls) /\
  (forall t (w : World),
     Event_fire ls t w =
       mkWorld (registry w) (promises w) (intervals w) (delays w) (untils w) (awaiters w)
         (env w) (trace w ++ ((fun l => OListener l t) <$> ls))).
Proof.
  assert (forall ls1 ls2, l ∉ ls1 -> Event_remove l (ls1 ++ l :: ls2) = ls1 ++ ls2) as Hmid.
  { intros ls1 ls2. induction ls1 as [|x ls1 IH]; intros Hnin; simpl.
    - by rewrite Nat_eqb_self.
    - apply not_elem_of_cons in Hnin as [Hne Hnin].
      destruct (Nat.eqb_spec x l) as [->|_]; [done|]. by rewrite IH. }
  assert (forall ls0 : list nat, l ∉ ls0 -> Event_remove l ls0 = ls0) as Hid.
  { induction ls0 as [|x ls0 IH]; intros Hnin; [done|]. simpl.
    apply not_elem_of_cons in Hnin as [Hne Hnin].
    destruct (Nat.eqb_spec x l) as [->|_]; [done|]. by rewrite IH. }
  split_and!; try done.
  - apply Hid.
  - intros Hnin. unfold Event_add. rewrite (Hmid ls []) by done. apply app_nil_r.
  - intros Hnin. unfold Event_add. rewrite <- app_assoc. simpl. by apply Hmid.
  - intros t w. apply Event_fire_eq.
Qed.

(** ** Starting an Interval *)


(** ** Cancelling a Delay *)

Lemma delay_idle_update d p delta w w' :
  wf w -> update delta w = Some w' -> delay_idle d p w ->
  delay_idle d p w' /\ promises w' !! p = promises w !! p.
Proof.
  intros Hwf Hu HP.
  apply (update_steps (fun w1 => delay_idle d p w1 /\ promises w1 !! p = promises w !! p)
           (_lastTime (registry w) + delta) ) with (delta := delta) (w := w);
    try done; clear.
  - intros j k it w0 w1 Hwf [(Hd & Hm & Ht) Hp] Hj _ Hrun.
    pose proof (run_handler_refs _ _ _ _ Hrun) as (_ & Hd1 & Hm1 & Ht1 & _).
    simpl in Hd1, Hm1, Ht1. split; [split_and!; simpl|simpl].
    + intros d' dl' (dl0 & Hdl0 & ->)%Hd1 Hne. by eapply Hd.
    + intros j' k2 it2 u k' p' (it0 & Hj' & Hh0 & _)%rearm_lookup_inv Hh'.
      apply Hm1 in Hj'. apply (Hm j' k2 it0 u k' p'); [done|congruence].
    + rewrite Ht1. apply Ht.
    + rewrite <- Hp. apply (run_handler_promise _ _ _ _ p Hrun).
      pose proof (wf_ih w0 Hwf _ _ _ Hj) as Hok.
      destruct (i_handler it) as [tag|i|d0|u k' p'] eqn:Hh; simpl in Hok; try done.
      by eapply Hm.
  - intros j k t w0 w1 Hwf [(Hd & Hm & Ht) Hp] Hj _ Hrun.
    pose proof (run_handler_refs _ _ _ _ Hrun) as (_ & Hd1 & Hm1 & Ht1 & _).
    simpl in Hd1, Hm1, Ht1. split; [split_and!; simpl|simpl].
    + intros d' dl' (dl0 & Hdl0 & ->)%Hd1 Hne. by eapply Hd.
    + intros j' k2 it2 u k' p' Hj'%Hm1 Hh'. by eapply Hm.
    + rewrite Ht1. intros j' k2 t2 [_ Hj']%Map_delete_lookup. by eapply Ht.
    + rewrite <- Hp. apply (run_handler_promise _ _ _ _ p Hrun).
      pose proof (wf_th w0 Hwf _ _ _ Hj) as Hok.
      destruct (t_handler t) as [tag|i|d0|u k' p'] eqn:Hh; simpl in Hok; try done.
      simpl. intros dl Hdl. eapply Hd; [done|]. intros ->. by eapply Ht.
Qed.

Lemma run_updates_idle d p deltas : forall w,
  Inv w -> delay_idle d p w ->
  exists w', run (RegUpdate <$> deltas) w = Some w' /\ promises w' !! p = promises w !! p.
Proof.
  induction deltas as [|delta ds IH]; intros w HI HP; [by exists w|].
  destruct (update_spec delta w (proj1 HI)) as (w1 & Hu & _).
  destruct (delay_idle_update _ _ _ _ _ (proj1 HI) Hu HP) as [HP1 Hp1].
  destruct (IH w1 (Inv_update _ _ _ Hu HI) HP1) as (w' & Hr & Hp').
  exists w'. simpl. rewrite Hu. simpl. split; [done|congruence].
Qed.

(** X18.  [cancel()] stops a Delay that was constructed started, when the
    identifier of its one-shot item is not 0: the item is cleared, so no
    later [update] fulfils the promise; the promise is rejected with
    ["cancelled"] when the Delay was constructed with
    [rejectOnCancel = true] and it stays pending otherwise. *)
Theorem X18_cancel_stops_a_delay_whose_identifier_is_not_zero
    (w : World) dur roc d w0 deltas :
  reachable w -> _currentId (registry w) <> 0 ->
  Delay_new dur roc true w = Some (d, w0) ->
  exists dl w1 w', delays w0 !! d = Some dl /\
    Delay_cancel d w0 = Some w1 /\
    run (RegUpdate <$> deltas) w1 = Some w' /\
    promises w' !! d_promise dl =
      Some (if roc then Rejected "cancelled" else Pending).
Proof.
  intros Hreach Hid Hn.
  destruct (delay_waiting_new _ _ _ _ _ Hreach Hn)
    as (HI & (_ & Hoth & Hpoll & Hkey & _) & Hpe & _ & _).
  assert (exists dl, delays w0 !! d = Some dl /\ d_promise dl = length (promises w) /\
            d_canceller dl = DCArmed (_currentId (registry w)) (length (promises w)) /\
            d_rejectOnCancel dl = roc) as (dl & Hdl & Hp & Hc & Hroc).
  { clear HI Hoth Hpoll Hkey Hpe. unfold Delay_new, Delay_start in Hn. simpl in Hn.
    rewrite list_lookup_middle in Hn by done. simpl in Hn. injection Hn as <- <-.
    eexists. simpl.
    split; [apply list_lookup_insert_eq; rewrite length_app; simpl; lia|].
    simpl. by destruct (Z.eqb_spec (_currentId (registry w)) 0). }
  destruct (Delay_cancel d w0) as [w1|] eqn:Hcan;
    [|unfold Delay_cancel in Hcan; rewrite Hdl in Hcan; simpl in Hcan;
      by rewrite Hc in Hcan].
  pose proof (Inv_step (DelayCancel d) _ _ Hcan HI) as HI1.
  assert (delay_idle d (length (promises w)) w1 /\
          promises w1 !! length (promises w)
            = Some (if roc then Rejected "cancelled" else Pending)) as [HP1 Hp1].
  { clear HI1. unfold Delay_cancel in Hcan. rewrite Hdl in Hcan. simpl in Hcan.
    rewrite Hc, Hroc in Hcan. injection Hcan as <-.
    split; [split_and!|]; destruct roc; simpl.
    all: try (intros d' dl' Hdl' Hne; rewrite list_lookup_insert_ne in Hdl' by done;
              by eapply Hoth).
    all: try done.
    all: try (intros j k t [Hne Hj]%Map_delete_lookup Hh; apply Hne;
              by apply (Hkey _ _ _ Hj)).
    by apply settle_pending. }
  destruct (run_updates_idle _ _ deltas w1 HI1 HP1) as (w' & Hr & Hp').
  exists dl, w1, w'. rewrite Hp. split_and!; try done. congruence.
Qed.

(** ** Resetting and restarting a Delay *)





End Properties.

(** * The claims on concrete worlds *)

Lemma demo_world_reachable : reachable demo_world.
Proof. exists 0, tt, demo_ops. reflexivity. Qed.

(** C1 fails as stated: the scenario does not produce the ticks 500 and
    1000. *)
Lemma C1_two_ticks_at_500_and_1000_refuted :
  ~ (exists i w1 w2,
       Interval_new 500 true (World_new 0 tt) = Some (i, w1) /\
       update 1100 w1 = Some w2 /\
       ticks i (trace w2) = [500; 1000]).
Proof.
  intros (i & w1 & w2 & H1 & H2 & H3).
  vm_compute in H1. injection H1 as <- <-.
  vm_compute in H2. injection H2 as <-.
  vm_compute in H3. discriminate.
Qed.

Lemma C2_witness :
  reachable demo_world /\
  exists w' new,
    update 1100 demo_world = Some w' /\ trace w' = trace demo_world ++ new /\
    count_occ Z.eq_dec (fires KInterval new) MIN_SAFE_INTEGER = 1%nat /\
    count_occ Z.eq_dec (fires KTimeout new) (MIN_SAFE_INTEGER + 1) = 1%nat /\
    _lastTime (registry w') = 1100.
Proof.
  split; [apply demo_world_reachable|].
  destruct (C2_update_fires_each_due_item_once demo_world 1100 demo_world_reachable)
    as (w' & new & Hu & Htr & Hi & _ & Ht & _ & Hl).
  exists w', new. split_and!; [exact Hu|exact Htr| | |exact Hl].
  - exact (proj1 (Hi 0%nat _ _ eq_refl)).
  - exact (proj1 (Ht 0%nat _ _ eq_refl)).
Defined.

(** C3 fails as stated: the item of 500 ms created at time 0 is due at 500;
    it fires in [update(1100)] and is then due at 1600, not at
    500 + 500. *)
Lemma C3_due_time_not_increased_by_the_period :
  exists w' it it',
    update 1100 demo_world = Some w' /\
    Map_get MIN_SAFE_INTEGER (_intervals (registry demo_world)) = Some it /\
    Map_get MIN_SAFE_INTEGER (_intervals (registry w')) = Some it' /\
    fires KInterval (trace w') = [MIN_SAFE_INTEGER] /\
    i_allowedExecutionTime it = 500 /\ i_interval it = 500 /\
    i_allowedExecutionTime it' = 1600 /\
    i_allowedExecutionTime it' <> i_allowedExecutionTime it + i_interval it.
Proof. eexists _, _, _. split_and!; try reflexivity. vm_compute. discriminate. Qed.

Lemma C3_witness :
  reachable demo_world /\
  exists w', update 1100 demo_world = Some w' /\
    forall it', _intervals (registry w') !! 0%nat = Some (Some (MIN_SAFE_INTEGER, it')) ->
      i_allowedExecutionTime it' = 1600.
Proof.
  split; [apply demo_world_reachable|].
  destruct (@C3_due_times_follow_the_registry_clock unit) as (_ & _ & _ & _ & H).
  destruct (H demo_world 1100 demo_world_reachable) as (w' & Hu & Hd).
  exists w'. split; [exact Hu|]. intros it' Hit'.
  refine (Hd 0%nat _ _ it' eq_refl _ Hit'). vm_compute. discriminate.
Defined.

(** C4 fails as stated: [update(-1)] makes [now()] return less than
    before. *)
Lemma C4_now_decreases_on_negative_delta :
  exists w' : @World unit,
    run [RegUpdate (-1)] (World_new 0 tt) = Some w' /\
    now (registry w') < now (registry (World_new 0 tt)).
Proof. eexists. split; [reflexivity|]. vm_compute. reflexivity. Qed.

Lemma C4_witness :
  Forall (@forward unit) [RegUpdate 1100; RegClearInterval 7; RegUpdate 0] /\
  exists w', run [RegUpdate 1100; RegClearInterval 7; RegUpdate 0] demo_world = Some w' /\
    now (registry demo_world) <= now (registry w').
Proof.
  assert (Forall (@forward unit) [RegUpdate 1100; RegClearInterval 7; RegUpdate 0]) as Hf.
  { repeat constructor; simpl; lia. }
  split; [exact Hf|].
  destruct (run [RegUpdate 1100; RegClearInterval 7; RegUpdate 0] demo_world)
    as [w'|] eqn:Hr; [|vm_compute in Hr; discriminate].
  exists w'. split; [reflexivity|].
  exact (C4_now_monotone_when_no_delta_is_negative _ demo_world w' Hr Hf).
Defined.

(** C5 fails as stated: a registry at time [2^54] with a one-shot item of
    delay 0, due at [2^54].  The sum [2^54 + (-1)] is [2^54] in binary64, so
    [update(-1)] finds the item due and invokes it, and the clock stays
    where it is. *)
Lemma C5_negative_delta_fires_where_the_sum_rounds :
  exists id r1 tr r2,
    Binary64.setTimeout 1 (Some 0%float) []
      (Binary64.Registry_new 18014398509481984%float) = (id, r1) /\
    Binary64.update (-1)%float r1 = (tr, r2) /\
    tr = [OFire KTimeout id; OUser 1 []] /\
    Binary64.now r2 = Binary64.now r1 /\
    (Binary64.now r2 <? Binary64.now r1)%float = false.
Proof. eexists _, _, _, _. split; [reflexivity|]. split; [reflexivity|]. done. Qed.

(** Below [2^53] the two registries agree on this scenario: the item is not
    invoked and the clock moves back. *)
Lemma Binary64_negative_delta_at_a_safe_time :
  exists id r1 r2,
    Binary64.setTimeout 1 (Some 0%float) [] (Binary64.Registry_new 1000%float) = (id, r1) /\
    Binary64.update (-1)%float r1 = ([], r2) /\
    Binary64.now r2 = 999%float.
Proof. eexists _, _, _. split; [reflexivity|]. split; reflexivity. Qed.

Lemma C5_witness :
  reachable demo_world /\
  exists w', update (-5) demo_world = Some w' /\
    now (registry w') < now (registry demo_world) /\ trace w' = trace demo_world.
Proof.
  split; [apply demo_world_reachable|].
  destruct (C5_registry_total_and_exact_negative_delta_fires_nothing demo_world
              demo_world_reachable) as [_ H].
  destruct (H (-5)) as (w' & Hu & _ & Hlt & Htr & _);
    [lia|split; vm_compute; congruence..|].
  exists w'. split_and!; [exact Hu|exact Hlt|exact Htr].
Defined.

(** C6 fails on the code.  A Delay with [rejectOnCancel = false] on which
    [start()] is called twice holds two timeouts, because [start] never sets
    [_isStarted]; [cancel()] clears the second one only.  The promise, still
    pending after [cancel()], is fulfilled when the first timeout fires. *)
Theorem C6_cancelled_delay_is_fulfilled_by_the_stale_timeout :
  exists d w1 w2 w3 p,
    Delay_new 10 false false (World_new 0 tt) = Some (d, w1) /\
    run [DelayStart d; DelayStart d; DelayCancel d] w1 = Some w2 /\
    d_promise <$> delays w2 !! d = Some p /\
    promises w2 !! p = Some Pending /\
    Map_keys (_timeouts (registry w2)) = [MIN_SAFE_INTEGER] /\
    update 10 w2 = Some w3 /\
    promises w3 !! p = Some Fulfilled.
Proof.
  eexists _, _, _, _, _.
  split; [vm_compute; reflexivity|]. split; [vm_compute; reflexivity|].
  split_and!; vm_compute; reflexivity.
Qed.

(** The other slip of [_createCanceler]: a timeout whose identifier is 0
    counts as absent, so the Delay started with it cannot be cancelled. *)
Lemma Delay_started_with_id_zero_cannot_cancel {Env : Type} (w : @World Env) d dl :
  delays w !! d = Some dl -> d_isStarted dl = false -> d_isInitialized dl = true ->
  _currentId (registry w) = 0 ->
  exists w' dl', Delay_start d w = Some w' /\ delays w' !! d = Some dl' /\
    d_canceller dl' = DCNoop /\ 0 ∈ Map_keys (_timeouts (registry w')).
Proof.
  intros Hd Hs Hi Hid. unfold Delay_start. rewrite Hd. simpl. rewrite Hs, Hi. simpl.
  rewrite Hid. simpl. eexists _, _. split; [done|]. simpl. split_and!.
  - apply list_lookup_insert_eq. by eapply lookup_lt_Some.
  - done.
  - rewrite Map_keys_set. case_decide; [done|]. apply elem_of_app. right.
    apply list_elem_of_here.
Qed.

(** C7 fails on the code for Delay.  A Delay that is running (constructed
    with [autoStart = true]) and on which [start()] is called again sets a
    second timeout and re-arms its canceller with it. *)
Theorem C7_delay_second_start_sets_a_second_timeout :
  exists d w1 w2,
    Delay_new 1000 true true (World_new 0 tt) = Some (d, w1) /\
    Delay_start d w1 = Some w2 /\
    Map_keys (_timeouts (registry w1)) = [MIN_SAFE_INTEGER] /\
    Map_keys (_timeouts (registry w2)) = [MIN_SAFE_INTEGER; MIN_SAFE_INTEGER + 1] /\
    d_canceller <$> delays w1 !! d = Some (DCArmed MIN_SAFE_INTEGER 0) /\
    d_canceller <$> delays w2 !! d = Some (DCArmed (MIN_SAFE_INTEGER + 1) 0) /\
    d_isStarted <$> delays w1 !! d = Some false.
Proof.
  eexists _, _, _.
  split; [vm_compute; reflexivity|]. split; [vm_compute; reflexivity|].
  split_and!; vm_compute; reflexivity.
Qed.

Lemma C8_witness :
  exists u w1 p w2 w3 un,
    Until_new (fun _ : unit => false) false (World_new 0 tt) = Some (u, w1) /\
    run [UntilThen u 5; RegUpdate 16] w1 = Some w2 /\
    promises w2 !! p = Some Fulfilled /\ (5%nat, p) ∈ awaiters w2 /\
    Until_start u w2 = Some w3 /\ untils w3 !! u = Some un /\
    u_promise un <> p /\ promises w3 !! u_promise un = Some Pending /\
    awaiters w3 = awaiters w2.
Proof.
  destruct (C8_until_not_started_holds_a_fulfilled_promise
              (fun _ : unit => false) (World_new 0 tt))
    as (u & w1 & p & Hn & Hlk & _ & Hful & H).
  vm_compute in Hn. injection Hn as <- <-.
  vm_compute in Hlk. injection Hlk as <-.
  destruct (run [UntilThen 0%nat 5%nat; RegUpdate 16]
              (with_untils [mkUntil 0 (Some (fun _ : unit => false)) false]
                 (with_promises [Fulfilled] (World_new 0 tt)))) as [w2|] eqn:Hr.
  2: { vm_compute in Hr. discriminate. }
  destruct (H _ w2 Hr) as [_ (w3 & un & Hs & Hun & _ & Hne & Hpe & _ & Haw & _)].
  { intros Hin. apply list_elem_of_In in Hin. simpl in Hin.
    destruct Hin as [Hin|[Hin|[]]]; discriminate. }
  eexists 0%nat, _, 0%nat, w2, w3, un.
  split_and!; [reflexivity|exact Hr|by eapply Hful| |exact Hs|exact Hun|exact Hne
              |exact Hpe|exact Haw].
  vm_compute in Hr. injection Hr as <-. simpl. apply list_elem_of_here.
Defined.

Lemma C9_witness :
  Until_start 0 until_world0 = Some until_world1 /\
  exists w2, run until_ops until_world1 = Some w2 /\
    promises w2 !! 1%nat = Some Fulfilled /\
    Until_start 0 w2 = Some w2.
Proof.
  split; [reflexivity|].
  destruct (run until_ops until_world1) as [w2|] eqn:Hr; [|vm_compute in Hr; discriminate].
  exists w2. split; [reflexivity|]. split.
  - vm_compute in Hr. injection Hr as <-. reflexivity.
  - exact (proj2 (C9_until_started_stays_started 0%nat until_world0 until_world1
                    until_ops w2 eq_refl Hr)).
Defined.

Lemma C10_witness :
  reachable cancelled_delay_world /\
  last_event 0 (trace cancelled_delay_world) = Some (ODelayCancel 0) /\
  promises cancelled_delay_world !! 0%nat = Some (Rejected "cancelled") /\
  exists w', Delay_cancel 0 cancelled_delay_world = Some w' /\
    registry w' = registry cancelled_delay_world /\
    promises w' = promises cancelled_delay_world /\
    delays w' = delays cancelled_delay_world.
Proof.
  assert (reachable cancelled_delay_world) as Hr.
  { exists 0, tt, [NewDelay 10 true true; DelayCancel 0%nat]. reflexivity. }
  split; [exact Hr|]. split; [reflexivity|]. split; [reflexivity|].
  destruct (C10_cancel_of_a_delay_not_running_is_a_noop cancelled_delay_world 0%nat _ Hr
              eq_refl (or_intror (or_intror eq_refl)))
    as (w' & Hc & _ & Hreg & Hp & Hd & _).
  exists w'. split_and!; [exact Hc|exact Hreg|exact Hp|exact Hd].
Defined.

(** * The further properties on concrete worlds *)

Lemma idle_interval_world_reachable : reachable idle_interval_world.
Proof. exists 0, tt, [NewInterval 500 false]. reflexivity. Qed.

Lemma interval_world_reachable : reachable interval_world.
Proof. exists 0, tt, [NewInterval 500 true]. reflexivity. Qed.

Lemma new_world_reachable {Env : Type} (e : Env) : reachable (World_new 0 e).
Proof. exists 0, e, []. reflexivity. Qed.

Lemma X1_witness :
  id_in_range (Registry_new 0) /\ NoDup (generate_ids 3 (Registry_new 0)).1.
Proof.
  assert (id_in_range (Registry_new 0)) as Hr by (split; vm_compute; congruence).
  split; [exact Hr|].
  apply (X1_generated_ids_distinct_within_one_period 3 (Registry_new 0) Hr).
  vm_compute. congruence.
Defined.

Lemma X2_witness :
  reachable demo_world /\ id_in_range (registry demo_world).
Proof.
  split; [apply demo_world_reachable|].
  apply (X2_identifiers_stay_in_the_safe_range demo_world demo_world_reachable).
Defined.

Lemma X3_witness :
  5 <> MIN_SAFE_INTEGER /\
  let r1 := (setInterval (HUser 1) (Some 500) [] (Registry_new 0)).2 in
  Map_get MIN_SAFE_INTEGER (_intervals (clearInterval MIN_SAFE_INTEGER r1)) = None /\
  Map_get 5 (_intervals r1) = Map_get 5 (_intervals (Registry_new 0)).
Proof.
  assert (5 <> MIN_SAFE_INTEGER) as Hne by (vm_compute; congruence).
  split; [exact Hne|].
  destruct (X3_schedule_then_clear_touches_one_identifier
              (HUser 1) (Some 500) [] (Registry_new 0) 5)
    as (_ & _ & _ & Hc & _ & _ & _ & _ & Hk & _).
  split; [exact Hc|]. exact (proj1 (Hk Hne)).
Defined.

Lemma X4_witness :
  Map_get 5 (_intervals (registry demo_world)) = None /\
  clearInterval 5 (registry demo_world) = registry demo_world.
Proof.
  split; [reflexivity|].
  apply (proj1 (X4_clearing_an_unknown_identifier_changes_nothing 5 (registry demo_world))).
  reflexivity.
Defined.

Lemma X5_witness :
  reachable demo_world /\
  exists w' new1 new2,
    update 1100 demo_world = Some w' /\ trace w' = trace demo_world ++ new1 ++ new2 /\
    fires KInterval new1 = [MIN_SAFE_INTEGER] /\
    fires KTimeout new2 = [MIN_SAFE_INTEGER + 1].
Proof.
  split; [apply demo_world_reachable|].
  destruct (X5_update_fires_intervals_before_timeouts demo_world 1100 demo_world_reachable)
    as (w' & new1 & new2 & Hu & Htr & Hf1 & _ & _ & Hf2).
  exists w', new1, new2. split_and!; [exact Hu|exact Htr|exact Hf1|exact Hf2].
Defined.

Lemma X6_witness :
  reachable demo_world /\
  forall j id t, reg_timeouts demo_world !! j = Some (Some (id, t)) ->
    now (registry demo_world) <= t_allowedExecutionTime t.
Proof.
  split; [apply demo_world_reachable|].
  apply (X6_no_pending_item_is_overdue demo_world demo_world_reachable).
Defined.

Lemma X7_witness :
  reachable demo_world /\
  exists w' new,
    run [RegClearInterval MIN_SAFE_INTEGER; RegUpdate 1100] demo_world = Some w' /\
    trace w' = trace demo_world ++ new /\ MIN_SAFE_INTEGER ∉ fires KInterval new.
Proof.
  split; [apply demo_world_reachable|].
  destruct (run [RegClearInterval MIN_SAFE_INTEGER; RegUpdate 1100] demo_world)
    as [w'|] eqn:Hr; [|vm_compute in Hr; discriminate].
  destruct (proj1 (X7_a_cleared_item_is_never_invoked demo_world MIN_SAFE_INTEGER
                     demo_world_reachable) [RegUpdate 1100] w')
    as (new & Htr & Hf); [repeat constructor|exact Hr|].
  exists w', new. split_and!; [reflexivity|exact Htr|exact Hf].
Defined.

Lemma X8_witness :
  reachable demo_world /\
  exists w' new,
    run [RegUpdate 1100; RegUpdate 100] demo_world = Some w' /\
    trace w' = trace demo_world ++ new /\
    count_occ Z.eq_dec (fires KTimeout new) (MIN_SAFE_INTEGER + 1) = 1%nat.
Proof.
  split; [apply demo_world_reachable|].
  destruct (run [RegUpdate 1100; RegUpdate 100] demo_world)
    as [w'|] eqn:Hr; [|vm_compute in Hr; discriminate].
  destruct (X8_a_one_shot_item_runs_exactly_once demo_world 1100 [RegUpdate 100] w'
              0%nat _ _ demo_world_reachable eq_refl)
    as (new & Htr & Hc); [vm_compute; congruence|repeat constructor|exact Hr|].
  exists w', new. split_and!; [reflexivity|exact Htr|exact Hc].
Defined.

Lemma X9_witness :
  reachable demo_world /\
  exists w', update 1100 demo_world = Some w' /\
    trace w' = trace demo_world
      ++ [OFire KInterval MIN_SAFE_INTEGER; OUser 1 [];
          OFire KTimeout (MIN_SAFE_INTEGER + 1); OUser 2 []].
Proof.
  split; [apply demo_world_reachable|].
  destruct (X9_update_records_follow_the_maps_at_the_call demo_world 1100
              demo_world_reachable) as (w' & Hu & Htr).
  exists w'. split; [exact Hu|exact Htr].
Defined.

Lemma X10_witness :
  reachable idle_interval_world /\ interval_stopped 0 idle_interval_world /\
  exists w' new,
    run [RegUpdate 1100; RegUpdate 1100] idle_interval_world = Some w' /\
    trace w' = trace idle_interval_world ++ new /\ ticks 0 new = [].
Proof.
  split; [apply idle_interval_world_reachable|].
  assert (interval_stopped 0 idle_interval_world) as Hst by (eexists; split; reflexivity).
  split; [exact Hst|].
  destruct (run [RegUpdate 1100; RegUpdate 1100] idle_interval_world)
    as [w'|] eqn:Hr; [|vm_compute in Hr; discriminate].
  destruct (proj1 (X10_an_interval_not_started_does_not_tick idle_interval_world 0%nat
                     idle_interval_world_reachable) [RegUpdate 1100; RegUpdate 1100] w' Hst)
    as (_ & new & Htr & Hti); [|exact Hr|].
  { intros Hin. apply list_elem_of_In in Hin. simpl in Hin.
    destruct Hin as [Hin|[Hin|[]]]; discriminate. }
  exists w', new. split_and!; [reflexivity|exact Htr|exact Hti].
Defined.

Lemma X11_witness :
  reachable interval_world /\
  exists w' pre post,
    update 1100 interval_world = Some w' /\
    trace w' = trace interval_world ++ pre
      ++ [OFire KInterval MIN_SAFE_INTEGER; OTick 0 0] ++ post /\
    ticks 0 pre = [] /\ ticks 0 post = [].
Proof.
  split; [apply interval_world_reachable|].
  destruct (X11_a_started_interval_ticks_once_per_update_when_due interval_world
              0%nat 0%nat _ _ 1100 interval_world_reachable eq_refl eq_refl)
    as (iv & w' & pre & post & Hiv & _ & Hu & Htr & Hpre & Hpost & _).
  vm_compute in Hiv. injection Hiv as <-.
  exists w', pre, post. split_and!; [exact Hu|exact Htr|exact Hpre|exact Hpost].
Defined.

Lemma X12_witness :
  exists w0 w' new,
    Interval_new 500 true (World_new 0 tt) = Some (0%nat, w0) /\
    run [RegUpdate 500; RegUpdate 1700; RegUpdate 500] w0 = Some w' /\
    trace w' = trace w0 ++ new /\ ticks 0 new = [0; 500; 2200].
Proof.
  destruct (X12_an_interval_ticks_in_every_update_spanning_a_period
              (World_new 0 tt) 500 _ _ [500; 1700; 500] (new_world_reachable tt) eq_refl)
    as (w' & new & Hr & Htr & Hti).
  { repeat constructor; vm_compute; congruence. }
  eexists _, w', new. split_and!; [reflexivity|exact Hr|exact Htr|exact Hti].
Defined.

Lemma X13_witness :
  exists d w0 dl w',
    Delay_new 10 false true (World_new 0 tt) = Some (d, w0) /\
    delays w0 !! d = Some dl /\
    run [RegUpdate 4; RegUpdate 6] w0 = Some w' /\
    promises w' !! d_promise dl = Some Fulfilled.
Proof.
  destruct (X13_a_delay_is_fulfilled_once_its_duration_has_elapsed
              (World_new 0 tt) 10 false _ _ [4; 6] (new_world_reachable tt) eq_refl)
    as (dl & w' & Hdl & _ & Hr & Hp); [repeat split; vm_compute; congruence..|].
  eexists _, _, dl, w'. split_and!; [reflexivity|exact Hdl|exact Hr|exact Hp].
Defined.

Lemma X14_witness :
  exists u w0 un w',
    Until_new (fun b : bool => b) true (World_new 0 false) = Some (u, w0) /\
    untils w0 !! u = Some un /\
    run until_ops w0 = Some w' /\
    promises w' !! u_promise un = Some Fulfilled.
Proof.
  destruct (X14_an_until_is_fulfilled_at_the_first_update_its_condition_holds
              (World_new 0 false) (fun b : bool => b) _ _ until_ops
              (new_world_reachable false) eq_refl)
    as (un & w' & Hun & _ & Hr & Hp).
  { repeat constructor; vm_compute; congruence. }
  eexists _, _, un, w'. split_and!; [reflexivity|exact Hun|exact Hr|exact Hp].
Defined.

Lemma X15_witness :
  exists u w0 un w',
    While_new (fun b : bool => b) true (World_new 0 true) = Some (u, w0) /\
    untils w0 !! u = Some un /\
    run [RegUpdate 16; UserAssign (fun _ => false); RegUpdate 16] w0 = Some w' /\
    promises w' !! u_promise un = Some Fulfilled.
Proof.
  destruct (X15_a_while_is_fulfilled_at_the_first_update_its_condition_fails
              (World_new 0 true) (fun b : bool => b) _ _
              [RegUpdate 16; UserAssign (fun _ => false); RegUpdate 16]
              (new_world_reachable true) eq_refl)
    as (un & w' & Hun & _ & Hr & Hp).
  { repeat constructor; vm_compute; congruence. }
  eexists _, _, un, w'. split_and!; [reflexivity|exact Hun|exact Hr|exact Hp].
Defined.

Lemma X16_witness :
  (1%nat ∉ [2%nat; 3%nat]) /\
  Event_remove 1 (Event_add 1 [2%nat; 3%nat]) = [2%nat; 3%nat].
Proof.
  assert (1%nat ∉ [2%nat; 3%nat]) as Hnin.
  { intros Hin. apply list_elem_of_In in Hin. simpl in Hin.
    destruct Hin as [Hin|[Hin|[]]]; discriminate. }
  split; [exact Hnin|].
  destruct (X16_event_remove_takes_out_the_first_occurrence (Env := unit)
              1%nat [2%nat; 3%nat]) as (_ & _ & H & _).
  exact (H Hnin).
Defined.


Lemma X18_witness :
  exists d w0 dl w1 w',
    Delay_new 10 true true (World_new 0 tt) = Some (d, w0) /\
    delays w0 !! d = Some dl /\ Delay_cancel d w0 = Some w1 /\
    run [RegUpdate 10; RegUpdate 10] w1 = Some w' /\
    promises w' !! d_promise dl = Some (Rejected "cancelled").
Proof.
  assert (_currentId (registry (World_new 0 tt)) <> 0) as Hid by (vm_compute; congruence).
  destruct (X18_cancel_stops_a_delay_whose_identifier_is_not_zero
              (World_new 0 tt) 10 true _ _ [10; 10] (new_world_reachable tt) Hid eq_refl)
    as (dl & w1 & w' & Hdl & Hc & Hr & Hp).
  eexists _, _, dl, w1, w'.
  split_and!; [reflexivity|exact Hdl|exact Hc|exact Hr|exact Hp].
Defined.

